(** * BCML orchestration core: [bcml/__main__.py]

    A shallow embedding of the result envelope ([win_or_lose]), of the
    install orchestrator entry points of [Api] ([install_mod],
    [update_mod], [apply_queue], [remerge]) and of the single-instance
    argument relay ([oneclick_listener]), with the properties the
    specification states about them, and of further entry points of
    [Api] ([sanity_check], [dir_exists], [old_settings], [get_backups],
    [check_mod_options], [mod_action], [export], [create_bnp],
    [gen_rstb]) with properties read off the code.

    The modules [bcml.install], [bcml.mergers], [bcml.util] and
    [bcml._oneclick] are collaborators of [__main__.py]; what they do is
    left open ([Collab]) and every call the orchestrator makes to them is
    recorded as an [Event]. *)

From Stdlib Require Import Strings.Byte.
From stdpp Require Import base option list strings gmap sets sorting pretty.

(** ** Python values, exceptions, mods and mergers *)

#[local] Unset Elimination Schemes.

(** The JSON-like values that travel through the parameter dictionaries. *)
Inductive PyVal :=
  | PyNone
  | PyBool (b : bool)
  | PyInt (z : Z)
  | PyStr (s : string)
  | PyDict (kvs : list (string * PyVal)).

(** An exception object: its class, [str(err)], the optional
    [error_text] attribute and, for [MergeError(err)], the exception it
    was built from. *)
Inductive PyExc :=
  mkExc {
    exc_class : string;
    exc_str : string;
    exc_error_text : option string;
    exc_arg : option PyExc
  }.

#[local] Set Elimination Schemes.

(** The built-in exception classes that derive from [BaseException] but
    not from [Exception].  An exception is known by the name of its
    class; every other class is taken to derive from [Exception]. *)
Definition BaseException_only : list string :=
  ["BaseException"; "BaseExceptionGroup"; "GeneratorExit";
   "KeyboardInterrupt"; "SystemExit"].

(** [isinstance(err, Exception)] *)
Definition is_Exception (err : PyExc) : bool :=
  bool_decide (exc_class err ∉ BaseException_only).

(** [BcmlMod]: what [BcmlMod.from_json] rebuilds from the parameters. *)
Record BcmlMod := mkMod {
  mod_name : string;
  mod_path : string;
  mod_priority : Z
}.

(** A merger object.  Merger classes carry [NAME] and [friendly_name];
    [oid] is the identity of the instance: Python sets of mergers hold
    instances, and two instances of one class are two elements. *)
Record Merger := mkMerger {
  NAME : string;
  friendly_name : string;
  oid : nat
}.

Record MergerClass := mkClass {
  cls_NAME : string;
  cls_friendly_name : string
}.

#[global] Instance PyVal_inhabited : Inhabited PyVal := populate PyNone.

#[global] Instance BcmlMod_eq_dec : EqDecision BcmlMod.
Proof. solve_decision. Defined.

#[global] Instance Merger_eq_dec : EqDecision Merger.
Proof. solve_decision. Defined.

#[global] Instance Merger_countable : Countable Merger.
Proof.
  refine (inj_countable' (λ m, (NAME m, friendly_name m, oid m))
                         (λ t, mkMerger t.1.1 t.1.2 t.2) _).
  by intros [].
Defined.

(** [{m.NAME for m in X}] *)
Definition names (X : gset Merger) : gset string := set_map NAME X.

(** [X | {m for m in Y if m.NAME not in {m.NAME for m in X}}]: the
    update both [install_mod] and [update_mod] apply to their merger
    set. *)
Definition add_unnamed (X Y : gset Merger) : gset Merger :=
  X ∪ filter (λ m, NAME m ∉ names X) Y.

(** ** Results, events and the orchestration monad *)

Inductive Res (A : Type) :=
  | Ok (a : A)
  | Raise (e : PyExc).
Arguments Ok {A} a.
Arguments Raise {A} e.

(** The arguments of one call to [install.install_mod]; an argument the
    caller leaves out (or passes as [None]) is [None]. *)
Record InstallCall := mkCall {
  ic_path : string;
  ic_options : PyVal;
  ic_selects : option PyVal;
  ic_insert_priority : option Z;
  ic_pool : nat
}.

(** The calls the orchestrator makes, in the order it makes them, each
    with what the call returned or raised.  A merge records the pool the
    merger object holds at that moment. *)
Inductive Event :=
  | EvPoolOpen (p : nat)
  | EvPoolClose (p : nat)
  | EvInstall (c : InstallCall) (r : Res BcmlMod)
  | EvChangePriority (m : BcmlMod) (p : Z) (r : Res unit)
  | EvSetPool (m : Merger) (p : nat)
  | EvPerformMerge (m : Merger) (p : option nat) (r : Res unit)
  | EvRmtree (path : string) (r : Res unit)
  | EvLinkMasterMod (r : Res unit)
  | EvRefreshMerges (r : Res unit)
  | EvRefreshMasterExport (r : Res unit)
  | EvFilePick (picked : list string)
  | EvLogWrite (s : string) (r : Res unit)
  | EvModMergers (m : BcmlMod) (mergers : gset Merger)
  | EvGetMergersForMod (m : BcmlMod) (mergers : gset Merger)
  | EvIsModLogged (m : Merger) (md : BcmlMod) (logged : bool).

(** The collaborators of [__main__.py].  [Env] is the world they act on
    (the mod directories, the logs of each merger, the windowing
    toolkit); a call either returns or raises, and may change the
    world. *)
Record Collab := mkCollab {
  Env : Type;
  (* bcml.install *)
  install_install_mod : InstallCall → Env → Res BcmlMod * Env;
  install_refresh_master_export : Env → Res unit * Env;
  install_refresh_merges : Env → Res unit * Env;
  install_link_master_mod : Env → Res unit * Env;
  (* bcml.util and the file system *)
  util_get_installed_mods : Env → list BcmlMod;
  util_get_master_modpack_dir : string;
  master_modpack_dir_exists : Env → bool;
  rmtree : string → Env → Res unit * Env;
  change_priority : BcmlMod → Z → Env → Res unit * Env;
  options_json : BcmlMod → Env → option (Res PyVal);
  mod_mergers : BcmlMod → Env → gset Merger;
  MergeError_error_text : PyExc → option string;
  (* bcml.mergers *)
  mergers_get_mergers : list MergerClass;
  mergers_get_mergers_for_mod : BcmlMod → Env → gset Merger;
  mergers_sort_mergers : gset Merger → list Merger;
  is_mod_logged : Merger → BcmlMod → Env → bool;
  perform_merge : Merger → option nat → Env → Res unit * Env;
  (* the window and the log file *)
  file_dialog : Env → list string * Env;
  log_write : string → Env → Res unit * Env;
  (* traceback.format_exc *)
  format_exc : PyExc → string
}.

(** [MergeError(err)]: the class lives in [bcml.util]; its instances are
    built from the caught exception. *)
Definition MergeError (C : Collab) (err : PyExc) : PyExc :=
  {| exc_class := "MergeError";
     exc_str := exc_str err;
     exc_error_text := MergeError_error_text C err;
     exc_arg := Some err |}.

Section Orchestration.
Context (C : Collab).

(** The state an operation threads: the world, the identities handed to
    new pools and merger instances, and the pool each merger instance
    currently holds ([Merger.set_pool] mutates the instance). *)
Record State := mkState {
  st_env : Env C;
  st_next_pool : nat;
  st_next_oid : nat;
  st_pools : gmap nat nat
}.

Definition M (A : Type) : Type := State → Res A * State * list Event.

Definition ret {A} (a : A) : M A := λ st, (Ok a, st, []).

Definition raise {A} (e : PyExc) : M A := λ st, (Raise e, st, []).

Definition bind {A B} (m : M A) (f : A → M B) : M B := λ st,
  match m st with
  | (Ok a, st1, t1) => let '(r, st2, t2) := f a st1 in (r, st2, t1 ++ t2)
  | (Raise e, st1, t1) => (Raise e, st1, t1)
  end.

(** [try: m / except Exception as err: h err]: an exception that is
    not an [Exception] ([KeyboardInterrupt], [SystemExit], ...) is not
    caught and leaves the statement as it is. *)
Definition try_except {A} (m : M A) (h : PyExc → M A) : M A := λ st,
  match m st with
  | (Ok a, st1, t1) => (Ok a, st1, t1)
  | (Raise e, st1, t1) =>
      if is_Exception e
      then let '(r, st2, t2) := h e st1 in (r, st2, t1 ++ t2)
      else (Raise e, st1, t1)
  end.

(** [try: m / finally: fin], for a [fin] that cannot raise. *)
Definition finally {A} (m : M A) (fin : M unit) : M A := λ st,
  let '(r, st1, t1) := m st in
  let '(_, st2, t2) := fin st1 in (r, st2, t1 ++ t2).

#[local] Instance M_ret : MRet M := @ret.
#[local] Instance M_bind : MBind M := λ A B f m, bind m f.

Fixpoint for_each {A} (l : list A) (body : A → M unit) : M unit :=
  match l with
  | [] => ret tt
  | x :: l' => body x ;; for_each l' body
  end.

(** A list comprehension whose element expression has effects. *)
Fixpoint map_M {A B} (f : A → M B) (l : list A) : M (list B) :=
  match l with
  | [] => ret []
  | x :: l' => y ← f x; ys ← map_M f l'; ret (y :: ys)
  end.

(** A [for] loop that carries one variable from iteration to iteration. *)
Fixpoint fold_M {A B} (f : B → A → M B) (b : B) (l : list A) : M B :=
  match l with
  | [] => ret b
  | x :: l' => b' ← f b x; fold_M f b' l'
  end.

(** *** Primitive steps *)

Definition set_env (st : State) (e : Env C) : State :=
  {| st_env := e; st_next_pool := st_next_pool st;
     st_next_oid := st_next_oid st; st_pools := st_pools st |}.

(** Reading the world without changing it. *)
Definition read {A} (f : Env C → A) : M A := λ st, (Ok (f (st_env st)), st, []).

(** Asking a collaborator about the world, recorded by [ev]. *)
Definition ask {A} (f : Env C → A) (ev : A → Event) : M A :=
  λ st, (Ok (f (st_env st)), st, [ev (f (st_env st))]).

(** A call to a collaborator, recorded by [ev]. *)
Definition call {A} (f : Env C → Res A * Env C) (ev : Res A → Event) : M A :=
  λ st, let '(r, e) := f (st_env st) in (r, set_env st e, [ev r]).

(** [Pool(maxtasksperchild=1000)] *)
Definition Pool_open : M nat := λ st,
  (Ok (st_next_pool st),
   {| st_env := st_env st; st_next_pool := S (st_next_pool st);
      st_next_oid := st_next_oid st; st_pools := st_pools st |},
   [EvPoolOpen (st_next_pool st)]).

Definition Pool_close (p : nat) : M unit := λ st, (Ok tt, st, [EvPoolClose p]).

(** [with Pool(maxtasksperchild=1000) as pool: body]: the pool is
    closed when the block is left, by its end or by an exception. *)
Definition with_Pool {A} (body : nat → M A) : M A :=
  pool ← Pool_open; finally (body pool) (Pool_close pool).

(** [merger()]: a new instance of a merger class. *)
Definition new_merger (c : MergerClass) : M Merger := λ st,
  (Ok (mkMerger (cls_NAME c) (cls_friendly_name c) (st_next_oid st)),
   {| st_env := st_env st; st_next_pool := st_next_pool st;
      st_next_oid := S (st_next_oid st); st_pools := st_pools st |},
   []).

(** [merger.set_pool(pool)] *)
Definition set_pool (m : Merger) (p : nat) : M unit := λ st,
  (Ok tt,
   {| st_env := st_env st; st_next_pool := st_next_pool st;
      st_next_oid := st_next_oid st; st_pools := <[oid m := p]> (st_pools st) |},
   [EvSetPool m p]).

(** [merger.perform_merge()], with the pool the instance holds. *)
Definition do_perform_merge (m : Merger) : M unit := λ st,
  let pool := st_pools st !! oid m in
  let '(r, e) := perform_merge C m pool (st_env st) in
  (r, set_env st e, [EvPerformMerge m pool r]).

Definition do_install (c : InstallCall) : M BcmlMod :=
  call (install_install_mod C c) (EvInstall c).

Definition do_rmtree (path : string) : M unit :=
  call (rmtree C path) (EvRmtree path).

Definition do_change_priority (m : BcmlMod) (p : Z) : M unit :=
  call (change_priority C m p) (EvChangePriority m p).

Definition do_refresh_master_export : M unit :=
  call (install_refresh_master_export C) EvRefreshMasterExport.

Definition do_refresh_merges : M unit :=
  call (install_refresh_merges C) EvRefreshMerges.

Definition do_link_master_mod : M unit :=
  call (install_link_master_mod C) EvLinkMasterMod.

(** [mod.mergers] *)
Definition do_mod_mergers (md : BcmlMod) : M (gset Merger) :=
  ask (mod_mergers C md) (EvModMergers md).

(** [mergers.get_mergers_for_mod(mod)] *)
Definition do_get_mergers_for_mod (md : BcmlMod) : M (gset Merger) :=
  ask (mergers_get_mergers_for_mod C md) (EvGetMergersForMod md).

(** [merger.is_mod_logged(mod)] *)
Definition do_is_mod_logged (m : Merger) (md : BcmlMod) : M bool :=
  ask (is_mod_logged C m md) (EvIsModLogged m md).

(** [merger.set_pool(pool); merger.perform_merge()] for each merger of
    [l], in the order of [l]. *)
Definition run_mergers (pool : nat) (l : list Merger) : M unit :=
  for_each l (λ merger, set_pool merger pool ;; do_perform_merge merger).

(** ** [win_or_lose] *)

Definition newline : string := String (Ascii.ascii_of_nat 10) EmptyString.

(** [setattr(err, "error_text", text)] *)
Definition setattr_error_text (err : PyExc) (text : string) : PyExc :=
  {| exc_class := exc_class err; exc_str := exc_str err;
     exc_error_text := Some text; exc_arg := exc_arg err |}.

(** [getattr(err, "error_text")], without a default. *)
Definition getattr_error_text (err : PyExc) : M string :=
  match exc_error_text err with
  | Some s => ret s
  | None => raise (mkExc "AttributeError" "error_text" None None)
  end.

(** [hasattr(err, "error_text")] *)
Definition hasattr_error_text (err : PyExc) : bool :=
  bool_decide (is_Some (exc_error_text err)).

(** [status_run], the function [win_or_lose(func)] returns, applied to
    the arguments [func] is given here. *)
Definition win_or_lose {A} (func : M A) : M (gmap string PyVal) :=
  r ← try_except (_ ← func; ret None) (λ err, ret (Some err));
  match r with
  | Some err =>
      let err := setattr_error_text err
                   (default (format_exc C err) (exc_error_text err)) in
      call (log_write C (newline +:+ exc_str err +:+ newline))
           (EvLogWrite (newline +:+ exc_str err +:+ newline)) ;;
      text ← getattr_error_text err;
      ret ({[ "error" := PyStr text;
              "error_text" := PyBool (hasattr_error_text err) ]} : gmap string PyVal)
  | None => ret ({[ "success" := PyBool true ]} : gmap string PyVal)
  end.

(** ** [Api.install_mod]

    The entry points below are the bodies of the methods of [Api].  In
    the source each is decorated with [win_or_lose], modelled above, and
    most also with [install.refresher], which belongs to [bcml.install];
    [print] and [util.vprint] only write to the console and are left
    out. *)

Record InstallParams := mkInstallParams {
  ip_mods : list string;
  ip_options : PyVal;
  ip_selects : option (gmap string PyVal)
}.

(** The merger set [install_mod] builds from the installed mods: for
    each mod in turn, the mergers of [mod.mergers] whose [NAME] is not
    yet in the set. *)
Definition collect_mergers (mods : list BcmlMod) : M (gset Merger) :=
  fold_M (λ merger_set md,
            declared ← do_mod_mergers md;
            ret (add_unnamed merger_set declared))
         ∅ mods.

(** The arguments [install_mod] passes to [install.install_mod] for the
    package [m]. *)
Definition install_call (params : InstallParams) (pool : nat) (m : string)
    : InstallCall :=
  let selects := default ∅ (ip_selects params) in
  {| ic_path := m;
     ic_options := ip_options params;
     ic_selects := selects !! m;
     ic_insert_priority := None;
     ic_pool := pool |}.

Definition install_mod (params : InstallParams) : M unit :=
  with_Pool (λ pool,
    mods ← map_M (λ m, do_install (install_call params pool m)) (ip_mods params);
    try_except
      (merger_set ← collect_mergers mods;
       run_mergers pool (mergers_sort_mergers C merger_set))
      (λ err, raise (MergeError C err))).

(** ** [Api.update_mod] *)

Definition update_mod (md : BcmlMod) : M unit :=
  picked ← (λ st, let '(l, e) := file_dialog C (st_env st) in
                  (Ok l, set_env st e, [EvFilePick l]));
  match picked with
  | [] => ret tt
  | update_file :: _ =>
      options ← (λ st, match options_json C md (st_env st) with
                       | Some r => (r, st, [])
                       | None => (Ok (PyDict []), st, [])
                       end);
      remergers ← do_get_mergers_for_mod md;
      do_rmtree (mod_path md) ;;
      with_Pool (λ pool,
        new_mod ← do_install {| ic_path := update_file;
                                ic_options := options;
                                ic_selects := None;
                                ic_insert_priority := Some (mod_priority md);
                                ic_pool := pool |};
        new_mergers ← do_get_mergers_for_mod new_mod;
        run_mergers pool (elements (add_unnamed remergers new_mergers)))
  end.

(** ** [Api.apply_queue] *)

Record Move := mkMove {
  mv_mod : BcmlMod;
  mv_priority : Z
}.

Record QueuedInstall := mkQueued {
  qi_path : string;
  qi_options : PyVal;
  qi_priority : Z
}.

Record QueueParams := mkQueue {
  qp_moves : list Move;
  qp_installs : list QueuedInstall
}.

(** [s.replace(old, new)] for a non-empty [old]: the occurrences of
    [old] are replaced from left to right, without overlap.  [skip]
    counts the characters of a replaced occurrence still to pass. *)
Fixpoint replace_from (old new : string) (skip : nat) (s : string) : string :=
  match s with
  | EmptyString => EmptyString
  | String c s' =>
      match skip with
      | S k => replace_from old new k s'
      | O =>
          if String.prefix old s
          then new +:+ replace_from old new (String.length old - 1) s'
          else String c (replace_from old new 0 s')
      end
  end.

Definition str_replace (old new s : string) : string := replace_from old new 0 s.

(** The two nested loops of [apply_queue] that fill [remergers]: a
    merger of [all_mergers] is added when it has logged [md] and no
    merger of its [NAME] is in the set yet. *)
Definition add_logged (md : BcmlMod) (remergers : gset Merger) (merger : Merger)
    : M (gset Merger) :=
  logged ← do_is_mod_logged merger md;
  ret (if (logged : bool) && bool_decide (NAME merger ∉ names remergers)
       then remergers ∪ {[ merger ]}
       else remergers).

Definition queue_remergers (all_mergers : list Merger) (mods : list BcmlMod)
    : M (gset Merger) :=
  fold_M (λ remergers md, fold_M (add_logged md) remergers all_mergers) ∅ mods.

(** The body of [for i in params["installs"]], with the list [mods] it
    extends. *)
Definition queue_install (pool : nat) (mods : list BcmlMod) (i : QueuedInstall)
    : M (list BcmlMod) :=
  new_mod ← do_install {| ic_path := str_replace "QUEUE" EmptyString (qi_path i);
                          ic_options := qi_options i;
                          ic_selects := None;
                          ic_insert_priority := Some (qi_priority i);
                          ic_pool := pool |};
  let mods := mods ++ [new_mod] in
  all_mergers ← map_M new_merger (mergers_get_mergers C);
  remergers ← queue_remergers all_mergers mods;
  run_mergers pool (mergers_sort_mergers C remergers) ;;
  ret mods.

Definition apply_queue (params : QueueParams) : M unit :=
  mods ← map_M (λ move_mod,
                  do_change_priority (mv_mod move_mod) (mv_priority move_mod) ;;
                  ret (mv_mod move_mod))
               (qp_moves params);
  with_Pool (λ pool, fold_M (queue_install pool) mods (qp_installs params)) ;;
  do_refresh_master_export.

(** ** [Api.remerge] *)

(** [[m() for m in mergers.get_mergers() if m().friendly_name == name]]:
    every class is instantiated for the test, and once more when it
    passes. *)
Fixpoint mergers_named (name : string) (classes : list MergerClass)
    : M (list Merger) :=
  match classes with
  | [] => ret []
  | m :: classes' =>
      probe ← new_merger m;
      if String.eqb (friendly_name probe) name
      then inst ← new_merger m;
           rest ← mergers_named name classes';
           ret (inst :: rest)
      else mergers_named name classes'
  end.

Definition IndexError : PyExc :=
  mkExc "IndexError" "list index out of range" None None.

Definition remerge (name : string) : M unit :=
  try_except
    (installed ← read (util_get_installed_mods C);
     match installed with
     | [] =>
         master_exists ← read (master_modpack_dir_exists C);
         if (master_exists : bool)
         then do_rmtree (util_get_master_modpack_dir C) ;; do_link_master_mod
         else ret tt
     | _ :: _ =>
         if String.eqb name "all"
         then do_refresh_merges
         else
           found ← mergers_named name (mergers_get_mergers C);
           match found with
           | [] => raise IndexError
           | merger :: _ => do_perform_merge merger
           end ;;
           do_refresh_master_export
     end)
    (λ err, raise (MergeError C err)).

End Orchestration.

Arguments mkState {C} _ _ _ _.
Arguments st_env {C} _.
Arguments st_next_pool {C} _.
Arguments st_next_oid {C} _.
Arguments st_pools {C} _.

#[global] Existing Instance M_ret.
#[global] Existing Instance M_bind.

(** ** What the collaborators make of the world *)

(** [install.install_mod] called for the calls of [calls] in turn,
    from the world [e]: the mods it returned and the world it left, or
    the exception of the first call that raised and the world at that
    point. *)
Fixpoint installs_from (C : Collab) (calls : list InstallCall) (e : Env C)
    : Res (list BcmlMod) * Env C :=
  match calls with
  | [] => (Ok [], e)
  | c :: calls' =>
      match install_install_mod C c e with
      | (Ok md, e1) =>
          match installs_from C calls' e1 with
          | (Ok mods, e2) => (Ok (md :: mods), e2)
          | (Raise err, e2) => (Raise err, e2)
          end
      | (Raise err, e1) => (Raise err, e1)
      end
  end.

(** [perform_merge] called on the mergers of [l] in turn, each holding
    the pool [pool], from the world [e]. *)
Fixpoint merges_from (C : Collab) (pool : nat) (l : list Merger) (e : Env C)
    : Res unit * Env C :=
  match l with
  | [] => (Ok tt, e)
  | m :: l' =>
      match perform_merge C m (Some pool) e with
      | (Ok _, e1) => merges_from C pool l' e1
      | (Raise err, e1) => (Raise err, e1)
      end
  end.

(** Modelled from the spec: the dependency edges between mergers and
    the order [mergers.sort_mergers] is to produce ([bcml/mergers] is
    not among the sources).  Section 4.3: [sort(subset)] produces "a
    deterministic execution order consistent with declared dependency
    edges (a merger depending on another's output is ordered after
    it)".  [depends m2 m1] reads: [m2] depends on the output of
    [m1]. *)
Definition consistent_with (depends : Merger → Merger → Prop) (l : list Merger)
    : Prop :=
  ∀ i j m1 m2, l !! i = Some m1 → l !! j = Some m2 → depends m2 m1 → i < j.

(** ** Reading a recorded run *)

(** The mergers whose [perform_merge] was invoked, in order. *)
Definition performed (t : list Event) : list Merger :=
  flat_map (λ ev, match ev with EvPerformMerge m _ _ => [m] | _ => [] end) t.

(** The mods an operation touched: those it moved and those it
    installed. *)
Definition touched (t : list Event) : list BcmlMod :=
  flat_map (λ ev, match ev with
                  | EvChangePriority md _ _ => [md]
                  | EvInstall _ (Ok md) => [md]
                  | _ => []
                  end) t.

(** The set a list of declared merger sets is folded into. *)
Definition merger_union (declared : list (gset Merger)) : gset Merger :=
  foldl add_unnamed ∅ declared.

(** What reading [mod.mergers] of each mod of [mods] in the world [e]
    returns, and what it records. *)
Definition declared_sets (C : Collab) (mods : list BcmlMod) (e : Env C)
    : list (gset Merger) :=
  (λ md, mod_mergers C md e) <$> mods.

Definition declared_events (C : Collab) (mods : list BcmlMod) (e : Env C)
    : list Event :=
  (λ md, EvModMergers md (mod_mergers C md e)) <$> mods.

(** A stretch of a run that consists of is-affected tests only. *)
Definition is_test (ev : Event) : Prop :=
  match ev with
  | EvModMergers _ _ | EvGetMergersForMod _ _ | EvIsModLogged _ _ _ => True
  | _ => False
  end.

(** The is-affected tests a run made that came out positive for the
    merger [m] and the mod [md]: [m.is_mod_logged(md)] returned [True],
    or [m] was among [md.mergers] or [get_mergers_for_mod(md)]. *)
Definition tested_affected (t : list Event) (m : Merger) (md : BcmlMod) : Prop :=
  EvIsModLogged m md true ∈ t
  ∨ ∃ X, m ∈ X ∧ (EvModMergers md X ∈ t ∨ EvGetMergersForMod md X ∈ t).

(** The exceptions raised by the merges of a run. *)
Definition merge_failures (t : list Event) : list PyExc :=
  flat_map (λ ev, match ev with
                  | EvPerformMerge _ _ (Raise err) => [err]
                  | EvRefreshMerges (Raise err) => [err]
                  | _ => []
                  end) t.

(** The exceptions raised by the installs of a run. *)
Definition install_failures (t : list Event) : list PyExc :=
  flat_map (λ ev, match ev with EvInstall _ (Raise err) => [err] | _ => [] end) t.

(** What [except Exception as err: raise MergeError(err)] makes of an
    outcome: [MergeError(err)] for an exception that is an [Exception],
    the outcome itself otherwise. *)
Definition or_MergeError (C : Collab) {A} (r : Res A) : Res A :=
  match r with
  | Ok a => Ok a
  | Raise err => Raise (if is_Exception err then MergeError C err else err)
  end.

(** The merger classes registered under a friendly name. *)
Definition classes_named (C : Collab) (name : string) : list MergerClass :=
  filter (λ c, cls_friendly_name c = name) (mergers_get_mergers C).

(** The pools handed to mergers by [set_pool]. *)
Definition pools_set (t : list Event) : list nat :=
  flat_map (λ ev, match ev with EvSetPool _ p => [p] | _ => [] end) t.

(** What running the mergers of [l] against [pool] records when none of
    them raises. *)
Definition merge_events (pool : nat) (l : list Merger) : list Event :=
  flat_map (λ m, [EvSetPool m pool; EvPerformMerge m (Some pool) (Ok tt)]) l.

(** What installing the packages of [calls] records when every install
    returns. *)
Definition install_events (calls : list InstallCall) (mods : list BcmlMod)
    : list Event :=
  zip_with (λ c md, EvInstall c (Ok md)) calls mods.

(** No two mergers of the set share a [NAME]. *)
Definition distinct_names (X : gset Merger) : Prop :=
  ∀ m1 m2, m1 ∈ X → m2 ∈ X → NAME m1 = NAME m2 → m1 = m2.

(** The outcome and the record of running the mergers of [l] in order:
    either all of them ran, or one of them raised and the rest did not
    run. *)
Inductive merge_run (pool : nat) (l : list Merger) : Res unit → list Event → Prop :=
  | merge_run_ok :
      merge_run pool l (Ok tt) (merge_events pool l)
  | merge_run_raise l1 m l2 err :
      l = l1 ++ m :: l2 →
      merge_run pool l (Raise err)
        (merge_events pool l1
         ++ [EvSetPool m pool; EvPerformMerge m (Some pool) (Raise err)]).

(** The outcome and the record of a list of installs: all of them
    returned a mod, or one raised and the rest were not attempted. *)
Inductive install_run (calls : list InstallCall)
    : Res (list BcmlMod) → list Event → Prop :=
  | install_run_ok mods :
      length mods = length calls →
      install_run calls (Ok mods) (install_events calls mods)
  | install_run_raise calls1 c calls2 mods1 err :
      calls = calls1 ++ c :: calls2 →
      length mods1 = length calls1 →
      install_run calls (Raise err)
        (install_events calls1 mods1 ++ [EvInstall c (Raise err)]).

(** A short reading of a record: the installs, moves, merges and
    refreshes, in order. *)
Definition outline (t : list Event) : list string :=
  flat_map (λ ev, match ev with
                  | EvInstall c _ => ["install " +:+ ic_path c]
                  | EvChangePriority md _ _ => ["move " +:+ mod_name md]
                  | EvPerformMerge m _ _ => ["merge " +:+ NAME m]
                  | EvRefreshMerges _ => ["refresh_merges"]
                  | EvRefreshMasterExport _ => ["refresh_master_export"]
                  | EvLinkMasterMod _ => ["link_master_mod"]
                  | EvRmtree path _ => ["rmtree " +:+ path]
                  | _ => []
                  end) t.

(** An envelope carries a value when one of its fields holds it. *)
Definition carries (envelope : gmap string PyVal) (v : PyVal) : Prop :=
  ∃ k, envelope !! k = Some v.

(** ** [oneclick_listener]: the single-instance argument relay *)

Module Relay.

(** *** UTF-8 *)

Definition in_range (lo hi b : N) : bool := ((lo <=? b) && (b <=? hi))%N.

Definition continuation (b : N) : bool := in_range 0x80 0xBF b.

(** The second byte of a three-byte sequence: no overlong forms, no
    surrogates. *)
Definition second_of_3 (b0 b1 : N) : bool :=
  if (b0 =? 0xE0)%N then in_range 0xA0 0xBF b1
  else if (b0 =? 0xED)%N then in_range 0x80 0x9F b1
  else continuation b1.

(** The second byte of a four-byte sequence: no overlong forms, nothing
    above U+10FFFF. *)
Definition second_of_4 (b0 b1 : N) : bool :=
  if (b0 =? 0xF0)%N then in_range 0x90 0xBF b1
  else if (b0 =? 0xF4)%N then in_range 0x80 0x8F b1
  else continuation b1.

(** Well-formed UTF-8, as the strict decoder of [bytes.decode("utf8")]
    accepts it. *)
Fixpoint utf8_valid (l : list N) : bool :=
  match l with
  | [] => true
  | b0 :: l1 =>
      if (b0 <=? 0x7F)%N then utf8_valid l1
      else
        match l1 with
        | [] => false
        | b1 :: l2 =>
            if in_range 0xC2 0xDF b0 then continuation b1 && utf8_valid l2
            else
              match l2 with
              | [] => false
              | b2 :: l3 =>
                  if in_range 0xE0 0xEF b0
                  then second_of_3 b0 b1 && continuation b2 && utf8_valid l3
                  else
                    match l3 with
                    | [] => false
                    | b3 :: l4 =>
                        in_range 0xF0 0xF4 b0 && second_of_4 b0 b1
                        && continuation b2 && continuation b3 && utf8_valid l4
                    end
              end
        end
  end.

(** [data.decode("utf8")]: the text, kept as its UTF-8 bytes, or
    [None] where Python raises [UnicodeDecodeError]. *)
Definition decode_utf8 (data : list Byte.byte) : option string :=
  if utf8_valid (Byte.to_N <$> data)
  then Some (String.string_of_list_byte data)
  else None.

(** [s.encode("utf8")] *)
Definition encode_utf8 (s : string) : list Byte.byte := String.list_byte_of_string s.

(** *** The sockets *)

#[global] Instance byte_eq_dec : EqDecision Byte.byte := Stdlib.Strings.Byte.byte_eq_dec.

(** [("127.0.0.1", 6666)] *)
Definition endpoint : string * Z := ("127.0.0.1", 6666%Z).

(** [b"."], the token that ends a relayed argument. *)
Definition terminator : list Byte.byte := [Byte.x2e].

(** What one [conn.recv(1024)] does: it returns bytes (none when the
    peer has closed), or raises [ConnectionResetError], or raises
    something else. *)
Inductive Recv :=
  | RecvData (data : list Byte.byte)
  | RecvReset
  | RecvError (e : PyExc).

Inductive NetEvent :=
  | NBind (ep : string * Z) (ok : bool)
  | NListen
  | NAccept (conn : nat)
  | NProcessArg (arg : string)
  | NCloseConn (conn : nat)
  | NCloseSock
  | NConnect (ep : string * Z)
  | NSend (data : list Byte.byte)
  | NExit (status : Z).

(** How the inner [while True] over one connection is left. *)
Inductive ConnEnd :=
  | Break
  | WaitingRecv
  | Failed (e : PyExc).

(** Where the listener thread stands once the given input is used up. *)
Inductive Stop :=
  | AwaitingAccept
  | AwaitingRecv
  | Died (e : PyExc)
  | Exited (status : Z).

Definition UnicodeDecodeError : PyExc :=
  mkExc "UnicodeDecodeError" "'utf-8' codec can't decode" None None.

Section Listener.
(** [_oneclick.process_arg], the registered handler. *)
Variable process_arg : string → Res unit.

(** The inner loop, over what the successive [recv] calls of one
    connection do. *)
Fixpoint serve_conn (script : list Recv) : list NetEvent * ConnEnd :=
  match script with
  | [] => ([], WaitingRecv)
  | RecvReset :: _ => ([], Break)
  | RecvError e :: _ => ([], Failed e)
  | RecvData data :: script' =>
      if bool_decide (data = []) || bool_decide (data = terminator)
      then ([], Break)
      else
        match decode_utf8 data with
        | None => ([], Failed UnicodeDecodeError)
        | Some arg =>
            match process_arg arg with
            | Raise e => ([NProcessArg arg], Failed e)
            | Ok _ =>
                let '(t, r) := serve_conn script' in (NProcessArg arg :: t, r)
            end
        end
  end.

(** The outer [while True], over the connections that arrive; [k]
    numbers the accepted connections. *)
Fixpoint accept_loop (k : nat) (conns : list (list Recv)) : list NetEvent * Stop :=
  match conns with
  | [] => ([], AwaitingAccept)
  | script :: conns' =>
      let '(t, r) := serve_conn script in
      match r with
      | Break =>
          let '(t', s) := accept_loop (S k) conns' in
          (NAccept k :: t ++ NCloseConn k :: t', s)
      | WaitingRecv => (NAccept k :: t, AwaitingRecv)
      | Failed e => (NAccept k :: t ++ [NCloseConn k; NCloseSock], Died e)
      end
  end.

(** Modelled from the spec: [_oneclick.send_arg] ([bcml/_oneclick.py] is
    not among the sources).  Section 4.1: the secondary "connects as a
    client to the same endpoint, writes its own argument text plus the
    terminator, closes". *)
Definition send_arg (argv : string) : list NetEvent :=
  [NConnect endpoint; NSend (encode_utf8 argv); NSend terminator; NCloseSock].

(** [oneclick_listener], for a process started with the argument
    [argv]: [bind_ok] tells whether [sock.bind] succeeds, [conns] what
    the connections accepted afterwards deliver. *)
Definition oneclick_listener (argv : string) (bind_ok : bool)
    (conns : list (list Recv)) : list NetEvent * Stop :=
  if bind_ok
  then let '(t, s) := accept_loop 0 conns in
       (NBind endpoint true :: NListen :: t, s)
  else (NBind endpoint false :: send_arg argv ++ [NExit 0], Exited 0).

(** A connection as the specification describes it: chunks of text,
    then the end of the input (the peer closes, or sends the lone
    terminator, or the connection is reset), then whatever else the
    socket would deliver. *)
Inductive Ending :=
  | PeerClosed
  | Sentinel
  | ConnReset.

Definition ending_recv (e : Ending) : Recv :=
  match e with
  | PeerClosed => RecvData []
  | Sentinel => RecvData terminator
  | ConnReset => RecvReset
  end.

Record Conversation := mkConversation {
  cv_chunks : list (list Byte.byte);
  cv_ending : Ending;
  cv_later : list Recv
}.

Definition script_of (cv : Conversation) : list Recv :=
  (RecvData <$> cv_chunks cv) ++ ending_recv (cv_ending cv) :: cv_later cv.

(** A chunk the loop forwards: it is neither empty nor the lone
    terminator, it is UTF-8, and the handler returns on it. *)
Definition forwardable (data : list Byte.byte) : Prop :=
  data ≠ [] ∧ data ≠ terminator
  ∧ ∃ arg, decode_utf8 data = Some arg ∧ process_arg arg = Ok tt.

(** What serving the [k]-th connection records. *)
Definition served (k : nat) (cv : Conversation) : list NetEvent :=
  NAccept k
  :: ((λ data, NProcessArg (String.string_of_list_byte data)) <$> cv_chunks cv)
  ++ [NCloseConn k].

End Listener.

(** The bytes a trace writes to the socket. *)
Definition sent (t : list NetEvent) : list Byte.byte :=
  flat_map (λ ev, match ev with NSend data => data | _ => [] end) t.

(** The arguments a trace hands to the handler. *)
Definition handled (t : list NetEvent) : list string :=
  flat_map (λ ev, match ev with NProcessArg arg => [arg] | _ => [] end) t.

End Relay.

(** ** A small world to run the orchestrator in

    Three merger classes, packages that log for some of them, and
    collaborators that do the least the orchestrator needs: installing
    registers the mod and its logs, a merger of a broken class raises,
    the log file may refuse to open. *)

Module Demo.

Record World := mkWorld {
  w_mods : list BcmlMod;
  w_logs : gmap string (list string);
  w_packages : gmap string (list string);
  w_master : bool;
  w_broken : list string;
  w_picks : list string;
  w_log_ok : bool
}.

Definition registry : list MergerClass :=
  [mkClass "packs" "SARC pack merger";
   mkClass "texts" "game text merger";
   mkClass "rstb" "RSTB merger"].

Definition logged_names (md : BcmlMod) (w : World) : list string :=
  default [] (w_logs w !! mod_path md).

(** The position of a merger class in the registry. *)
Fixpoint rank_in (classes : list MergerClass) (name : string) : nat :=
  match classes with
  | [] => 0
  | c :: classes' =>
      if String.eqb (cls_NAME c) name then 0 else S (rank_in classes' name)
  end.

Definition rank (m : Merger) : nat := rank_in registry (NAME m).

(** The merger objects of a mod: one instance of each class that logged
    it, its identity drawn from the mod's priority. *)
Definition mergers_of (md : BcmlMod) (w : World) : gset Merger :=
  list_to_set
    (omap (λ c, if bool_decide (cls_NAME c ∈ logged_names md w)
                then Some (mkMerger (cls_NAME c) (cls_friendly_name c)
                             (1000 + 10 * Z.to_nat (mod_priority md)
                              + rank_in registry (cls_NAME c)))
                else None)
          registry).

Definition rank_le (m1 m2 : Merger) : Prop := rank m1 ≤ rank m2.

#[global] Instance rank_le_dec : RelDecision rank_le.
Proof. intros m1 m2. unfold rank_le. apply _. Defined.

Definition sort_by_rank (X : gset Merger) : list Merger :=
  merge_sort rank_le (elements X).

Definition install (c : InstallCall) (w : World) : Res BcmlMod * World :=
  match w_packages w !! ic_path c with
  | None => (Raise (mkExc "FileNotFoundError" (ic_path c) None None), w)
  | Some logs =>
      let md := mkMod (ic_path c) ("mods/" +:+ ic_path c)
                  (default (100 + Z.of_nat (length (w_mods w)))%Z
                           (ic_insert_priority c)) in
      (Ok md,
       {| w_mods := w_mods w ++ [md];
          w_logs := <[mod_path md := logs]> (w_logs w);
          w_packages := w_packages w; w_master := w_master w;
          w_broken := w_broken w; w_picks := w_picks w;
          w_log_ok := w_log_ok w |})
  end.

Definition remove_tree (path : string) (w : World) : Res unit * World :=
  (Ok tt,
   {| w_mods := filter (λ md, mod_path md ≠ path) (w_mods w);
      w_logs := w_logs w;
      w_packages := w_packages w;
      w_master := if String.eqb path "master" then false else w_master w;
      w_broken := w_broken w; w_picks := w_picks w;
      w_log_ok := w_log_ok w |}).

Definition link_master (w : World) : Res unit * World :=
  (Ok tt,
   {| w_mods := w_mods w; w_logs := w_logs w; w_packages := w_packages w;
      w_master := true; w_broken := w_broken w; w_picks := w_picks w;
      w_log_ok := w_log_ok w |}).

Definition merge (m : Merger) (pool : option nat) (w : World) : Res unit * World :=
  if bool_decide (NAME m ∈ w_broken w)
  then (Raise (mkExc "RuntimeError" ("cannot merge " +:+ NAME m) None None), w)
  else (Ok tt, w).

Definition write_log (s : string) (w : World) : Res unit * World :=
  if w_log_ok w
  then (Ok tt, w)
  else (Raise (mkExc "PermissionError" "bcml.log" None None), w).

Definition traceback (e : PyExc) : string :=
  "Traceback (most recent call last):" +:+ newline
  +:+ exc_class e +:+ ": " +:+ exc_str e +:+ newline.

Definition collab : Collab :=
  {| Env := World;
     install_install_mod := install;
     install_refresh_master_export := λ w, (Ok tt, w);
     install_refresh_merges := λ w, (Ok tt, w);
     install_link_master_mod := link_master;
     util_get_installed_mods := w_mods;
     util_get_master_modpack_dir := "master";
     master_modpack_dir_exists := w_master;
     rmtree := remove_tree;
     change_priority := λ _ _ w, (Ok tt, w);
     options_json := λ _ _, None;
     mod_mergers := mergers_of;
     MergeError_error_text := λ _, None;
     mergers_get_mergers := registry;
     mergers_get_mergers_for_mod := mergers_of;
     mergers_sort_mergers := sort_by_rank;
     is_mod_logged := λ m md w, bool_decide (NAME m ∈ logged_names md w);
     perform_merge := merge;
     file_dialog := λ w, (w_picks w, w);
     log_write := write_log;
     format_exc := traceback |}.

(** Nothing installed; package [a.bnp] logs for [packs] only, [b.bnp]
    for [texts] only, [c.bnp] for [packs] and [rstb]. *)
Definition empty_world : World :=
  {| w_mods := [];
     w_logs := ∅;
     w_packages := {[ "a.bnp" := ["packs"]; "b.bnp" := ["texts"];
                      "c.bnp" := ["packs"; "rstb"] ]};
     w_master := false;
     w_broken := [];
     w_picks := ["c.bnp"];
     w_log_ok := true |}.

(** [a.bnp] installed, with its log for [packs]. *)
Definition mod_a : BcmlMod := mkMod "a.bnp" "mods/a.bnp" 100.

Definition world_with_a : World :=
  {| w_mods := [mod_a];
     w_logs := {[ "mods/a.bnp" := ["packs"] ]};
     w_packages := w_packages empty_world;
     w_master := true;
     w_broken := [];
     w_picks := ["c.bnp"];
     w_log_ok := true |}.

(** The same, with a [packs] merger that fails. *)
Definition broken_world : World :=
  {| w_mods := [mod_a];
     w_logs := {[ "mods/a.bnp" := ["packs"] ]};
     w_packages := w_packages empty_world;
     w_master := true;
     w_broken := ["packs"];
     w_picks := ["c.bnp"];
     w_log_ok := true |}.

Definition start (w : World) : State collab :=
  {| st_env := (w : Env collab); st_next_pool := 0; st_next_oid := 0; st_pools := ∅ |}.

(** The outcome and the recorded calls of an operation, without the
    final state. *)
Definition observe {A} (run : Res A * State collab * list Event) : Res A * list Event :=
  (run.1.1, run.2).

End Demo.

(** ** The other entry points of [__main__.py]

    What follows models the methods of [Api] and the functions of the
    module that the sections above leave out.  Their collaborators are
    gathered in [Toolkit]: each is an action of the orchestration monad
    about which nothing is assumed. *)

(** *** Python helpers *)

(** [bool(v)] *)
Definition truthy (v : PyVal) : bool :=
  match v with
  | PyNone => false
  | PyBool b => b
  | PyInt z => negb (z =? 0)%Z
  | PyStr EmptyString => false
  | PyStr _ => true
  | PyDict [] => false
  | PyDict _ => true
  end.

Definition KeyError (k : string) : PyExc :=
  mkExc "KeyError" ("'" +:+ k +:+ "'") None None.

(** [d[k]] *)
Definition getitem (d : gmap string PyVal) (k : string) : Res PyVal :=
  match d !! k with
  | Some v => Ok v
  | None => Raise (KeyError k)
  end.

(** [pat in s], for strings. *)
Fixpoint contains (pat s : string) : bool :=
  String.prefix pat s
  || match s with
     | EmptyString => false
     | String _ s' => contains pat s'
     end.

(** [s.endswith(suffix)] *)
Definition ends_with (suffix s : string) : bool :=
  (String.length suffix <=? String.length s)
  && String.eqb
       (String.substring (String.length s - String.length suffix)
          (String.length suffix) s)
       suffix.

(** [s.split(sep)] for a non-empty [sep]: the pieces between the
    occurrences of [sep], found from left to right without overlap.
    [skip] counts the characters of a found separator still to pass. *)
Fixpoint split_from (sep : string) (skip : nat) (s : string) : list string :=
  match s with
  | EmptyString => [EmptyString]
  | String c s' =>
      match skip with
      | S k => split_from sep k s'
      | O =>
          if String.prefix sep s
          then EmptyString :: split_from sep (String.length sep - 1) s'
          else
            match split_from sep 0 s' with
            | piece :: pieces => String c piece :: pieces
            | [] => [String c EmptyString]
            end
      end
  end.

Definition str_split (sep s : string) : list string := split_from sep 0 s.

(** What [window.create_file_dialog] returns: [None], a string, or a
    tuple of strings. *)
Inductive DialogOut :=
  | DialogNone
  | DialogStr (s : string)
  | DialogTuple (l : list string).

(** [bool(out)] *)
Definition chosen (out : DialogOut) : bool :=
  match out with
  | DialogNone => false
  | DialogStr EmptyString => false
  | DialogStr _ => true
  | DialogTuple [] => false
  | DialogTuple _ => true
  end.

Definition TypeError_not_subscriptable : PyExc :=
  mkExc "TypeError" "'NoneType' object is not subscriptable" None None.

Definition IndexError_tuple : PyExc :=
  mkExc "IndexError" "tuple index out of range" None None.

Definition IndexError_string : PyExc :=
  mkExc "IndexError" "string index out of range" None None.

(** [out[0]] *)
Definition dialog_item0 (out : DialogOut) : Res string :=
  match out with
  | DialogNone => Raise TypeError_not_subscriptable
  | DialogStr EmptyString => Raise IndexError_string
  | DialogStr (String c _) => Ok (String c EmptyString)
  | DialogTuple [] => Raise IndexError_tuple
  | DialogTuple (x :: _) => Ok x
  end.

(** [out if isinstance(out, str) else out[0]] *)
Definition dialog_path (out : DialogOut) : Res string :=
  match out with
  | DialogStr s => Ok s
  | _ => dialog_item0 out
  end.

(** An exception that carries its message as [error_text]. *)
Definition RuntimeError_with_text (msg : string) : PyExc :=
  mkExc "RuntimeError" msg (Some msg) None.

(** [e = Exception(); setattr(e, "error_text", text)] *)
Definition Exception_with_text (text : string) : PyExc :=
  mkExc "Exception" EmptyString (Some text) None.

Definition AssertionError : PyExc :=
  mkExc "AssertionError" EmptyString None None.

(** *** The further collaborators

    Paths are kept as the strings they are built from. *)

Record Toolkit (C : Collab) := mkToolkit {
  (* bcml.install *)
  install_refresher : M C unit → M C unit;
  install_enable_mod : BcmlMod → M C unit;
  install_disable_mod : BcmlMod → M C unit;
  install_uninstall_mod : BcmlMod → M C unit;
  install_export : string → M C unit;
  install_extract_mod_meta : string → M C (gmap string PyVal);
  install_get_backups : M C (list string);
  (* bcml.dev, bcml.mergers.rstable, bcml.upgrade *)
  dev_create_bnp_mod : string → string → gmap string PyVal → PyVal → M C unit;
  generate_rstb_for_mod : string → M C unit;
  upgrade_convert_old_settings : M C unit;
  (* bcml.util: [get_settings()] and [get_settings(name)] *)
  util_get_settings : M C (gmap string PyVal);
  util_get_setting : string → M C PyVal;
  util_get_data_dir : M C string;
  util_get_game_dir : M C string;
  util_get_update_dir : M C string;
  util_get_cemu_dir : M C string;
  util_get_safe_pathname : PyVal → M C string;
  (* the window *)
  save_dialog : list string → string → M C DialogOut;
  folder_dialog : M C DialogOut;
  (* pathlib *)
  path_exists : string → M C bool;
  path_is_dir : string → M C bool;
  path_glob : string → string → M C (list string);
  path_join : string → string → string;
  path_stem : string → string
}.

Arguments install_refresher {C} _ _.
Arguments install_enable_mod {C} _ _.
Arguments install_disable_mod {C} _ _.
Arguments install_uninstall_mod {C} _ _.
Arguments install_export {C} _ _.
Arguments install_extract_mod_meta {C} _ _.
Arguments install_get_backups {C} _.
Arguments dev_create_bnp_mod {C} _ _ _ _ _.
Arguments generate_rstb_for_mod {C} _ _.
Arguments upgrade_convert_old_settings {C} _.
Arguments util_get_settings {C} _.
Arguments util_get_setting {C} _ _.
Arguments util_get_data_dir {C} _.
Arguments util_get_game_dir {C} _.
Arguments util_get_update_dir {C} _.
Arguments util_get_cemu_dir {C} _.
Arguments util_get_safe_pathname {C} _ _.
Arguments save_dialog {C} _ _ _.
Arguments folder_dialog {C} _.
Arguments path_exists {C} _ _.
Arguments path_is_dir {C} _ _.
Arguments path_glob {C} _ _ _.
Arguments path_join {C} _ _ _.
Arguments path_stem {C} _ _.

Section MoreApi.
Context {C : Collab} (K : Toolkit C).

(** A value or an exception that is already at hand. *)
Definition lift {A} (r : Res A) : M C A := λ st, (r, st, []).

(** [try: m / except (cls1, cls2, ...): h], for classes that derive
    from [Exception] *)
Definition try_except_of {A} (classes : list string) (m : M C A) (h : M C A)
    : M C A :=
  try_except C m
    (λ err, if bool_decide (exc_class err ∈ classes) then h else raise C err).

(** [try: m / except: h], the bare clause, which catches whatever is
    raised. *)
Definition try_except_all {A} (m : M C A) (h : M C A) : M C A := λ st,
  match m st with
  | (Ok a, st1, t1) => (Ok a, st1, t1)
  | (Raise _, st1, t1) => let '(r, st2, t2) := h st1 in (r, st2, t1 ++ t2)
  end.

(** *** [Api.sanity_check]

    [platform.python_version_tuple()] gives the decimal strings of the
    version numbers, taken here as the numbers [major] and [minor];
    [maxsize] is [sys.maxsize]. *)
Definition version_message (major minor : N) : string :=
  "BCML requires Python 3.7 or higher, but you have "
  +:+ pretty major +:+ "." +:+ pretty minor.

Definition bits_message : string :=
  "BCML requires 64 bit Python, but you appear to be running 32 bit.".

Definition sanity_check (major minor : N) (maxsize : Z) : M C unit :=
  if (major <? 3)%N || ((3 <=? major)%N && (minor <? 7)%N)
  then raise C (RuntimeError_with_text (version_message major minor))
  else
    let is_64bits := (2 ^ 32 <? maxsize)%Z in
    if negb is_64bits
    then raise C (RuntimeError_with_text bits_message)
    else
      settings ← util_get_settings K;
      util_get_game_dir K ;;
      wiiu ← lift (getitem settings "wiiu");
      (if truthy wiiu then util_get_update_dir K ;; ret C tt else ret C tt) ;;
      no_cemu ← lift (getitem settings "no_cemu");
      if negb (truthy no_cemu) then util_get_cemu_dir K ;; ret C tt else ret C tt.

(** *** [Api.get_folder] and [Api.dir_exists]

    [folder] and [type] are [params["folder"]] and [params["type"]];
    the answer is [True], [False] or, for a type that names none of the
    four kinds, [None]. *)
Definition get_folder : M C string :=
  out ← folder_dialog K; lift (dialog_item0 out).

Definition dir_exists (folder type : string) : M C PyVal :=
  there ← path_exists K folder;
  is_dir ← (if (there : bool) then path_is_dir K folder else ret C false);
  let real_folder := there && is_dir && negb (String.eqb folder EmptyString) in
  if negb real_folder then ret C (PyBool false)
  else if String.eqb type "cemu_dir"
  then found ← path_glob K folder "Cemu*.exe";
       ret C (PyBool (0 <? Z.of_nat (length found))%Z)
  else if contains "game_dir" type
  then there ← path_exists K (path_join K (path_join K folder "Pack") "Dungeon000.pack");
       ret C (PyBool there)
  else if String.eqb type "update_dir"
  then found ← path_glob K (path_join K (path_join K folder "Actor") "Pack")
                 "*.sbactorpack";
       ret C (PyBool (7000 <? Z.of_nat (length found))%Z)
  else if contains "dlc_dir" type
  then there ← path_exists K (path_join K (path_join K folder "Pack") "AocMainField.pack");
       ret C (PyBool there)
  else ret C PyNone.

(** *** [Api.old_settings] *)

(** A dictionary as a value: its items. *)
Definition PyDict_of (d : gmap string PyVal) : PyVal := PyDict (map_to_list d).

Definition old_settings : M C (gmap string PyVal) :=
  data_dir ← util_get_data_dir K;
  there ← path_exists K (path_join K data_dir "settings.ini");
  if (there : bool)
  then
    try_except_all
      (upgrade_convert_old_settings K ;;
       settings ← util_get_settings K;
       ret C ({[ "exists" := PyBool true;
                 "message" := PyStr "Your old settings were converted successfully.";
                 "settings" := PyDict_of settings ]} : gmap string PyVal))
      (ret C ({[ "exists" := PyBool true;
                 "message" := PyStr "Your old settings could not be converted." ]}
              : gmap string PyVal))
  else ret C ({[ "exists" := PyBool false;
                 "message" := PyStr "No old settings found." ]} : gmap string PyVal).

(** *** [Api.get_backups] *)

(** One backup: its stem split at [---] and its path. *)
Definition backup_entry (b : list string * string) : M C (gmap string PyVal) :=
  match b.1 with
  | name :: num :: _ =>
      ret C ({[ "name" := PyStr name; "num" := PyStr num; "path" := PyStr b.2 ]}
             : gmap string PyVal)
  | _ => raise C IndexError
  end.

Definition get_backups : M C (list (gmap string PyVal)) :=
  backups ← install_get_backups K;
  map_M C backup_entry
    ((λ b, (str_split "---" (path_stem K b), b)) <$> backups).

(** *** [Api.check_mod_options] *)

(** The first comprehension: the meta of every package whose name ends
    in [.bnp], read in the order of [mods]; for a name that comes
    twice the later meta stays. *)
Fixpoint extract_metas (mods : list string)
    : M C (gmap string (gmap string PyVal)) :=
  match mods with
  | [] => ret C ∅
  | md :: mods' =>
      if ends_with ".bnp" md
      then meta ← install_extract_mod_meta K md;
           metas ← extract_metas mods';
           ret C (if bool_decide (md ∈ dom metas) then metas
                  else <[md := meta]> metas)
      else extract_metas mods'
  end.

(** ["options" in meta and meta["options"]] *)
Definition has_options (meta : gmap string PyVal) : bool :=
  match meta !! "options" with
  | Some v => truthy v
  | None => false
  end.

Definition check_mod_options (mods : list string)
    : M C (gmap string (gmap string PyVal)) :=
  metas ← extract_metas mods;
  ret C (filter (λ kv, has_options kv.2 = true) metas).

(** *** [Api.mod_action]

    [md] and [action] are [BcmlMod.from_json(params["mod"])] and
    [params["action"]]. *)

(** [self.update_mod]: the method as its two decorators leave it. *)
Definition Api_update_mod (md : BcmlMod) : M C (gmap string PyVal) :=
  win_or_lose C (install_refresher K (update_mod C md)).

Definition mod_action (md : BcmlMod) (action : string) : M C unit :=
  if String.eqb action "enable" then install_enable_mod K md
  else if String.eqb action "disable" then install_disable_mod K md
  else if String.eqb action "uninstall" then install_uninstall_mod K md
  else if String.eqb action "update" then Api_update_mod md ;; ret C tt
  else ret C tt.

(** *** [Api.export] *)

Definition export : M C unit :=
  installed ← read C (util_get_installed_mods C);
  match installed with
  | [] => raise C (Exception_with_text "No mods installed to export.")
  | _ :: _ =>
      wiiu ← util_get_setting K "wiiu";
      out ← save_dialog K
              [(if truthy wiiu then "Graphic Pack" else "Atmosphere") +:+ " (*.zip)";
               "BOTW Nano Patch (*.bnp)"]
              "exported-mods.zip";
      if chosen out
      then output ← lift (dialog_path out); install_export K output
      else ret C tt
  end.

(** *** [Api.create_bnp] *)

Definition TypeError_not_a_path : PyExc :=
  mkExc "TypeError" "expected str, bytes or os.PathLike object" None None.

(** [Path(v)] for a value of the parameters. *)
Definition Path_of (v : PyVal) : Res string :=
  match v with
  | PyStr s => Ok s
  | _ => Raise TypeError_not_a_path
  end.

(** [meta = params.copy(); del meta["folder"];
    meta["options"] = params["selects"]; del meta["selects"]] *)
Definition bnp_meta (params : gmap string PyVal) : Res (gmap string PyVal) :=
  match params !! "folder" with
  | None => Raise (KeyError "folder")
  | Some _ =>
      match params !! "selects" with
      | None => Raise (KeyError "selects")
      | Some selects =>
          Ok (delete "selects" (<["options" := selects]> (delete "folder" params)))
      end
  end.

Definition create_bnp (params : gmap string PyVal) : M C unit :=
  name ← lift (getitem params "name");
  safe ← util_get_safe_pathname K name;
  out ← save_dialog K ["BOTW Nano Patch (*.bnp)"; "All files (*.*)"]
          (safe +:+ ".bnp");
  if negb (chosen out)
  then raise C (Exception_with_text "cancelled")
  else
    meta ← lift (bnp_meta params);
    folder ← lift (getitem params "folder");
    folder ← lift (Path_of folder);
    output ← lift (dialog_path out);
    options ← lift (getitem params "options");
    dev_create_bnp_mod K folder output meta options.

(** *** [Api.gen_rstb] *)

Definition gen_rstb : M C unit :=
  found ← try_except_of ["FileNotFoundError"; "IndexError"; "AssertionError"]
            (folder ← get_folder;
             there ← path_exists K folder;
             if (there : bool) then ret C (Some folder) else raise C AssertionError)
            (ret C None);
  match found with
  | None => ret C tt
  | Some folder => generate_rstb_for_mod K folder
  end.

End MoreApi.

(** ** Further readings of a recorded run *)

Definition pool_event (ev : Event) : list Event :=
  match ev with
  | EvPoolOpen _ | EvPoolClose _ => [ev]
  | _ => []
  end.

(** The pools opened and closed, in order. *)
Definition pool_events (t : list Event) : list Event := flat_map pool_event t.

Definition install_of (ev : Event) : list InstallCall :=
  match ev with EvInstall c _ => [c] | _ => [] end.

(** The calls to [install.install_mod]. *)
Definition installs_of (t : list Event) : list InstallCall := flat_map install_of t.

Definition move_of (ev : Event) : list (BcmlMod * Z) :=
  match ev with EvChangePriority md p _ => [(md, p)] | _ => [] end.

(** The calls to [change_priority]: the mod and its new priority. *)
Definition moves_of (t : list Event) : list (BcmlMod * Z) := flat_map move_of t.

(** The arguments [apply_queue] passes to [install.install_mod] for the
    queued install [i]. *)
Definition queue_call (pool : nat) (i : QueuedInstall) : InstallCall :=
  {| ic_path := str_replace "QUEUE" EmptyString (qi_path i);
     ic_options := qi_options i;
     ic_selects := None;
     ic_insert_priority := Some (qi_priority i);
     ic_pool := pool |}.

Definition removal_of (ev : Event) : list string :=
  match ev with EvRmtree path (Ok _) => [path] | _ => [] end.

(** The trees removed. *)
Definition removed (t : list Event) : list string := flat_map removal_of t.

Definition refresh_of (ev : Event) : list (Res unit) :=
  match ev with EvRefreshMasterExport r => [r] | _ => [] end.

(** The outcomes of the calls to [install.refresh_master_export]. *)
Definition refreshes (t : list Event) : list (Res unit) := flat_map refresh_of t.

Definition failure_of (ev : Event) : list PyExc :=
  match ev with
  | EvInstall _ (Raise err) | EvChangePriority _ _ (Raise err)
  | EvPerformMerge _ _ (Raise err) | EvRmtree _ (Raise err)
  | EvLinkMasterMod (Raise err) | EvRefreshMerges (Raise err)
  | EvRefreshMasterExport (Raise err) | EvLogWrite _ (Raise err) => [err]
  | _ => []
  end.

(** The exceptions raised by the calls of a run, of whatever kind. *)
Definition failures (t : list Event) : list PyExc := flat_map failure_of t.

Definition log_failure_of (ev : Event) : list PyExc :=
  match ev with EvLogWrite _ (Raise err) => [err] | _ => [] end.

(** The exceptions raised by writing to the log file. *)
Definition log_failures (t : list Event) : list PyExc := flat_map log_failure_of t.

(** An action none of whose recorded calls is selected by [pr]. *)
Definition quiet {C : Collab} {A X} (pr : Event → list X) (m : M C A) : Prop :=
  ∀ st r st' t, m st = (r, st', t) → flat_map pr t = [].

(** A stretch of a run in which pools are closed and nothing else
    happens. *)
Definition closing_only (t : list Event) : Prop :=
  Forall (λ ev, ∃ p, ev = EvPoolClose p) t.

(** A run that stopped at the call [ev], which raised [err]: no call
    before it raised, and after it no call was made, only pools were
    closed. *)
Definition stopped_at (t : list Event) (err : PyExc) : Prop :=
  ∃ t0 ev closing,
    t = t0 ++ ev :: closing
    ∧ failures t0 = []
    ∧ failure_of ev = [err]
    ∧ closing_only closing.

(** An action that raises exactly when one of its calls raised, and then
    with the exception of that call, the last it made. *)
Definition fail_fast {C : Collab} {A} (m : M C A) : Prop :=
  ∀ st r st' t,
    m st = (r, st', t) →
    match r with
    | Ok _ => failures t = []
    | Raise err => stopped_at t err
    end.

(** ** A bench for the further entry points

    A toolkit over the small world: the dialogs answer what the bench
    is built with, the settings are those given, and the paths of
    [files] are the ones that exist. *)

Module Bench.

Definition C : Collab := Demo.collab.

Definition exists_in (files : list string) (path : string) : M C bool :=
  ret C (bool_decide (path ∈ files)).

Definition join (a b : string) : string := a +:+ "/" +:+ b.

Definition toolkit (dialog : DialogOut) (settings : gmap string PyVal)
    (files : list string) : Toolkit C :=
  {| install_refresher := λ f, f ;; do_refresh_master_export C;
     install_enable_mod := λ _, ret C tt;
     install_disable_mod := λ _, ret C tt;
     install_uninstall_mod := λ md, do_rmtree C (mod_path md);
     install_export := λ _, ret C tt;
     install_extract_mod_meta := λ md,
       ret C (if String.eqb md "c.bnp"
              then {[ "name" := PyStr md; "options" := PyDict [("multi", PyNone)] ]}
              else {[ "name" := PyStr md; "options" := PyDict [] ]});
     install_get_backups := ret C files;
     dev_create_bnp_mod := λ _ _ _ _, ret C tt;
     generate_rstb_for_mod := λ _, ret C tt;
     upgrade_convert_old_settings :=
       raise C (mkExc "KeyError" "'cemu_dir'" None None);
     util_get_settings := ret C settings;
     util_get_setting := λ k, ret C (default PyNone (settings !! k));
     util_get_data_dir := ret C "data";
     util_get_game_dir := ret C "game";
     util_get_update_dir := ret C "update";
     util_get_cemu_dir := ret C "cemu";
     util_get_safe_pathname := λ v,
       ret C (match v with PyStr s => s | _ => "mod" end);
     save_dialog := λ _ _, ret C dialog;
     folder_dialog := ret C dialog;
     path_exists := exists_in files;
     path_is_dir := exists_in files;
     path_glob := λ _ _, ret C [];
     path_join := join;
     path_stem := id |}.

(** The small world with a log file that cannot be opened. *)
Definition sealed_world : Demo.World :=
  {| Demo.w_mods := [Demo.mod_a];
     Demo.w_logs := {[ "mods/a.bnp" := ["packs"] ]};
     Demo.w_packages := Demo.w_packages Demo.empty_world;
     Demo.w_master := true;
     Demo.w_broken := [];
     Demo.w_picks := ["z.bnp"];
     Demo.w_log_ok := false |}.

(** [a.bnp] installed, and an update file chosen that is no package. *)
Definition world_bad_pick : Demo.World :=
  {| Demo.w_mods := [Demo.mod_a];
     Demo.w_logs := {[ "mods/a.bnp" := ["packs"] ]};
     Demo.w_packages := Demo.w_packages Demo.empty_world;
     Demo.w_master := true;
     Demo.w_broken := [];
     Demo.w_picks := ["z.bnp"];
     Demo.w_log_ok := true |}.

(** The collaborators of the small world, with mod directories that
    cannot be renamed: every [change_priority] raises. *)
Definition frozen : Collab :=
  {| Env := Demo.World;
     install_install_mod := Demo.install;
     install_refresh_master_export := λ w, (Ok tt, w);
     install_refresh_merges := λ w, (Ok tt, w);
     install_link_master_mod := Demo.link_master;
     util_get_installed_mods := Demo.w_mods;
     util_get_master_modpack_dir := "master";
     master_modpack_dir_exists := Demo.w_master;
     rmtree := Demo.remove_tree;
     change_priority := λ md _ w,
       (Raise (mkExc "PermissionError" (mod_path md) None None), w);
     options_json := λ _ _, None;
     mod_mergers := Demo.mergers_of;
     MergeError_error_text := λ _, None;
     mergers_get_mergers := Demo.registry;
     mergers_get_mergers_for_mod := Demo.mergers_of;
     mergers_sort_mergers := Demo.sort_by_rank;
     is_mod_logged := λ m md w, bool_decide (NAME m ∈ Demo.logged_names md w);
     perform_merge := Demo.merge;
     file_dialog := λ w, (Demo.w_picks w, w);
     log_write := Demo.write_log;
     format_exc := Demo.traceback |}.

Definition frozen_start (w : Demo.World) : State frozen :=
  {| st_env := (w : Env frozen); st_next_pool := 0; st_next_oid := 0;
     st_pools := ∅ |}.






End Bench.

(** * Properties *)

(** ** Runs of the orchestration monad *)

Section Runs.
Context {C : Collab}.

Lemma bind_inv {A B} (m : M C A) (f : A → M C B) st r st2 t :
  (m ≫= f) st = (r, st2, t) →
  (∃ e, m st = (Raise e, st2, t) ∧ r = Raise e) ∨
  (∃ a st1 t1 t2, m st = (Ok a, st1, t1) ∧ f a st1 = (r, st2, t2) ∧ t = t1 ++ t2).
Proof.
  unfold mbind, M_bind, bind.
  destruct (m st) as [[[a|e] st1] t1].
  - destruct (f a st1) as [[r' st2'] t2] eqn:Hf. intros [= <- <- <-].
    right. by exists a, st1, t1, t2.
  - intros [= <- <- <-]. left. by exists e.
Qed.

Lemma try_except_inv {A} (m : M C A) (h : PyExc → M C A) st r st2 t :
  try_except C m h st = (r, st2, t) →
  (∃ a, m st = (Ok a, st2, t) ∧ r = Ok a) ∨
  (∃ e st1 t1 t2,
     m st = (Raise e, st1, t1) ∧ is_Exception e = true
     ∧ h e st1 = (r, st2, t2) ∧ t = t1 ++ t2) ∨
  (∃ e, m st = (Raise e, st2, t) ∧ is_Exception e = false ∧ r = Raise e).
Proof.
  unfold try_except.
  destruct (m st) as [[[a|e] st1] t1].
  - intros [= <- <- <-]. left. by exists a.
  - destruct (is_Exception e) eqn:Hexc.
    + destruct (h e st1) as [[r' st2'] t2] eqn:Hh. intros [= <- <- <-].
      right. left. by exists e, st1, t1, t2.
    + intros [= <- <- <-]. right. right. by exists e.
Qed.

Lemma with_Pool_inv {A} (body : nat → M C A) st r st2 t :
  with_Pool C body st = (r, st2, t) →
  ∃ st1 t1,
    body (st_next_pool st)
         (mkState (st_env st) (S (st_next_pool st)) (st_next_oid st) (st_pools st))
      = (r, st1, t1)
    ∧ st2 = st1
    ∧ t = EvPoolOpen (st_next_pool st) :: t1 ++ [EvPoolClose (st_next_pool st)].
Proof.
  unfold with_Pool, mbind, M_bind, bind, Pool_open, finally, Pool_close.
  destruct (body _ _) as [[r' st1] t1] eqn:Hb. intros [= <- <- <-].
  by exists st1, t1.
Qed.

End Runs.

(** ** The result envelope *)

Section Envelope.
Context (C : Collab).

Lemma win_or_lose_failure {A} (func : M C A) st err st1 t :
  func st = (Raise err, st1, t) →
  is_Exception err = true →
  let text := default (format_exc C err) (exc_error_text err) in
  let line := newline +:+ exc_str err +:+ newline in
  win_or_lose C func st =
    match log_write C line (st_env st1) with
    | (Ok _, e) =>
        (Ok {[ "error" := PyStr text; "error_text" := PyBool true ]},
         set_env C st1 e, t ++ [EvLogWrite line (Ok tt)])
    | (Raise e2, e) =>
        (Raise e2, set_env C st1 e, t ++ [EvLogWrite line (Raise e2)])
    end.
Proof.
  intros Hf Hexc. unfold win_or_lose, try_except, mbind, M_bind, bind, ret, call.
  rewrite Hf. simpl. rewrite Hexc. simpl.
  destruct (log_write C _ (st_env st1)) as [[[]|e2] e]; simpl;
    by rewrite ?app_nil_r.
Qed.

(** An exception that is not an [Exception] is not caught by
    [status_run]: it leaves the envelope as it left the operation. *)
Lemma win_or_lose_passes {A} (func : M C A) st err st1 t :
  func st = (Raise err, st1, t) →
  is_Exception err = false →
  win_or_lose C func st = (Raise err, st1, t).
Proof.
  intros Hf Hexc. unfold win_or_lose, try_except, mbind, M_bind, bind, ret.
  rewrite Hf. simpl. by rewrite Hexc.
Qed.

End Envelope.

(** ** Records of merges and installs *)

Section Records.
Context (C : Collab).

Lemma performed_app t1 t2 : performed (t1 ++ t2) = performed t1 ++ performed t2.
Proof. unfold performed. by rewrite flat_map_app. Qed.

Lemma touched_app t1 t2 : touched (t1 ++ t2) = touched t1 ++ touched t2.
Proof. unfold touched. by rewrite flat_map_app. Qed.

Lemma pools_set_app t1 t2 : pools_set (t1 ++ t2) = pools_set t1 ++ pools_set t2.
Proof. unfold pools_set. by rewrite flat_map_app. Qed.


(** Is-affected tests install nothing, merge nothing and set no pool. *)
Lemma tests_quiet t :
  Forall is_test t →
  performed t = [] ∧ touched t = [] ∧ pools_set t = [] ∧ merge_failures t = [].
Proof.
  induction 1 as [|ev t Hev _ IH]; [done|].
  destruct ev; try done; simpl; exact IH.
Qed.

Lemma declared_events_tests mods e : Forall is_test (declared_events C mods e).
Proof. unfold declared_events. apply Forall_fmap, Forall_true. by intros md. Qed.

Lemma merge_events_app pool l1 l2 :
  merge_events pool (l1 ++ l2) = merge_events pool l1 ++ merge_events pool l2.
Proof. unfold merge_events. by rewrite flat_map_app. Qed.

Lemma performed_merge_events pool l : performed (merge_events pool l) = l.
Proof. induction l as [|m l IH]; simpl; [done | by f_equal]. Qed.

Lemma touched_merge_events pool l : touched (merge_events pool l) = [].
Proof. induction l as [|m l IH]; simpl; done. Qed.

Lemma pools_set_merge_events pool l :
  pools_set (merge_events pool l) = replicate (length l) pool.
Proof. induction l as [|m l IH]; simpl; [done | by f_equal]. Qed.



Lemma performed_install_events calls mods :
  performed (install_events calls mods) = [].
Proof.
  revert mods. induction calls as [|c calls IH]; intros [|md mods]; simpl; auto.
Qed.

Lemma pools_set_install_events calls mods :
  pools_set (install_events calls mods) = [].
Proof.
  revert mods. induction calls as [|c calls IH]; intros [|md mods]; simpl; auto.
Qed.

Lemma touched_install_events calls mods :
  length mods = length calls → touched (install_events calls mods) = mods.
Proof.
  revert mods. induction calls as [|c calls IH]; intros [|md mods]; simpl;
    try done.
  intros [= Hlen]. f_equal. by apply IH.
Qed.

(** Whatever happens, the mergers that ran are a prefix of the list
    that was to run. *)
Lemma merge_run_performed pool l r t :
  merge_run pool l r t → performed t `prefix_of` l.
Proof.
  intros [|l1 m l2 err ->].
  - by rewrite performed_merge_events.
  - rewrite performed_app, performed_merge_events. simpl.
    exists l2. by rewrite <- app_assoc.
Qed.

Lemma merge_run_performed_elem_of pool l r t m :
  merge_run pool l r t → m ∈ performed t → m ∈ l.
Proof.
  intros Hrun Hin. by eapply elem_of_prefix, merge_run_performed.
Qed.

Lemma merge_run_touched pool l r t : merge_run pool l r t → touched t = [].
Proof.
  intros [|l1 m l2 err ->].
  - apply touched_merge_events.
  - by rewrite touched_app, touched_merge_events.
Qed.

Lemma merge_run_pools pool l r t :
  merge_run pool l r t → ∀ p, p ∈ pools_set t → p = pool.
Proof.
  intros [|l1 m l2 err ->] p.
  - rewrite pools_set_merge_events. by intros ?%elem_of_replicate_inv.
  - rewrite pools_set_app, pools_set_merge_events. simpl.
    intros [?%elem_of_replicate_inv | ?%list_elem_of_singleton]%elem_of_app; done.
Qed.



Lemma install_run_pools calls r t : install_run calls r t → pools_set t = [].
Proof.
  intros [mods _|calls1 c calls2 mods1 err _ _].
  - apply pools_set_install_events.
  - by rewrite pools_set_app, pools_set_install_events.
Qed.

Lemma install_run_performed calls r t : install_run calls r t → performed t = [].
Proof.
  intros [mods _|calls1 c calls2 mods1 err _ _].
  - apply performed_install_events.
  - by rewrite performed_app, performed_install_events.
Qed.

Lemma install_run_ok_inv calls mods t :
  install_run calls (Ok mods) t →
  t = install_events calls mods ∧ length mods = length calls.
Proof. by inversion 1. Qed.

Lemma merge_run_ok_inv pool l u t :
  merge_run pool l (Ok u) t → t = merge_events pool l.
Proof. by inversion 1. Qed.

(** [merger.set_pool(pool); merger.perform_merge()]: the merge sees the
    pool that was just set. *)
Lemma set_pool_then_merge m pool (st : State C) :
  (set_pool C m pool ;; do_perform_merge C m) st =
  let '(r, e) := perform_merge C m (Some pool) (st_env st) in
  (r,
   mkState e (st_next_pool st) (st_next_oid st) (<[oid m := pool]> (st_pools st)),
   [EvSetPool m pool; EvPerformMerge m (Some pool) r]).
Proof.
  unfold mbind, M_bind, bind, set_pool, do_perform_merge. simpl.
  rewrite lookup_insert_eq.
  by destruct (perform_merge C m (Some pool) (st_env st)) as [r e].
Qed.

Lemma run_mergers_inv pool l (st : State C) r st' t :
  run_mergers C pool l st = (r, st', t) → merge_run pool l r t.
Proof.
  revert st r st' t. induction l as [|m l IH]; intros st r st' t.
  - intros [= <- <- <-]. apply merge_run_ok.
  - unfold run_mergers. simpl. fold (run_mergers C pool l).
    intros [(e & Hm & ->) | ([] & st1 & t1 & t2 & Hm & Hk & ->)]%bind_inv;
      rewrite set_pool_then_merge in Hm;
      destruct (perform_merge C m (Some pool) (st_env st)) as [r1 e1];
      injection Hm as -> <- <-.
    + by apply (merge_run_raise pool (m :: l) [] m l e).
    + apply IH in Hk. destruct Hk as [|l1 m' l2 err ->].
      * apply (merge_run_ok pool (m :: l)).
      * by apply (merge_run_raise pool _ (m :: l1) m' l2 err).
Qed.

Lemma install_events_cons c calls md mods :
  install_events (c :: calls) (md :: mods)
  = EvInstall c (Ok md) :: install_events calls mods.
Proof. done. Qed.

Lemma installs_inv {X} (g : X → InstallCall) (l : list X) (st : State C) r st' t :
  map_M C (λ x, do_install C (g x)) l st = (r, st', t) →
  install_run (g <$> l) r t.
Proof.
  revert st r st' t. induction l as [|x l IH]; intros st r st' t.
  - intros [= <- <- <-]. by apply (install_run_ok [] []).
  - simpl.
    intros [(e & Hm & ->) | (md & st1 & t1 & t2 & Hm & Hk & ->)]%bind_inv.
    + unfold do_install, call in Hm.
      destruct (install_install_mod C (g x) (st_env st)) as [r1 e1].
      injection Hm as -> <- <-.
      by apply (install_run_raise (g x :: (g <$> l)) [] (g x) (g <$> l) [] e).
    + unfold do_install, call in Hm.
      destruct (install_install_mod C (g x) (st_env st)) as [r1 e1].
      injection Hm as -> <- <-.
      apply bind_inv in Hk
        as [(e & Hm & ->) | (mods & st2 & t3 & t4 & Hm & Hk & ->)].
      * apply IH in Hm. inversion Hm as [|calls1 c calls2 mods1 err Hc Hl]; subst.
        apply (install_run_raise _ (g x :: calls1) c calls2 (md :: mods1) e).
        -- simpl. f_equal. exact Hc.
        -- simpl. by f_equal.
      * apply IH in Hm. injection Hk as <- <- <-.
        apply install_run_ok_inv in Hm as [-> Hlen].
        rewrite app_nil_r.
        apply (install_run_ok (g x :: (g <$> l)) (md :: mods)). simpl.
        by f_equal.
Qed.

(** The installs of a batch are the calls to [install.install_mod], one
    after the other on the world the one before left; nothing else of
    the state changes. *)
Lemma installs_exact {X} (g : X → InstallCall) (l : list X) (st : State C) r st' t :
  map_M C (λ x, do_install C (g x)) l st = (r, st', t) →
  installs_from C (g <$> l) (st_env st) = (r, st_env st')
  ∧ st' = set_env C st (st_env st').
Proof.
  revert st r st' t. induction l as [|x l IH]; intros st r st' t.
  - intros [= <- <- <-]. split; [done|]. by destruct st.
  - cbn [map_M fmap list_fmap installs_from].
    intros [(e & Hm & ->) | (md & st1 & t1 & t2 & Hm & Hk & ->)]%bind_inv;
      unfold do_install, call in Hm;
      destruct (install_install_mod C (g x) (st_env st)) as [r1 e1];
      injection Hm as -> <- <-; [done|].
    apply bind_inv in Hk
      as [(e & Hm & ->) | (mods & st2 & t3 & t4 & Hm & Hk & ->)];
      apply IH in Hm as [Hm Hst]; cbn [st_env set_env] in Hm;
      change (list_fmap X InstallCall g l) with (g <$> l); rewrite Hm.
    + split; [done|]. rewrite Hst. by destruct st.
    + injection Hk as <- <- <-. split; [done|]. rewrite Hst. by destruct st.
Qed.

(** The mergers of a batch are run one after the other on the world
    the one before left; each of them holds the pool of the batch
    afterwards, and no pool is handed out. *)
Lemma run_mergers_exact pool l (st : State C) r st' t :
  run_mergers C pool l st = (r, st', t) →
  merges_from C pool l (st_env st) = (r, st_env st')
  ∧ st_next_pool st' = st_next_pool st
  ∧ (∀ o, st_pools st !! o = Some pool → st_pools st' !! o = Some pool)
  ∧ (r = Ok tt → ∀ m, m ∈ l → st_pools st' !! oid m = Some pool).
Proof.
  revert st r st' t. induction l as [|m l IH]; intros st r st' t.
  - intros [= <- <- <-]. split_and!; [done..|]. by intros _ m ?%elem_of_nil.
  - unfold run_mergers. simpl. fold (run_mergers C pool l).
    intros [(e & Hm & ->) | ([] & st1 & t1 & t2 & Hm & Hk & ->)]%bind_inv;
      rewrite set_pool_then_merge in Hm;
      destruct (perform_merge C m (Some pool) (st_env st)) as [r1 e1];
      injection Hm as -> <- <-.
    + simpl. split_and!; [done..| |done].
      intros o Ho. destruct (decide (o = oid m)) as [->|];
        [by rewrite lookup_insert_eq | by rewrite lookup_insert_ne].
    + apply IH in Hk as (Hk & Hpool & Hkeep & Hall). simpl in *.
      split_and!; [done..| |].
      * intros o Ho. apply Hkeep.
        destruct (decide (o = oid m)) as [->|];
          [by rewrite lookup_insert_eq | by rewrite lookup_insert_ne].
      * intros Hr m' [->|Hin]%elem_of_cons; [|by apply Hall].
        apply Hkeep. by rewrite lookup_insert_eq.
Qed.

End Records.

(** ** Merger sets *)

Section MergerSets.
Context (C : Collab).

Lemma elem_of_names (X : gset Merger) n :
  n ∈ names X ↔ ∃ m, m ∈ X ∧ NAME m = n.
Proof.
  unfold names. rewrite elem_of_map.
  split; intros (m & H1 & H2); exists m; by split.
Qed.

Lemma elem_of_add_unnamed X Y m :
  m ∈ add_unnamed X Y ↔ m ∈ X ∨ (m ∈ Y ∧ NAME m ∉ names X).
Proof.
  unfold add_unnamed. rewrite elem_of_union, elem_of_filter.
  split; (intros [H | [H1 H2]]; [by left | by right]).
Qed.

Lemma names_add_unnamed X Y n :
  n ∈ names (add_unnamed X Y) ↔ n ∈ names X ∨ n ∈ names Y.
Proof.
  rewrite !elem_of_names. split.
  - intros (m & [Hm | [Hm _]]%elem_of_add_unnamed & <-); eauto.
  - intros [(m & Hm & <-) | (m & Hm & <-)].
    + exists m. split; [|done]. apply elem_of_add_unnamed. by left.
    + destruct (decide (NAME m ∈ names X)) as [Hin | Hout].
      * apply elem_of_names in Hin as (m' & Hm' & Heq).
        exists m'. split; [|done]. apply elem_of_add_unnamed. by left.
      * exists m. split; [|done]. apply elem_of_add_unnamed. by right.
Qed.

Lemma distinct_names_empty : distinct_names ∅.
Proof. intros m1 m2 Hm1. set_solver. Qed.

Lemma distinct_names_add_unnamed X Y :
  distinct_names X → distinct_names Y → distinct_names (add_unnamed X Y).
Proof.
  intros HX HY m1 m2 H1 H2 Heq.
  apply elem_of_add_unnamed in H1 as [H1 | [H1 Hn1]];
    apply elem_of_add_unnamed in H2 as [H2 | [H2 Hn2]].
  - by apply HX.
  - exfalso. apply Hn2. apply elem_of_names. exists m1. by split.
  - exfalso. apply Hn1. apply elem_of_names. exists m2. by split.
  - by apply HY.
Qed.

(** The set folded from the declared sets holds only declared
    mergers, one for each declared [NAME]. *)
Lemma merger_union_from X0 (sets : list (gset Merger)) m :
  m ∈ foldl add_unnamed X0 sets → m ∈ X0 ∨ ∃ X, X ∈ sets ∧ m ∈ X.
Proof.
  revert X0. induction sets as [|Y sets IH]; intros X0; simpl; [by left|].
  intros [[H | [H _]]%elem_of_add_unnamed | (X & HX & H)]%IH.
  - by left.
  - right. exists Y. split; [apply list_elem_of_here | done].
  - right. exists X. split; [by apply list_elem_of_further | done].
Qed.

Lemma elem_of_merger_union (sets : list (gset Merger)) m :
  m ∈ merger_union sets → ∃ X, X ∈ sets ∧ m ∈ X.
Proof.
  intros [H | H]%merger_union_from; [set_solver | done].
Qed.

Lemma names_merger_union_from X0 (sets : list (gset Merger)) n :
  n ∈ names (foldl add_unnamed X0 sets) ↔
  n ∈ names X0 ∨ ∃ X m, X ∈ sets ∧ m ∈ X ∧ NAME m = n.
Proof.
  revert X0. induction sets as [|Y sets IH]; intros X0; simpl.
  - split; [by left | intros [H | (X & m & HX & _)]; [done|]].
    by apply elem_of_nil in HX.
  - rewrite IH, names_add_unnamed. split.
    + intros [[H | H] | (X & m & HX & Hm & <-)].
      * by left.
      * apply elem_of_names in H as (m & Hm & <-).
        right. exists Y, m. split; [apply list_elem_of_here | done].
      * right. exists X, m. split; [by apply list_elem_of_further | done].
    + intros [H | (X & m & HX & Hm & <-)]; [by left; left|].
      apply elem_of_cons in HX as [-> | HX].
      * left; right. apply elem_of_names. by exists m.
      * right. by exists X, m.
Qed.

Lemma names_merger_union (sets : list (gset Merger)) n :
  n ∈ names (merger_union sets) ↔ ∃ X m, X ∈ sets ∧ m ∈ X ∧ NAME m = n.
Proof.
  unfold merger_union. rewrite names_merger_union_from.
  split; [intros [H | H]; [|done] | by right].
  apply elem_of_names in H as (m & Hm & _). set_solver.
Qed.

Lemma distinct_names_merger_union (sets : list (gset Merger)) :
  (∀ X, X ∈ sets → distinct_names X) → distinct_names (merger_union sets).
Proof.
  unfold merger_union. generalize distinct_names_empty.
  generalize (∅ : gset Merger).
  induction sets as [|Y sets IH]; intros X0 HX0 Hd; simpl; [done|].
  apply IH.
  - apply distinct_names_add_unnamed; [done|]. apply Hd, list_elem_of_here.
  - intros X HX. by apply Hd, list_elem_of_further.
Qed.

(** A duplicate-free list drawn from a set with distinct names has
    distinct names. *)
Lemma NoDup_names X (l : list Merger) :
  distinct_names X → (∀ m, m ∈ l → m ∈ X) → NoDup l → NoDup (NAME <$> l).
Proof.
  intros HX Hl Hnd. apply NoDup_fmap_2_strong; [|done].
  intros m1 m2 H1 H2 Heq. apply HX; auto.
Qed.

Lemma sorted_NoDup (X : gset Merger) l : l ≡ₚ elements X → NoDup l.
Proof. intros ->. apply NoDup_elements. Qed.

Lemma sorted_elem_of (X : gset Merger) l m : l ≡ₚ elements X → m ∈ l ↔ m ∈ X.
Proof. intros ->. apply elem_of_elements. Qed.

End MergerSets.

(** ** [install_mod] *)

Section InstallMod.
Context (C : Collab).

(** Reading [mod.mergers] of every installed mod. *)
Lemma collect_from X0 mods (st : State C) :
  fold_M C (λ merger_set md,
              declared ← do_mod_mergers C md;
              ret C (add_unnamed merger_set declared)) X0 mods st
  = (Ok (foldl add_unnamed X0 (declared_sets C mods (st_env st))), st,
     declared_events C mods (st_env st)).
Proof.
  revert X0. induction mods as [|md mods IH]; intros X0; simpl; [done|].
  unfold mbind, M_bind, bind. simpl. by rewrite IH.
Qed.

Lemma collect_mergers_run mods (st : State C) :
  collect_mergers C mods st
  = (Ok (merger_union (declared_sets C mods (st_env st))), st,
     declared_events C mods (st_env st)).
Proof. apply collect_from. Qed.

(** Every run of [install_mod]: the pool is opened, the packages are
    installed in order, and only if all of them were installed the
    declared mergers are collected and run, in the order [sort_mergers]
    gives; an exception out of that second phase leaves as a
    [MergeError]. *)
Lemma install_mod_inv params (st : State C) r st' t :
  install_mod C params st = (r, st', t) →
  let pool := st_next_pool st in
  ∃ rI tI tM,
    t = EvPoolOpen pool :: (tI ++ tM) ++ [EvPoolClose pool]
    ∧ install_run (install_call params pool <$> ip_mods params) rI tI
    ∧ match rI with
      | Raise err => r = Raise err ∧ tM = []
      | Ok mods =>
          ∃ e1 rM tM',
            tM = declared_events C mods e1 ++ tM'
            ∧ merge_run pool
                (mergers_sort_mergers C (merger_union (declared_sets C mods e1)))
                rM tM'
            ∧ r = or_MergeError C rM
      end.
Proof.
  intros (st1 & t1 & Hbody & -> & ->)%with_Pool_inv. simpl.
  apply bind_inv in Hbody
    as [(e & Hm & ->) | (mods & st2 & tI & t2 & Hm & Hk & ->)];
    apply installs_inv in Hm.
  - exists (Raise e), t1, []. by rewrite app_nil_r.
  - exists (Ok mods), tI, t2. split_and!; [done..|].
    apply try_except_inv in Hk
      as [(u & Hk & ->) | [(e & st3 & t3 & t4 & Hk & Hexc & Hh & ->)
                          | (e & Hk & Hexc & ->)]].
    + apply bind_inv in Hk
        as [(e & Hk & ?) | (U & st3 & t3 & t4 & Hk & Hr & ->)];
        rewrite collect_mergers_run in Hk; [done|].
      injection Hk as <- <- <-. apply run_mergers_inv in Hr.
      by exists (st_env st2), (Ok u), t4.
    + injection Hh as <- <- <-.
      apply bind_inv in Hk
        as [(e' & Hk & ?) | (U & st4 & t5 & t6 & Hk & Hr & ->)];
        rewrite collect_mergers_run in Hk; [done|].
      injection Hk as <- <- <-. apply run_mergers_inv in Hr.
      exists (st_env st2), (Raise e), t6. simpl.
      by rewrite app_nil_r, Hexc.
    + apply bind_inv in Hk
        as [(e' & Hk & ?) | (U & st4 & t5 & t6 & Hk & Hr & ->)];
        rewrite collect_mergers_run in Hk; [done|].
      injection Hk as <- <- <-. apply run_mergers_inv in Hr.
      exists (st_env st2), (Raise e), t6. simpl. by rewrite Hexc.
Qed.

(** A run of [install_mod] that ends without an exception, with what
    it made of the world. *)
Lemma install_mod_ok params (st : State C) st' t :
  install_mod C params st = (Ok tt, st', t) →
  let pool := st_next_pool st in
  let calls := install_call params pool <$> ip_mods params in
  ∃ mods e1,
    let U := merger_union (declared_sets C mods e1) in
    installs_from C calls (st_env st) = (Ok mods, e1)
    ∧ merges_from C pool (mergers_sort_mergers C U) e1 = (Ok tt, st_env st')
    ∧ st_next_pool st' = S pool
    ∧ (∀ m, m ∈ mergers_sort_mergers C U → st_pools st' !! oid m = Some pool)
    ∧ length mods = length (ip_mods params)
    ∧ t = EvPoolOpen pool
          :: (install_events calls mods ++ declared_events C mods e1
              ++ merge_events pool (mergers_sort_mergers C U))
          ++ [EvPoolClose pool].
Proof.
  intros (st1 & t1 & Hbody & -> & ->)%with_Pool_inv. simpl.
  apply bind_inv in Hbody
    as [(e & Hm & ?) | (mods & st2 & tI & t2 & Hm & Hk & ->)]; [done|].
  pose proof (installs_exact C _ _ _ _ _ _ Hm) as [Hfrom Hst2].
  apply installs_inv, install_run_ok_inv in Hm as [-> Hlen].
  rewrite length_fmap in Hlen. cbn [st_env] in Hfrom.
  apply try_except_inv in Hk
    as [(u & Hk & _) | [(e & st3 & t3 & t4 & Hk & Hexc & Hh & ->)
                       | (e & Hk & Hexc & ?)]]; [|done..].
  apply bind_inv in Hk
    as [(e & Hk & ?) | (U & st3 & t3 & t4 & Hk & Hr & ->)];
    rewrite collect_mergers_run in Hk; [done|].
  injection Hk as <- <- <-.
  pose proof (run_mergers_exact C _ _ _ _ _ _ Hr) as (Hmerges & Hpool & _ & Hall).
  apply run_mergers_inv in Hr. destruct u.
  apply merge_run_ok_inv in Hr as ->.
  exists mods, (st_env st2). split_and!; [done..| | |done|done].
  - rewrite Hpool, Hst2. done.
  - by apply Hall.
Qed.

End InstallMod.

(** ** [update_mod] *)

Section UpdateMod.
Context (C : Collab).

(** No file chosen: nothing is touched. *)
Lemma update_mod_no_file md (st : State C) e0 :
  file_dialog C (st_env st) = ([], e0) →
  update_mod C md st = (Ok tt, set_env C st e0, [EvFilePick []]).
Proof.
  intros Hpick. unfold update_mod, mbind, M_bind, bind. by rewrite Hpick.
Qed.

(** Every run of [update_mod] either stops before any merger runs, or
    has removed the old files, installed the new package at the old
    priority and run the mergers of the union. *)
Lemma update_mod_inv md (st : State C) r st' t :
  update_mod C md st = (r, st', t) →
  (performed t = []
   ∧ (∀ u, r = Ok u → (file_dialog C (st_env st)).1 = []))
  ∨ (∃ update_file rest e0 options e1 new_mod e2 rM tM,
       let pool := st_next_pool st in
       let old := mergers_get_mergers_for_mod C md e0 in
       let new := mergers_get_mergers_for_mod C new_mod e2 in
       let c := mkCall update_file options None (Some (mod_priority md)) pool in
       file_dialog C (st_env st) = (update_file :: rest, e0)
       ∧ rmtree C (mod_path md) e0 = (Ok tt, e1)
       ∧ install_install_mod C c e1 = (Ok new_mod, e2)
       ∧ merge_run pool (elements (add_unnamed old new)) rM tM
       ∧ r = rM
       ∧ t = [EvFilePick (update_file :: rest);
              EvGetMergersForMod md old;
              EvRmtree (mod_path md) (Ok tt);
              EvPoolOpen pool;
              EvInstall c (Ok new_mod);
              EvGetMergersForMod new_mod new]
             ++ tM ++ [EvPoolClose pool]).
Proof.
  unfold update_mod. intros Hrun.
  destruct (file_dialog C (st_env st)) as [picked e0] eqn:Hpick.
  apply bind_inv in Hrun
    as [(e & Hm & ->) | (picked' & st1 & t1 & t2 & Hm & Hk & ->)];
    rewrite Hpick in Hm; [done|].
  injection Hm as <- <- <-.
  destruct picked as [|update_file rest].
  { injection Hk as <- <- <-. left. by split_and!. }
  apply bind_inv in Hk
    as [(e & Hm & ->) | (options & st2 & t3 & t4 & Hm & Hk & ->)].
  { left. simpl in Hm.
    destruct (options_json C md e0) as [[]|]; by simplify_eq. }
  assert (st2 = set_env C st e0 ∧ t3 = []) as [-> ->].
  { simpl in Hm. destruct (options_json C md e0) as [[]|]; by simplify_eq. }
  clear Hm.
  apply bind_inv in Hk
    as [(e & Hm & ->) | (old & st3 & t5 & t6 & Hm & Hk & ->)]; [done|].
  injection Hm as <- <- <-.
  apply bind_inv in Hk
    as [(e & Hm & ->) | ([] & st4 & t7 & t8 & Hm & Hk & ->)];
    unfold do_rmtree, call in Hm; simpl in Hm;
    destruct (rmtree C (mod_path md) e0) as [r1 e1] eqn:Hrm;
    injection Hm as -> <- <-.
  { left. by split_and!. }
  apply with_Pool_inv in Hk as (st5 & t9 & Hbody & -> & ->). simpl in Hbody.
  apply bind_inv in Hbody
    as [(e & Hm & ->) | (new_mod & st6 & t10 & t11 & Hm & Hk & ->)];
    unfold do_install, call in Hm; simpl in Hm;
    destruct (install_install_mod C _ e1) as [r2 e2] eqn:Hinst;
    injection Hm as -> <- <-.
  { left. by split_and!. }
  apply bind_inv in Hk
    as [(e & Hm & ->) | (new & st7 & t12 & t13 & Hm & Hk & ->)]; [done|].
  injection Hm as <- <- <-. simpl in Hk.
  apply run_mergers_inv in Hk.
  right. exists update_file, rest, e0, options, e1, new_mod, e2, r, t13.
  by split_and!.
Qed.

(** A run of [update_mod] with a file chosen that ends without an
    exception, with what it made of the world. *)
Lemma update_mod_ok md (st : State C) st' t :
  (file_dialog C (st_env st)).1 ≠ [] →
  update_mod C md st = (Ok tt, st', t) →
  let pool := st_next_pool st in
  let e0 := (file_dialog C (st_env st)).2 in
  ∃ update_file rest options e1 new_mod e2,
    let old := mergers_get_mergers_for_mod C md e0 in
    let new := mergers_get_mergers_for_mod C new_mod e2 in
    let c := mkCall update_file options None (Some (mod_priority md)) pool in
    (file_dialog C (st_env st)).1 = update_file :: rest
    ∧ (options_json C md e0 = Some (Ok options)
       ∨ (options_json C md e0 = None ∧ options = PyDict []))
    ∧ rmtree C (mod_path md) e0 = (Ok tt, e1)
    ∧ install_install_mod C c e1 = (Ok new_mod, e2)
    ∧ merges_from C pool (elements (add_unnamed old new)) e2 = (Ok tt, st_env st')
    ∧ st_next_pool st' = S pool
    ∧ t = [EvFilePick (update_file :: rest);
           EvGetMergersForMod md old;
           EvRmtree (mod_path md) (Ok tt);
           EvPoolOpen pool;
           EvInstall c (Ok new_mod);
           EvGetMergersForMod new_mod new]
          ++ merge_events pool (elements (add_unnamed old new))
          ++ [EvPoolClose pool].
Proof.
  unfold update_mod. intros Hpick Hrun. simpl.
  destruct (file_dialog C (st_env st)) as [picked e0] eqn:Hdialog.
  simpl in Hpick |- *.
  apply bind_inv in Hrun
    as [(e & Hm & ?) | (picked' & st1 & t1 & t2 & Hm & Hk & ->)];
    rewrite Hdialog in Hm; [done|].
  injection Hm as <- <- <-.
  destruct picked as [|update_file rest]; [done|].
  apply bind_inv in Hk
    as [(e & Hm & ?) | (options & st2 & t3 & t4 & Hm & Hk & ->)]; [done|].
  assert (st2 = set_env C st e0 ∧ t3 = []
          ∧ (options_json C md e0 = Some (Ok options)
             ∨ options_json C md e0 = None ∧ options = PyDict []))
    as (-> & -> & Hopt).
  { simpl in Hm. destruct (options_json C md e0) as [[]|]; simplify_eq;
      split_and!; auto. }
  clear Hm.
  apply bind_inv in Hk
    as [(e & Hm & ?) | (old & st3 & t5 & t6 & Hm & Hk & ->)]; [done|].
  injection Hm as <- <- <-.
  apply bind_inv in Hk
    as [(e & Hm & ?) | ([] & st4 & t7 & t8 & Hm & Hk & ->)]; [done|].
  unfold do_rmtree, call in Hm. simpl in Hm.
  destruct (rmtree C (mod_path md) e0) as [r1 e1] eqn:Hrm.
  injection Hm as -> <- <-.
  apply with_Pool_inv in Hk as (st5 & t9 & Hbody & -> & ->). simpl in Hbody.
  apply bind_inv in Hbody
    as [(e & Hm & ?) | (new_mod & st6 & t10 & t11 & Hm & Hk & ->)]; [done|].
  unfold do_install, call in Hm. simpl in Hm.
  destruct (install_install_mod C _ e1) as [r2 e2] eqn:Hinst.
  injection Hm as -> <- <-.
  apply bind_inv in Hk
    as [(e & Hm & ?) | (new & st7 & t12 & t13 & Hm & Hk & ->)]; [done|].
  injection Hm as <- <- <-. simpl in Hk.
  pose proof (run_mergers_exact C _ _ _ _ _ _ Hk) as (Hmerges & Hnext & _ & _).
  apply run_mergers_inv, merge_run_ok_inv in Hk as ->.
  exists update_file, rest, options, e1, new_mod, e2.
  by split_and!.
Qed.

End UpdateMod.

(** ** [apply_queue] *)

Section ApplyQueue.
Context (C : Collab).

(** Instantiating the merger classes neither raises nor calls out. *)
Lemma new_mergers_run classes (st : State C) :
  ∃ all st1,
    map_M C (new_merger C) classes st = (Ok all, st1, [])
    ∧ st_env st1 = st_env st.
Proof.
  revert st. induction classes as [|c classes IH]; intros st; simpl.
  - by exists [], st.
  - unfold mbind, M_bind, bind. simpl.
    destruct (IH (mkState (st_env st) (st_next_pool st) (S (st_next_oid st))
                    (st_pools st))) as (all & st1 & -> & Henv).
    simpl. by eexists _, st1.
Qed.

(** The inner loop over the mergers, for one mod: it only asks
    [is_mod_logged], and what it adds tested positive. *)
Lemma inner_loop_run md all R0 (st : State C) :
  ∃ R tQ,
    fold_M C (add_logged C md) R0 all st = (Ok R, st, tQ)
    ∧ Forall is_test tQ
    ∧ ∀ m, m ∈ R → m ∈ R0 ∨ EvIsModLogged m md true ∈ tQ.
Proof.
  revert R0. induction all as [|merger all IH]; intros R0; simpl.
  { exists R0, []. split_and!; [done | constructor | by left]. }
  unfold mbind, M_bind, bind, add_logged at 1, do_is_mod_logged, ask. simpl.
  destruct (IH (if is_mod_logged C merger md (st_env st)
                   && bool_decide (NAME merger ∉ names R0)
                then R0 ∪ {[merger]} else R0)) as (R & tQ & -> & Htests & HR).
  eexists R, _. split_and!; [done | by constructor |].
  intros m [Hin | Hin]%HR; [|by right; apply list_elem_of_further].
  destruct (is_mod_logged C merger md (st_env st)) eqn:Hlog; simpl in Hin;
    [|by left].
  case_bool_decide; [|by left].
  apply elem_of_union in Hin as [Hin | ->%elem_of_singleton]; [by left|].
  right. apply list_elem_of_here.
Qed.

Lemma outer_loop_run all mods R0 (st : State C) :
  ∃ R tQ,
    fold_M C (λ R md, fold_M C (add_logged C md) R all) R0 mods st
    = (Ok R, st, tQ)
    ∧ Forall is_test tQ
    ∧ ∀ m, m ∈ R → m ∈ R0 ∨ ∃ md, md ∈ mods ∧ EvIsModLogged m md true ∈ tQ.
Proof.
  revert R0. induction mods as [|md mods IH]; intros R0; simpl.
  { exists R0, []. split_and!; [done | constructor | by left]. }
  destruct (inner_loop_run md all R0 st) as (R1 & t1 & Hrun1 & Htests1 & HR1).
  destruct (IH R1) as (R & t2 & Hrun2 & Htests2 & HR2).
  exists R, (t1 ++ t2). split_and!.
  - unfold mbind, M_bind, bind. by rewrite Hrun1, Hrun2.
  - by apply Forall_app.
  - intros m [[Hin | Hin]%HR1 | (md' & Hmd' & Hin)]%HR2.
    + by left.
    + right. exists md. split; [apply list_elem_of_here|].
      apply elem_of_app. by left.
    + right. exists md'. split; [by apply list_elem_of_further|].
      apply elem_of_app. by right.
Qed.

(** A merger enters [remergers] only through a positive
    [is_mod_logged] for one of the mods. *)
Lemma queue_remergers_run all mods (st : State C) :
  ∃ R tQ,
    queue_remergers C all mods st = (Ok R, st, tQ)
    ∧ Forall is_test tQ
    ∧ ∀ m, m ∈ R → ∃ md, md ∈ mods ∧ EvIsModLogged m md true ∈ tQ.
Proof.
  destruct (outer_loop_run all mods ∅ st) as (R & tQ & Hrun & Htests & HR).
  exists R, tQ. split_and!; [done..|].
  intros m [Hin | Hin]%HR; [set_solver | done].
Qed.

(** One turn of the loop over the queued installs. *)
Lemma queue_install_inv pool mods i (st : State C) r st' t :
  queue_install C pool mods i st = (r, st', t) →
  let c := mkCall (str_replace "QUEUE" EmptyString (qi_path i)) (qi_options i) None
             (Some (qi_priority i)) pool in
  (∃ err, r = Raise err ∧ t = [EvInstall c (Raise err)])
  ∨ (∃ new_mod R tQ rM tM,
       t = EvInstall c (Ok new_mod) :: tQ ++ tM
       ∧ Forall is_test tQ
       ∧ (∀ m, m ∈ R →
            ∃ md, md ∈ mods ++ [new_mod] ∧ EvIsModLogged m md true ∈ tQ)
       ∧ merge_run pool (mergers_sort_mergers C R) rM tM
       ∧ r = match rM with
             | Ok _ => Ok (mods ++ [new_mod])
             | Raise err => Raise err
             end).
Proof.
  unfold queue_install. intros Hrun.
  apply bind_inv in Hrun
    as [(e & Hm & ->) | (new_mod & st1 & t1 & t2 & Hm & Hk & ->)];
    unfold do_install, call in Hm;
    destruct (install_install_mod C _ (st_env st)) as [r1 e1];
    injection Hm as -> <- <-.
  { left. by exists e. }
  right.
  destruct (new_mergers_run (mergers_get_mergers C) (set_env C st e1))
    as (all & st2 & Hall & Henv).
  apply bind_inv in Hk
    as [(e & Hm & ->) | (all' & st2' & t3 & t4 & Hm & Hk & ->)];
    rewrite Hall in Hm; [done|].
  injection Hm as <- <- <-.
  destruct (queue_remergers_run all (mods ++ [new_mod]) st2)
    as (R & tQ & HQ & Htests & HR).
  apply bind_inv in Hk
    as [(e & Hm & ->) | (R' & st4 & t5 & t6 & Hm & Hk & ->)];
    rewrite HQ in Hm; [done|].
  injection Hm as <- <- <-.
  apply bind_inv in Hk
    as [(e & Hm & ->) | ([] & st5 & t7 & t8 & Hm & Hk & ->)];
    apply run_mergers_inv in Hm.
  - exists new_mod, R, tQ, (Raise e), t6. by split_and!.
  - injection Hk as <- <- <-. rewrite app_nil_r.
    exists new_mod, R, tQ, (Ok tt), t7. by split_and!.
Qed.

Section Loop.
Hypothesis sort_within :
  ∀ X m, m ∈ mergers_sort_mergers C X → m ∈ X.

(** A merger that ran in one turn tested positive for a mod collected
    so far. *)
Lemma turn_performed pool mods new_mod R tQ rM tM c m :
  Forall is_test tQ →
  (∀ m, m ∈ R → ∃ md, md ∈ mods ++ [new_mod] ∧ EvIsModLogged m md true ∈ tQ) →
  merge_run pool (mergers_sort_mergers C R) rM tM →
  m ∈ performed (EvInstall c (Ok new_mod) :: tQ ++ tM) →
  ∃ md, md ∈ mods ++ [new_mod]
        ∧ EvIsModLogged m md true ∈ EvInstall c (Ok new_mod) :: tQ ++ tM.
Proof.
  intros Htests HR HM. simpl. rewrite performed_app.
  destruct (tests_quiet _ Htests) as (-> & _). simpl. intros Hin.
  apply (merge_run_performed_elem_of _ _ _ _ _ HM), sort_within, HR in Hin
    as (md & Hmd & Hev).
  exists md. split; [done|]. apply list_elem_of_further, elem_of_app. by left.
Qed.

Lemma turn_touched pool mods new_mod l tQ rM tM c :
  Forall is_test tQ →
  merge_run pool l rM tM →
  mods ++ touched (EvInstall c (Ok new_mod) :: tQ ++ tM) = mods ++ [new_mod].
Proof.
  intros Htests HM. simpl. rewrite touched_app.
  destruct (tests_quiet _ Htests) as (_ & -> & _).
  by rewrite (merge_run_touched _ _ _ _ HM).
Qed.

Lemma queue_loop_performed pool installs mods (st : State C) r st' t m :
  fold_M C (queue_install C pool) mods installs st = (r, st', t) →
  m ∈ performed t →
  ∃ md, md ∈ mods ++ touched t ∧ EvIsModLogged m md true ∈ t.
Proof.
  revert mods st r st' t.
  induction installs as [|i installs IH]; intros mods st r st' t; simpl.
  { intros [= <- <- <-]. by intros ?%elem_of_nil. }
  intros [(e & Hm & ->) | (mods' & st1 & t1 & t2 & Hm & Hk & ->)]%bind_inv;
    apply queue_install_inv in Hm
      as [(err & Hr & ->)
         | (new_mod & R & tQ & rM & tM & -> & Htests & HR & HM & Hr)].
  - by intros ?%elem_of_nil.
  - rewrite (turn_touched _ _ _ _ _ _ _ _ Htests HM).
    by apply (turn_performed pool mods new_mod R tQ rM tM).
  - done.
  - destruct rM as [[]|]; [|done]. injection Hr as ->.
    rewrite performed_app, touched_app, app_assoc.
    rewrite (turn_touched _ _ _ _ _ _ _ _ Htests HM).
    intros [Hin | Hin]%elem_of_app.
    + destruct (turn_performed pool mods new_mod R tQ (Ok tt) tM _ m
                  Htests HR HM Hin) as (md & Hmd & Hev).
      exists md. split; apply elem_of_app; by left.
    + destruct (IH _ _ _ _ _ Hk Hin) as (md & Hmd & Hev).
      exists md. split; [done|]. apply elem_of_app. by right.
Qed.

End Loop.

(** The first loop of [apply_queue]: it only changes priorities, and
    the mods it collects are the mods it moved. *)
Lemma moves_inv moves (st : State C) r st' t :
  map_M C (λ move_mod,
             do_change_priority C (mv_mod move_mod) (mv_priority move_mod) ;;
             ret C (mv_mod move_mod)) moves st = (r, st', t) →
  performed t = [] ∧ ∀ mods, r = Ok mods → touched t = mods.
Proof.
  revert st r st' t. induction moves as [|mv moves IH]; intros st r st' t; simpl.
  { intros [= <- <- <-]. split; [done|]. by intros mods [= <-]. }
  intros [(e & Hm & ->) | (md & st1 & t1 & t2 & Hm & Hk & ->)]%bind_inv.
  - apply bind_inv in Hm
      as [(e' & Hm & _) | ([] & st2 & t3 & t4 & Hm & Hk & ->)]; [|done].
    unfold do_change_priority, call in Hm.
    destruct (change_priority C _ _ (st_env st)) as [r1 e1].
    injection Hm as -> <- <-. by split.
  - apply bind_inv in Hm
      as [(e' & Hm & ?) | ([] & st2 & t3 & t4 & Hm & Hr & ->)]; [done|].
    unfold do_change_priority, call in Hm.
    destruct (change_priority C _ _ (st_env st)) as [r1 e1].
    injection Hm as -> <- <-. injection Hr as <- <- <-.
    apply bind_inv in Hk
      as [(e' & Hm & ->) | (mods & st3 & t5 & t6 & Hm & Hr & ->)];
      apply IH in Hm as [Hp Ht].
    + split; [done | by intros mods [=]].
    + injection Hr as <- <- <-. rewrite !performed_app, Hp. split; [done|].
      intros mods' [= <-]. rewrite !touched_app, (Ht mods eq_refl). simpl.
      by rewrite app_nil_r.
Qed.

End ApplyQueue.

(** ** [remerge] *)

Section Remerge.
Context (C : Collab).

(** The comprehension of [remerge] instantiates classes; it calls no
    collaborator and keeps the classes with the wanted friendly name, in
    registry order. *)
Lemma mergers_named_run name classes (st : State C) :
  ∃ found st1,
    mergers_named C name classes st = (Ok found, st1, [])
    ∧ st_env st1 = st_env st
    ∧ st_pools st1 = st_pools st
    ∧ (λ m, mkClass (NAME m) (friendly_name m)) <$> found
      = filter (λ c, cls_friendly_name c = name) classes.
Proof.
  revert st. induction classes as [|[n f] classes IH]; intros st; simpl.
  { by exists [], st. }
  unfold mbind, M_bind, bind. simpl.
  destruct (String.eqb_spec f name) as [-> | Hne].
  - destruct (IH (mkState (st_env st) (st_next_pool st)
                    (S (S (st_next_oid st))) (st_pools st)))
      as (found & st1 & Hrun & Henv & Hpools & Hfound).
    simpl. rewrite Hrun. simpl.
    eexists (_ :: found), st1. split_and!; [done..|].
    rewrite filter_cons_True by done. simpl. by f_equal.
  - destruct (IH (mkState (st_env st) (st_next_pool st)
                    (S (st_next_oid st)) (st_pools st)))
      as (found & st1 & Hrun & Henv & Hpools & Hfound).
    rewrite Hrun. exists found, st1. split_and!; [done..|].
    by rewrite filter_cons_False.
Qed.


End Remerge.

(** ** The orchestrator entry points *)

Section Orchestrator.
Context (C : Collab).

Lemma install_failures_app t1 t2 :
  install_failures (t1 ++ t2) = install_failures t1 ++ install_failures t2.
Proof. unfold install_failures. by rewrite flat_map_app. Qed.

Lemma install_failures_merge_events pool l :
  install_failures (merge_events pool l) = [].
Proof. induction l as [|m l IH]; simpl; done. Qed.

Lemma install_failures_install_events calls mods :
  install_failures (install_events calls mods) = [].
Proof.
  revert mods. induction calls as [|c calls IH]; intros [|md mods]; simpl; auto.
Qed.

Lemma install_failures_tests t : Forall is_test t → install_failures t = [].
Proof.
  induction 1 as [|ev t Hev _ IH]; [done|]. destruct ev; try done; exact IH.
Qed.

Lemma install_run_install_failures calls r t :
  install_run calls r t →
  install_failures t = match r with Ok _ => [] | Raise err => [err] end.
Proof.
  intros [mods _|calls1 c calls2 mods1 err _ _].
  - apply install_failures_install_events.
  - by rewrite install_failures_app, install_failures_install_events.
Qed.

Lemma merge_run_install_failures pool l r t :
  merge_run pool l r t → install_failures t = [].
Proof.
  intros [|l1 m l2 err ->].
  - apply install_failures_merge_events.
  - by rewrite install_failures_app, install_failures_merge_events.
Qed.

Lemma elem_of_declared_sets mods e X :
  X ∈ declared_sets C mods e ↔ ∃ md, md ∈ mods ∧ X = mod_mergers C md e.
Proof.
  unfold declared_sets. rewrite list_elem_of_fmap.
  split; intros (md & H1 & H2); by exists md.
Qed.

Lemma elem_of_declared_events mods e md :
  md ∈ mods → EvModMergers md (mod_mergers C md e) ∈ declared_events C mods e.
Proof.
  intros Hmd. unfold declared_events. apply list_elem_of_fmap. by exists md.
Qed.

(** What [apply_queue] ran had tested positive for a mod it moved or
    installed. *)
Lemma apply_queue_performed params (st : State C) r st' t m :
  (∀ X m, m ∈ mergers_sort_mergers C X → m ∈ X) →
  apply_queue C params st = (r, st', t) →
  m ∈ performed t →
  ∃ md, md ∈ touched t ∧ EvIsModLogged m md true ∈ t.
Proof.
  intros Hsort. unfold apply_queue.
  intros [(e & Hm & ->) | (mods & st1 & t1 & t2 & Hm & Hk & ->)]%bind_inv;
    apply moves_inv in Hm as [Hperf Htouch].
  { rewrite Hperf. by intros ?%elem_of_nil. }
  specialize (Htouch mods eq_refl).
  assert (∃ st2 tL rL t3,
             fold_M C (queue_install C (st_next_pool st1)) mods
               (qp_installs params)
               (mkState (st_env st1) (S (st_next_pool st1)) (st_next_oid st1)
                  (st_pools st1)) = (rL, st2, tL)
             ∧ t2 = EvPoolOpen (st_next_pool st1) :: tL
                    ++ [EvPoolClose (st_next_pool st1)] ++ t3
             ∧ performed t3 = [] ∧ touched t3 = [])
    as (st2 & tL & rL & t3 & Hloop & -> & Hp3 & Ht3).
  { apply bind_inv in Hk
      as [(e & Hm & ->) | (mods' & st2 & t3 & t4 & Hm & Hk & ->)];
      apply with_Pool_inv in Hm as (st3 & tL & Hloop & -> & ->).
    - eexists _, tL, _, []. split; [exact Hloop|]. by rewrite app_nil_r.
    - unfold do_refresh_master_export, call in Hk.
      destruct (install_refresh_master_export C _) as [r1 e1].
      injection Hk as <- <- <-. eexists _, tL, _, [EvRefreshMasterExport r1].
      split; [exact Hloop|].
      split; [simpl; by rewrite <- app_assoc | by split]. }
  change (EvPoolOpen (st_next_pool st1) :: tL ++ [EvPoolClose (st_next_pool st1)] ++ t3)
    with ([EvPoolOpen (st_next_pool st1)] ++ tL
          ++ [EvPoolClose (st_next_pool st1)] ++ t3).
  rewrite !performed_app, !touched_app, Hperf, Hp3, Ht3, Htouch. simpl.
  rewrite !app_nil_r. intros Hin.
  destruct (queue_loop_performed C Hsort _ _ _ _ _ _ _ m Hloop Hin)
    as (md & Hmd & Hev).
  exists md. split; [done|].
  apply elem_of_app. right. apply list_elem_of_further, elem_of_app. by left.
Qed.

End Orchestrator.

(** ** What the specification says of the orchestrator *)

(** C2. A batch passed to [install_mod] that installs and merges without
    an exception: every package is installed first, by
    [install.install_mod] called for each in turn on the world the one
    before left; then [mod.mergers] of every installed mod is read, in
    the world with the whole batch installed, and folded into one set,
    one merger per declared [NAME]; then [perform_merge] is called on
    the mergers of that set in the order [sort_mergers] gives, each
    exactly once and on no other merger, starting from that same world;
    every one of them holds the one pool opened for the batch, and the
    world the last merge leaves is the world the operation leaves.
    [sort_mergers] is taken to return its argument reordered, and
    [mod.mergers] to hold no two mergers of one [NAME]; where
    [sort_mergers] orders every set consistently with the dependency
    edges, the mergers run in an order consistent with them. *)
Theorem install_mod_merges_batch_once
    (C : Collab) (params : InstallParams) (st st' : State C) (t : list Event) :
  (∀ X, mergers_sort_mergers C X ≡ₚ elements X) →
  (∀ md e, distinct_names (mod_mergers C md e)) →
  install_mod C params st = (Ok tt, st', t) →
  let pool := st_next_pool st in
  ∃ mods e1,
    let U := merger_union (declared_sets C mods e1) in
    t = [EvPoolOpen pool]
        ++ install_events (install_call params pool <$> ip_mods params) mods
        ++ declared_events C mods e1
        ++ merge_events pool (mergers_sort_mergers C U)
        ++ [EvPoolClose pool]
    ∧ length mods = length (ip_mods params)
    ∧ touched t = mods
    ∧ performed t = mergers_sort_mergers C U
    ∧ NoDup (performed t)
    ∧ (∀ m, m ∈ performed t ↔ m ∈ U)
    ∧ NoDup (NAME <$> performed t)
    ∧ (∀ n, n ∈ NAME <$> performed t ↔
            ∃ md m, md ∈ mods ∧ m ∈ mod_mergers C md e1 ∧ NAME m = n)
    ∧ (∀ p, p ∈ pools_set t → p = pool)
    ∧ installs_from C (install_call params pool <$> ip_mods params) (st_env st)
      = (Ok mods, e1)
    ∧ merges_from C pool (performed t) e1 = (Ok tt, st_env st')
    ∧ st_next_pool st' = S pool
    ∧ (∀ m, m ∈ performed t → st_pools st' !! oid m = Some pool)
    ∧ (∀ depends,
         (∀ X, consistent_with depends (mergers_sort_mergers C X)) →
         consistent_with depends (performed t)).
Proof.
  intros Hsort Hnames Hrun pool.
  apply install_mod_ok in Hrun
    as (mods & e1 & Hfrom & Hmerges & Hnext & Hheld & Hlen & ->).
  exists mods, e1. intros U. fold pool in Hfrom, Hmerges, Hnext, Hheld |- *.
  fold U in Hmerges, Hheld |- *.
  set (calls := install_call params pool <$> ip_mods params) in *.
  set (t := [EvPoolOpen pool] ++ install_events calls mods
            ++ declared_events C mods e1
            ++ merge_events pool (mergers_sort_mergers C U)
            ++ [EvPoolClose pool]).
  assert (EvPoolOpen pool
          :: (install_events calls mods ++ declared_events C mods e1
              ++ merge_events pool (mergers_sort_mergers C U))
          ++ [EvPoolClose pool] = t) as ->.
  { unfold t. simpl. by rewrite <- !app_assoc. }
  destruct (tests_quiet _ (declared_events_tests C mods e1))
    as (Hq1 & Hq2 & Hq3 & _).
  assert (Hperf : performed t = mergers_sort_mergers C U).
  { unfold t.
    rewrite !performed_app, performed_install_events, performed_merge_events, Hq1.
    simpl. by rewrite app_nil_r. }
  rewrite Hperf.
  split_and!.
  - done.
  - done.
  - unfold t.
    rewrite !touched_app, touched_install_events, touched_merge_events, Hq2
      by (unfold calls; by rewrite length_fmap).
    simpl. by rewrite !app_nil_r.
  - done.
  - by apply (sorted_NoDup U).
  - intros m. by apply sorted_elem_of.
  - apply (NoDup_names U).
    + apply distinct_names_merger_union.
      intros X (md & _ & ->)%elem_of_declared_sets. apply Hnames.
    + intros m. by apply sorted_elem_of.
    + by apply (sorted_NoDup U).
  - intros n. rewrite list_elem_of_fmap. split.
    + intros (m & -> & Hm). apply (sorted_elem_of U) in Hm; [|done].
      apply elem_of_merger_union in Hm
        as (X & (md & Hmd & ->)%elem_of_declared_sets & Hm).
      by exists md, m.
    + intros (md & m & Hmd & Hm & <-).
      assert (NAME m ∈ names U) as (m' & Hm' & Heq)%elem_of_names.
      { apply names_merger_union. exists (mod_mergers C md e1), m.
        split_and!; [|done..]. apply elem_of_declared_sets. by exists md. }
      exists m'. split; [done|]. by apply (sorted_elem_of U).
  - intros p. unfold t.
    rewrite !pools_set_app, pools_set_install_events, pools_set_merge_events, Hq3.
    simpl. rewrite app_nil_r. by intros ?%elem_of_replicate_inv.
  - done.
  - done.
  - done.
  - done.
  - intros depends Hdeps. apply Hdeps.
Qed.

Section Affected.
Context (C : Collab).
Hypothesis sort_within : ∀ X m, m ∈ mergers_sort_mergers C X → m ∈ X.

(** What [install_mod] ran was declared by a mod it installed. *)
Lemma install_mod_performed params (st : State C) r st' t m :
  install_mod C params st = (r, st', t) →
  m ∈ performed t →
  ∃ md, md ∈ touched t ∧ tested_affected t m md.
Proof.
  intros (rI & tI & tM & -> & HI & Hrest)%install_mod_inv.
  change (EvPoolOpen ?p :: ?l) with ([EvPoolOpen p] ++ l).
  rewrite !performed_app, !touched_app, (install_run_performed _ _ _ HI). simpl.
  rewrite !app_nil_r.
  destruct rI as [mods|err]; [|destruct Hrest as [_ ->]; by intros ?%elem_of_nil].
  destruct Hrest as (e1 & rM & tM' & -> & HM & _).
  destruct (tests_quiet _ (declared_events_tests C mods e1))
    as (Hq1 & Hq2 & _).
  rewrite performed_app, touched_app, Hq1, Hq2, (merge_run_touched _ _ _ _ HM).
  simpl. rewrite app_nil_r. intros Hin.
  apply (merge_run_performed_elem_of _ _ _ _ _ HM), sort_within,
    elem_of_merger_union in Hin
    as (X & (md & Hmd & ->)%elem_of_declared_sets & Hm).
  apply install_run_ok_inv in HI as [-> Hlen].
  exists md. split; [by rewrite touched_install_events|].
  right. exists (mod_mergers C md e1). split; [done|]. left.
  apply list_elem_of_further, elem_of_app. left. apply elem_of_app. right.
  apply elem_of_app. left. by apply elem_of_declared_events.
Qed.

(** What [update_mod] ran was returned by [get_mergers_for_mod] for the
    old mod or for the new one. *)
Lemma update_mod_performed md (st : State C) r st' t m :
  update_mod C md st = (r, st', t) →
  m ∈ performed t →
  ∃ md', md' ∈ md :: touched t ∧ tested_affected t m md'.
Proof.
  intros [[-> _] | Hfull]%update_mod_inv; [by intros ?%elem_of_nil|].
  destruct Hfull as (update_file & rest & e0 & options & e1 & new_mod & e2
                     & rM & tM & _ & _ & _ & HM & _ & ->).
  simpl. rewrite performed_app, touched_app, (merge_run_touched _ _ _ _ HM).
  simpl. rewrite app_nil_r. intros Hin.
  apply (merge_run_performed_elem_of _ _ _ _ _ HM), elem_of_elements,
    elem_of_add_unnamed in Hin as [Hin | [Hin _]].
  - exists md. split; [apply list_elem_of_here|].
    right. eexists. split; [exact Hin|]. right.
    apply list_elem_of_further, list_elem_of_here.
  - exists new_mod. split; [apply list_elem_of_further, list_elem_of_here|].
    right. eexists. split; [exact Hin|]. right.
    do 5 apply list_elem_of_further. apply list_elem_of_here.
Qed.

End Affected.

(** C4. In [install_mod], [update_mod] and [apply_queue] alike, a merger
    for which no is-affected test of the operation was positive on a
    mod the operation touched ([is_mod_logged] returned [False], the
    merger was not among [mod.mergers] nor among
    [get_mergers_for_mod(mod)]) never has [perform_merge] invoked,
    whatever the outcome of the operation.  The mods touched are those
    moved or installed and, for [update_mod], the mod being updated.
    [sort_mergers] is taken to return only mergers it was given. *)
Theorem unaffected_merger_never_performed (C : Collab) (m : Merger) :
  (∀ X m', m' ∈ mergers_sort_mergers C X → m' ∈ X) →
  (∀ params (st : State C),
     let t := (install_mod C params st).2 in
     (∀ md, md ∈ touched t → ¬ tested_affected t m md) → m ∉ performed t)
  ∧ (∀ md (st : State C),
       let t := (update_mod C md st).2 in
       (∀ md', md' ∈ md :: touched t → ¬ tested_affected t m md') →
       m ∉ performed t)
  ∧ (∀ params (st : State C),
       let t := (apply_queue C params st).2 in
       (∀ md, md ∈ touched t → ¬ tested_affected t m md) → m ∉ performed t).
Proof.
  intros Hsort. split_and!.
  - intros params st.
    destruct (install_mod C params st) as [[r st'] t] eqn:Hrun. simpl.
    intros Hnone Hin.
    destruct (install_mod_performed C Hsort _ _ _ _ _ _ Hrun Hin)
      as (md & Hmd & Htest).
    by apply (Hnone md).
  - intros md st.
    destruct (update_mod C md st) as [[r st'] t] eqn:Hrun. simpl.
    intros Hnone Hin.
    destruct (update_mod_performed C _ _ _ _ _ _ Hrun Hin)
      as (md' & Hmd' & Htest).
    by apply (Hnone md').
  - intros params st.
    destruct (apply_queue C params st) as [[r st'] t] eqn:Hrun. simpl.
    intros Hnone Hin.
    destruct (apply_queue_performed C _ _ _ _ _ _ Hsort Hrun Hin)
      as (md & Hmd & Hev).
    apply (Hnone md); [done|]. by left.
Qed.

(** C5. An [update_mod] for which a file was chosen and that ends
    without an exception: the mergers of the old mod are read, then the
    tree of the old mod is removed by [rmtree], then the new package is
    installed by [install.install_mod], on the world the removal left,
    with the old mod's priority as [insert_priority] (so that the new
    mod has the priority of the old one wherever [install.install_mod]
    gives a mod the priority it is asked to insert it at); then the
    mergers of the old mod together with those of the new one whose
    [NAME] the old ones lack are run by [perform_merge], each exactly
    once, holding one pool, starting from the world the install left,
    and the world the last merge leaves is the world the operation
    leaves. *)
Theorem update_mod_keeps_priority_and_merges_once
    (C : Collab) (md : BcmlMod) (st st' : State C) (t : list Event) :
  (file_dialog C (st_env st)).1 ≠ [] →
  update_mod C md st = (Ok tt, st', t) →
  let pool := st_next_pool st in
  let e0 := (file_dialog C (st_env st)).2 in
  ∃ update_file options new_mod old new e1 e2,
    let U := add_unnamed old new in
    let c := mkCall update_file options None (Some (mod_priority md)) pool in
    head (file_dialog C (st_env st)).1 = Some update_file
    ∧ t = [EvFilePick (file_dialog C (st_env st)).1;
           EvGetMergersForMod md old;
           EvRmtree (mod_path md) (Ok tt);
           EvPoolOpen pool;
           EvInstall c (Ok new_mod);
           EvGetMergersForMod new_mod new]
          ++ merge_events pool (elements U) ++ [EvPoolClose pool]
    ∧ performed t = elements U
    ∧ NoDup (performed t)
    ∧ (∀ m, m ∈ performed t ↔ m ∈ old ∨ (m ∈ new ∧ NAME m ∉ names old))
    ∧ (∀ n, n ∈ NAME <$> performed t ↔ n ∈ names old ∨ n ∈ names new)
    ∧ old = mergers_get_mergers_for_mod C md e0
    ∧ (options_json C md e0 = Some (Ok options)
       ∨ (options_json C md e0 = None ∧ options = PyDict []))
    ∧ rmtree C (mod_path md) e0 = (Ok tt, e1)
    ∧ install_install_mod C c e1 = (Ok new_mod, e2)
    ∧ new = mergers_get_mergers_for_mod C new_mod e2
    ∧ merges_from C pool (performed t) e2 = (Ok tt, st_env st')
    ∧ st_next_pool st' = S pool
    ∧ ((∀ c' e md' e' p,
          install_install_mod C c' e = (Ok md', e') →
          ic_insert_priority c' = Some p → mod_priority md' = p) →
       mod_priority new_mod = mod_priority md).
Proof.
  intros Hpick Hrun pool e0.
  apply update_mod_ok in Hrun
    as (update_file & rest & options & e1 & new_mod & e2
        & Hdialog & Hopt & Hrm & Hinst & Hmerges & Hnext & ->); [|done].
  exists update_file, options, new_mod,
    (mergers_get_mergers_for_mod C md e0),
    (mergers_get_mergers_for_mod C new_mod e2), e1, e2.
  intros U c. rewrite Hdialog. fold pool e0 in Hopt, Hrm, Hinst, Hmerges, Hnext |- *.
  fold U c in Hinst, Hmerges |- *.
  assert (Hperf : performed
            ([EvFilePick (update_file :: rest);
              EvGetMergersForMod md (mergers_get_mergers_for_mod C md e0);
              EvRmtree (mod_path md) (Ok tt);
              EvPoolOpen pool;
              EvInstall c (Ok new_mod);
              EvGetMergersForMod new_mod
                (mergers_get_mergers_for_mod C new_mod e2)]
             ++ merge_events pool (elements U) ++ [EvPoolClose pool])
            = elements U).
  { rewrite !performed_app, performed_merge_events. simpl.
    by rewrite app_nil_r. }
  rewrite Hperf. split_and!; try done.
  - apply NoDup_elements.
  - intros m. unfold U. by rewrite elem_of_elements, elem_of_add_unnamed.
  - intros n. unfold U.
    rewrite <- names_add_unnamed, elem_of_names, list_elem_of_fmap.
    split; intros (m & H1 & H2); exists m; split; try done;
      by apply elem_of_elements.
  - intros Hcontract. by apply (Hcontract c e1 new_mod e2).
Qed.


(** C3, as the code has it.  When the wrapped operation returns, the
    caller receives the success indicator and nothing else: the
    envelope is [{"success": True}], whatever the operation returned;
    the state and the recorded calls are those of the operation. *)
Theorem win_or_lose_success_only
    (C : Collab) {A} (func : M C A) (st st' : State C) (v : A) (t : list Event) :
  func st = (Ok v, st', t) →
  win_or_lose C func st = (Ok {[ "success" := PyBool true ]}, st', t).
Proof.
  intros Hf. unfold win_or_lose, try_except, mbind, M_bind, bind, ret.
  rewrite Hf. simpl. by rewrite !app_nil_r.
Qed.

(** C10, as the code has it.  When the wrapped operation raises [err],
    an [Exception], and the log file can be written, the caller
    receives a failure envelope; in every failure envelope the flag [error_text] is [True]
    and [error] is the exception's own [error_text] when it has one and
    the formatted traceback otherwise, so that [error] is non-empty
    whenever the traceback is and the exception does not carry an empty
    [error_text] of its own. *)
Theorem win_or_lose_failure_envelope
    (C : Collab) {A} (func : M C A) (st st1 : State C) (err : PyExc)
    (t : list Event) :
  func st = (Raise err, st1, t) →
  let text := default (format_exc C err) (exc_error_text err) in
  let line := newline +:+ exc_str err +:+ newline in
  (is_Exception err = true →
   ∀ e, log_write C line (st_env st1) = (Ok tt, e) →
        win_or_lose C func st
        = (Ok {[ "error" := PyStr text; "error_text" := PyBool true ]},
           set_env C st1 e, t ++ [EvLogWrite line (Ok tt)]))
  ∧ (∀ envelope st' t',
       win_or_lose C func st = (Ok envelope, st', t') →
       envelope !! "error_text" = Some (PyBool true)
       ∧ envelope !! "error" = Some (PyStr text)
       ∧ envelope !! "success" = None)
  ∧ (exc_error_text err = None → text = format_exc C err)
  ∧ (format_exc C err ≠ EmptyString → exc_error_text err ≠ Some EmptyString → text ≠ EmptyString).
Proof.
  intros Hf text line.
  split_and!.
  - intros Hexc e Hlog.
    rewrite (win_or_lose_failure C func st err st1 t Hf Hexc).
    cbv zeta. unfold line in Hlog. by rewrite Hlog.
  - intros envelope st' t'.
    destruct (is_Exception err) eqn:Hexc;
      [|by rewrite (win_or_lose_passes C func st err st1 t Hf Hexc)].
    rewrite (win_or_lose_failure C func st err st1 t Hf Hexc).
    cbv zeta. fold text line.
    destruct (log_write C line (st_env st1)) as [[[]|e2] e]; [|done].
    intros [= <- <- <-]. split_and!.
    + rewrite lookup_insert_ne by done. by rewrite lookup_singleton_eq.
    + by rewrite lookup_insert_eq.
    + rewrite lookup_insert_ne by done. by rewrite lookup_singleton_ne.
  - unfold text. by intros ->.
  - unfold text. destruct (exc_error_text err) as [s|]; simpl; [|done].
    intros _ Hs ->. by apply Hs.
Qed.

(** C6, as the code has it.  [remerge] with no mod installed: if the
    master directory exists it is removed and [link_master_mod] is
    called, and if it does not exist nothing is done; with mods
    installed, the target ["all"] calls [install.refresh_merges] and
    nothing else, and any other target runs [perform_merge] on a new
    instance of the first registered merger class whose friendly name
    is the target, and on no other merger, and then calls
    [refresh_master_export].  Each case is stated for collaborators
    that do not raise. *)
Theorem remerge_cases (C : Collab) (name : string) (st : State C) :
  let e := st_env st in
  let master := util_get_master_modpack_dir C in
  (util_get_installed_mods C e = [] →
   if master_modpack_dir_exists C e
   then ∀ e1 e2,
          rmtree C master e = (Ok tt, e1) →
          install_link_master_mod C e1 = (Ok tt, e2) →
          remerge C name st
          = (Ok tt, set_env C st e2,
             [EvRmtree master (Ok tt); EvLinkMasterMod (Ok tt)])
   else remerge C name st = (Ok tt, st, []))
  ∧ (util_get_installed_mods C e ≠ [] → name = "all" →
     ∀ e1, install_refresh_merges C e = (Ok tt, e1) →
           remerge C name st
           = (Ok tt, set_env C st e1, [EvRefreshMerges (Ok tt)]))
  ∧ (util_get_installed_mods C e ≠ [] → name ≠ "all" →
     ∀ c, head (classes_named C name) = Some c →
          ∃ merger pool,
            NAME merger = cls_NAME c ∧ friendly_name merger = name
            ∧ ∀ e1 e2,
                perform_merge C merger pool e = (Ok tt, e1) →
                install_refresh_master_export C e1 = (Ok tt, e2) →
                ∃ st',
                  remerge C name st
                  = (Ok tt, st',
                     [EvPerformMerge merger pool (Ok tt);
                      EvRefreshMasterExport (Ok tt)])
                  ∧ st_env st' = e2).
Proof.
  intros e master. split_and!.
  - intros Hnone.
    destruct (master_modpack_dir_exists C e) eqn:Hexists.
    + intros e1 e2 Hrm Hlink.
      unfold remerge, try_except, mbind, M_bind, bind, read, ret,
        do_rmtree, do_link_master_mod, call.
      simpl. fold e master. rewrite Hnone. simpl. fold e master.
      rewrite Hexists. simpl. fold e master. rewrite Hrm. simpl.
      by rewrite Hlink.
    + unfold remerge, try_except, mbind, M_bind, bind, read, ret.
      simpl. fold e. rewrite Hnone. simpl. fold e. by rewrite Hexists.
  - intros Hsome -> e1 Hrefresh.
    unfold remerge, try_except, mbind, M_bind, bind, read, ret. simpl. fold e.
    destruct (util_get_installed_mods C e) as [|md mods]; [done|].
    unfold do_refresh_merges, call. fold e. by rewrite Hrefresh.
  - intros Hsome Hname c Hc.
    destruct (mergers_named_run C name (mergers_get_mergers C) st)
      as (found & st1 & Hrun & Henv & Hpools & Hfound).
    unfold classes_named in Hc. rewrite <- Hfound in Hc.
    destruct found as [|merger found]; [done|]. injection Hc as <-.
    assert (friendly_name merger = name) as Hfriendly.
    { assert (mkClass (NAME merger) (friendly_name merger)
              ∈ filter (λ c, cls_friendly_name c = name) (mergers_get_mergers C))
        as [Hf _]%list_elem_of_filter; [|done].
      rewrite <- Hfound. apply list_elem_of_here. }
    exists merger, (st_pools st1 !! oid merger). split_and!; [done..|].
    intros e1 e2 Hmerge Hexport.
    unfold remerge, try_except, mbind, M_bind, bind, read, ret. simpl. fold e.
    destruct (util_get_installed_mods C e) as [|md mods]; [done|].
    apply String.eqb_neq in Hname. rewrite Hname, Hrun.
    unfold do_perform_merge, do_refresh_master_export, call. simpl.
    rewrite Henv. fold e. rewrite Hmerge. simpl. rewrite Hexport.
    by eexists.
Qed.

(** ** The small world *)

Module DemoFacts.
Import Demo.

Lemma sort_by_rank_permutation X : sort_by_rank X ≡ₚ elements X.
Proof. unfold sort_by_rank. apply merge_sort_Permutation. Qed.

Lemma sort_by_rank_within X m : m ∈ sort_by_rank X → m ∈ X.
Proof. rewrite sort_by_rank_permutation. apply elem_of_elements. Qed.

Lemma mergers_of_distinct md w : distinct_names (mergers_of md w).
Proof.
  intros m1 m2. unfold mergers_of.
  rewrite !elem_of_list_to_set, !list_elem_of_omap.
  intros (c1 & Hc1 & Hf1) (c2 & Hc2 & Hf2) Heq. unfold registry in *.
  repeat (apply elem_of_cons in Hc1 as [-> | Hc1]);
    try (by apply elem_of_nil in Hc1);
    repeat (apply elem_of_cons in Hc2 as [-> | Hc2]);
    try (by apply elem_of_nil in Hc2);
    simpl in *; repeat case_bool_decide; by simplify_eq.
Qed.

Lemma StronglySorted_lookup {A} (R : relation A) (l : list A) i j x y :
  StronglySorted R l → i < j → l !! i = Some x → l !! j = Some y → R x y.
Proof.
  intros Hl. revert i j. induction Hl as [|a l _ IH Hall]; intros i j Hij.
  { by rewrite lookup_nil. }
  destruct j as [|j]; [lia|]. destruct i as [|i]; simpl.
  - intros [= ->] Hy. rewrite Forall_forall in Hall. apply Hall.
    by apply list_elem_of_lookup_2 in Hy.
  - apply IH. lia.
Qed.

(** The small world's [sort_mergers] orders every set consistently
    with the dependency edges of the registry, in which a merger
    depends on the mergers registered before it. *)
Lemma sort_by_rank_consistent X :
  consistent_with (λ m2 m1, rank m1 < rank m2) (sort_by_rank X).
Proof.
  assert (Transitive rank_le) as Htrans.
  { intros m1 m2 m3. unfold rank_le. lia. }
  assert (Total rank_le) as Htotal.
  { intros m1 m2. unfold rank_le. lia. }
  pose proof (StronglySorted_merge_sort rank_le (elements X)) as Hsorted.
  fold (sort_by_rank X) in Hsorted.
  intros i j m1 m2 Hi Hj Hdep.
  destruct (decide (i < j)) as [|Hge]; [done|]. exfalso.
  destruct (decide (i = j)) as [->|Hne].
  - rewrite Hi in Hj. injection Hj as ->. lia.
  - assert (rank_le m2 m1) as Hle.
    { apply (StronglySorted_lookup rank_le (sort_by_rank X) j i); [done|lia|done..]. }
    unfold rank_le in Hle. lia.
Qed.

End DemoFacts.

(** ** The specification on concrete runs *)

(** C1, on the code.  [apply_queue] with two queued installs, [a.bnp]
    logging for [packs] and [c.bnp] for [packs] and [rstb]: the [packs]
    merger runs after the first install and again after the second, so
    the merges are done once per install and before the later installs,
    not once for the batch.  And with one priority move of a mod that
    [packs] has logged and no install, no merger runs at all. *)
Theorem apply_queue_merges_per_install :
  outline (apply_queue Demo.collab
             (mkQueue [] [mkQueued "QUEUEa.bnp" PyNone 1;
                          mkQueued "QUEUEc.bnp" PyNone 2])
             (Demo.start Demo.empty_world)).2
  = ["install a.bnp"; "merge packs";
     "install c.bnp"; "merge packs"; "merge rstb";
     "refresh_master_export"]
  ∧ outline (apply_queue Demo.collab
               (mkQueue [mkMove Demo.mod_a 5] [])
               (Demo.start Demo.world_with_a)).2
    = ["move a.bnp"; "refresh_master_export"]
  ∧ is_mod_logged Demo.collab
      (mkMerger "packs" "SARC pack merger" 0) Demo.mod_a Demo.world_with_a
    = true.
Proof. split_and!; vm_compute; reflexivity. Qed.

(** The defect behind C1, for every collaborator: without a queued
    install [apply_queue] runs no merger, whatever it moved. *)
Lemma apply_queue_without_installs_never_merges
    (C : Collab) (moves : list Move) (st : State C) :
  performed (apply_queue C (mkQueue moves []) st).2 = [].
Proof.
  destruct (apply_queue C (mkQueue moves []) st) as [[r st'] t] eqn:Hrun.
  simpl. unfold apply_queue in Hrun.
  apply bind_inv in Hrun
    as [(e & Hm & ->) | (mods & st1 & t1 & t2 & Hm & Hk & ->)];
    apply moves_inv in Hm as [Hperf _]; [done|].
  rewrite performed_app, Hperf. simpl.
  apply bind_inv in Hk
    as [(e & Hm & ->) | (mods' & st2 & t3 & t4 & Hm & Hk & ->)];
    apply with_Pool_inv in Hm as (st3 & tL & Hloop & -> & ->);
    simpl in Hloop; [done|].
  injection Hloop as <- <- <-.
  unfold do_refresh_master_export, call in Hk.
  destruct (install_refresh_master_export C _) as [r1 e1].
  by injection Hk as <- <- <-.
Qed.

(** C3, as stated, fails: an operation that returns ["installed"] is
    answered by an envelope that carries the success indicator and does
    not carry the value. *)
Lemma win_or_lose_drops_return_value :
  ∃ envelope st' t,
    win_or_lose Demo.collab (ret Demo.collab (PyStr "installed"))
      (Demo.start Demo.empty_world) = (Ok envelope, st', t)
    ∧ envelope !! "success" = Some (PyBool true)
    ∧ ¬ carries envelope (PyStr "installed").
Proof.
  exists {[ "success" := PyBool true ]}, (Demo.start Demo.empty_world), [].
  split_and!; [done..|].
  intros [k Hk]. apply lookup_singleton_Some in Hk as [_ Hk]. discriminate.
Qed.

(** C10, as stated, fails: an exception that carries an empty
    [error_text] of its own is answered by a failure envelope whose
    [error] field is empty. *)
Lemma win_or_lose_empty_error :
  ∃ envelope st' t,
    win_or_lose Demo.collab
      (raise Demo.collab (mkExc "Exception" "failed" (Some EmptyString) None) : M Demo.collab unit)
      (Demo.start Demo.empty_world) = (Ok envelope, st', t)
    ∧ envelope !! "error" = Some (PyStr EmptyString)
    ∧ envelope !! "error_text" = Some (PyBool true).
Proof.
  eexists _, _, _. split; [reflexivity|]. split; reflexivity.
Qed.

(** C6, as stated, fails: with no mod installed and no master
    directory, [remerge] removes nothing and relinks nothing. *)
Lemma remerge_without_master_does_nothing :
  util_get_installed_mods Demo.collab Demo.empty_world = []
  ∧ remerge Demo.collab "all" (Demo.start Demo.empty_world)
    = (Ok tt, Demo.start Demo.empty_world, []).
Proof. split; reflexivity. Qed.


(** ** The argument relay *)

Section RelayFacts.
Import Relay.
Context (process_arg : string → Res unit).

Lemma decode_utf8_Some data arg :
  decode_utf8 data = Some arg → arg = String.string_of_list_byte data.
Proof. unfold decode_utf8. case_match; congruence. Qed.

Lemma serve_conn_ending e later :
  serve_conn process_arg (ending_recv e :: later) = ([], Break).
Proof. by destruct e. Qed.

Lemma serve_conn_forward data script arg :
  data ≠ [] → data ≠ terminator →
  decode_utf8 data = Some arg → process_arg arg = Ok tt →
  serve_conn process_arg (RecvData data :: script)
  = (NProcessArg arg :: (serve_conn process_arg script).1,
     (serve_conn process_arg script).2).
Proof.
  intros Hne Hnt Hdec Hok. simpl.
  rewrite bool_decide_eq_false_2, bool_decide_eq_false_2 by done. simpl.
  rewrite Hdec, Hok. by destruct (serve_conn process_arg script).
Qed.

(** One connection: every chunk before the end of the input is
    forwarded, in order, and the loop is left by [break]. *)
Lemma serve_conn_script cv :
  Forall (forwardable process_arg) (cv_chunks cv) →
  serve_conn process_arg (script_of cv)
  = ((λ data, NProcessArg (String.string_of_list_byte data)) <$> cv_chunks cv,
     Break).
Proof.
  destruct cv as [chunks e later]. unfold script_of. simpl.
  induction 1 as [|data chunks (Hne & Hnt & arg & Hdec & Hok) _ IH].
  { apply serve_conn_ending. }
  rewrite !fmap_cons, <- app_comm_cons.
  rewrite (serve_conn_forward data _ arg Hne Hnt Hdec Hok), IH. simpl.
  by rewrite (decode_utf8_Some _ _ Hdec).
Qed.

Lemma accept_loop_break k script conns t :
  serve_conn process_arg script = (t, Break) →
  accept_loop process_arg k (script :: conns)
  = (NAccept k :: t ++ NCloseConn k :: (accept_loop process_arg (S k) conns).1,
     (accept_loop process_arg (S k) conns).2).
Proof.
  intros Hserve. simpl. rewrite Hserve.
  by destruct (accept_loop process_arg (S k) conns).
Qed.

Lemma accept_loop_scripts k convs :
  Forall (λ cv, Forall (forwardable process_arg) (cv_chunks cv)) convs →
  accept_loop process_arg k (script_of <$> convs)
  = (concat (imap (λ i cv, served (k + i) cv) convs), AwaitingAccept).
Proof.
  intros Hall. revert k. induction Hall as [|cv convs Hcv _ IH]; intros k;
    [done|].
  rewrite fmap_cons, (accept_loop_break _ _ _ _ (serve_conn_script cv Hcv)).
  rewrite (IH (S k)), imap_cons. cbn [fst snd concat].
  rewrite Nat.add_0_r. unfold served at 2. cbn [app]. rewrite <- app_assoc.
  cbn [app]. do 5 f_equal. apply imap_ext. intros i cv' _.
  unfold compose. f_equal. lia.
Qed.

Lemma handled_app t1 t2 : handled (t1 ++ t2) = handled t1 ++ handled t2.
Proof. unfold handled. by rewrite flat_map_app. Qed.

Lemma handled_served k cv :
  handled (served k cv) = String.string_of_list_byte <$> cv_chunks cv.
Proof.
  unfold served. simpl. rewrite handled_app. simpl. rewrite app_nil_r.
  induction (cv_chunks cv) as [|data chunks IH]; simpl; [done|]. by f_equal.
Qed.

Lemma handled_all_served k convs :
  handled (concat (imap (λ i cv, served (k + i) cv) convs))
  = String.string_of_list_byte <$> concat (cv_chunks <$> convs).
Proof.
  revert k. induction convs as [|cv convs IH]; intros k; [done|].
  rewrite imap_cons, fmap_cons. cbn [concat].
  rewrite handled_app, handled_served, fmap_app. f_equal.
  rewrite <- (IH (S k)). do 2 f_equal. apply imap_ext.
  intros i cv' _. unfold compose. f_equal. lia.
Qed.

Lemma sent_app t1 t2 : sent (t1 ++ t2) = sent t1 ++ sent t2.
Proof. unfold sent. by rewrite flat_map_app. Qed.

Lemma sent_served k cv : sent (served k cv) = [].
Proof.
  unfold served. change (NAccept k :: ?l) with ([NAccept k] ++ l).
  rewrite !sent_app. simpl. rewrite app_nil_r.
  induction (cv_chunks cv) as [|data chunks IH]; simpl; done.
Qed.

Lemma served_shift k convs :
  imap ((λ i cv, served (k + i) cv) ∘ S) convs
  = imap (λ i cv, served (S k + i) cv) convs.
Proof. apply imap_ext. intros i cv _. unfold compose. f_equal. lia. Qed.

Lemma sent_all_served k convs :
  sent (concat (imap (λ i cv, served (k + i) cv) convs)) = [].
Proof.
  revert k. induction convs as [|cv convs IH]; intros k; [done|].
  rewrite imap_cons. cbn [concat].
  by rewrite sent_app, sent_served, served_shift, IH.
Qed.

End RelayFacts.

(** C7.  When [sock.bind] fails, the listener makes the call the
    specification describes for [send_arg] (connect to the endpoint
    that was to be bound, write the argument text and then the
    terminator, close) and exits with status 0: it never listens,
    accepts or hands anything to the handler, whatever connections are
    pending; and the terminator it writes is the token that ends a
    connection at the primary. *)
Theorem secondary_sends_argument_and_exits
    (process_arg : string → Res unit) (argv : string)
    (conns : list (list Relay.Recv)) :
  let t := (Relay.oneclick_listener process_arg argv false conns).1 in
  Relay.oneclick_listener process_arg argv false conns
  = ([Relay.NBind Relay.endpoint false;
      Relay.NConnect Relay.endpoint;
      Relay.NSend (Relay.encode_utf8 argv);
      Relay.NSend Relay.terminator;
      Relay.NCloseSock;
      Relay.NExit 0],
     Relay.Exited 0)
  ∧ Relay.sent t = Relay.encode_utf8 argv ++ Relay.terminator
  ∧ Relay.handled t = []
  ∧ (Relay.NListen ∉ t)
  ∧ (∀ k, Relay.NAccept k ∉ t)
  ∧ last t = Some (Relay.NExit 0)
  ∧ Relay.serve_conn process_arg [Relay.RecvData Relay.terminator]
    = ([], Relay.Break).
Proof.
  simpl. split_and!; try done.
  - intros Hin. repeat (apply elem_of_cons in Hin as [? | Hin]; [done|]).
    by apply elem_of_nil in Hin.
  - intros k Hin. repeat (apply elem_of_cons in Hin as [? | Hin]; [done|]).
    by apply elem_of_nil in Hin.
Qed.

(** C8.  When [sock.bind] succeeds, the listener serves the connections
    one after the other: for each it forwards every chunk received
    before the end of the input to the handler, decoded, in order; the
    input of a connection ends with the lone terminator, with the peer
    closing, or with a connection reset, which is not an error; the
    connection is then closed and the next one accepted, and when the
    connections are used up the loop is waiting in [accept].  The
    chunks are UTF-8 and the handler returns on each. *)
Theorem primary_serves_connections_in_turn
    (process_arg : string → Res unit) (argv : string)
    (convs : list Relay.Conversation) :
  Forall (λ cv, Forall (Relay.forwardable process_arg) (Relay.cv_chunks cv))
         convs →
  let run := Relay.oneclick_listener process_arg argv true
               (Relay.script_of <$> convs) in
  run = (Relay.NBind Relay.endpoint true :: Relay.NListen
         :: concat (imap Relay.served convs),
         Relay.AwaitingAccept)
  ∧ Relay.handled run.1
    = String.string_of_list_byte <$> concat (Relay.cv_chunks <$> convs)
  ∧ Relay.sent run.1 = [].
Proof.
  intros Hall run. unfold run, Relay.oneclick_listener.
  rewrite (accept_loop_scripts process_arg 0 convs Hall). simpl.
  split_and!.
  - done.
  - apply (handled_all_served 0).
  - apply (sent_all_served 0).
Qed.

(** ** The theorems at work in the small world *)

(** A run is its outcome, its final state and its record. *)
Lemma outcome_eta {A B D} (x : A * B * D) (a : A) :
  x.1.1 = a → x = (a, x.1.2, x.2).
Proof. destruct x as [[a' b] d]. simpl. by intros ->. Qed.

(** [a.bnp] and [b.bnp] installed in one batch: both are registered in
    the world the operation leaves, [packs] and [texts] each run once,
    in the order of the registry, holding pool 0. *)
Lemma install_mod_merges_batch_once_witness :
  let params := mkInstallParams ["a.bnp"; "b.bnp"] PyNone None in
  let st := Demo.start Demo.empty_world in
  let run := install_mod Demo.collab params st in
  run.1.1 = Ok tt
  ∧ Demo.w_mods (st_env run.1.2)
    = [mkMod "a.bnp" "mods/a.bnp" 100; mkMod "b.bnp" "mods/b.bnp" 101]
  ∧ NAME <$> performed run.2 = ["packs"; "texts"]
  ∧ NoDup (NAME <$> performed run.2)
  ∧ (∀ p, p ∈ pools_set run.2 → p = 0)
  ∧ (∃ mods e1,
       installs_from Demo.collab
         (install_call params (st_next_pool st) <$> ip_mods params) (st_env st)
       = (Ok mods, e1)
       ∧ merges_from Demo.collab (st_next_pool st) (performed run.2) e1
         = (Ok tt, st_env run.1.2))
  ∧ (∀ m, m ∈ performed run.2 →
          st_pools run.1.2 !! oid m = Some (st_next_pool st))
  ∧ consistent_with (λ m2 m1, Demo.rank m1 < Demo.rank m2) (performed run.2).
Proof.
  intros params st run.
  destruct (install_mod_merges_batch_once Demo.collab params st run.1.2 run.2
              DemoFacts.sort_by_rank_permutation DemoFacts.mergers_of_distinct)
    as (mods & e1 & _ & _ & _ & _ & _ & _ & Hnames & _ & Hpools
        & Hfrom & Hmerges & _ & Hheld & Horder).
  - apply outcome_eta. vm_compute. reflexivity.
  - split; [vm_compute; reflexivity|]. split; [vm_compute; reflexivity|].
    split; [vm_compute; reflexivity|]. split; [exact Hnames|].
    split; [exact Hpools|].
    split; [exists mods, e1; split; [exact Hfrom | exact Hmerges]|].
    split; [exact Hheld|]. apply Horder. exact DemoFacts.sort_by_rank_consistent.
Defined.

(** An install that returns is answered by the bare success
    indicator. *)
Lemma win_or_lose_success_only_witness :
  let func := install_mod Demo.collab (mkInstallParams ["a.bnp"] PyNone None) in
  let st := Demo.start Demo.empty_world in
  (func st).1.1 = Ok tt
  ∧ (win_or_lose Demo.collab func st).1.1 = Ok {[ "success" := PyBool true ]}.
Proof.
  intros func st. split; [vm_compute; reflexivity|].
  rewrite (win_or_lose_success_only Demo.collab func st (func st).1.2 tt
             (func st).2); [reflexivity|].
  apply outcome_eta. vm_compute. reflexivity.
Defined.

(** An install of a package that does not exist is answered by a
    failure envelope with the traceback. *)
Lemma win_or_lose_failure_envelope_witness :
  let func := install_mod Demo.collab (mkInstallParams ["z.bnp"] PyNone None) in
  let st := Demo.start Demo.empty_world in
  let err := mkExc "FileNotFoundError" "z.bnp" None None in
  (func st).1.1 = Raise err
  ∧ ∃ envelope,
      (win_or_lose Demo.collab func st).1.1 = Ok envelope
      ∧ envelope !! "error_text" = Some (PyBool true)
      ∧ envelope !! "error" = Some (PyStr (Demo.traceback err)).
Proof.
  intros func st err. split; [vm_compute; reflexivity|].
  destruct (win_or_lose_failure_envelope Demo.collab func st (func st).1.2 err
              (func st).2) as (_ & Hany & _ & _).
  - apply outcome_eta. vm_compute. reflexivity.
  - exists {[ "error" := PyStr (Demo.traceback err);
              "error_text" := PyBool true ]}.
    assert ((win_or_lose Demo.collab func st).1.1
            = Ok {[ "error" := PyStr (Demo.traceback err);
                    "error_text" := PyBool true ]}) as Hrun.
    { vm_compute. reflexivity. }
    split; [exact Hrun|].
    destruct (Hany _ _ _ (outcome_eta _ _ Hrun)) as (Hflag & Herror & _).
    split; [exact Hflag | exact Herror].
Defined.

(** [a.bnp] updated from the chosen file [c.bnp]: the old mod is gone
    from the world the operation leaves and the new one is registered
    at priority 100, [packs] and [rstb] each run once. *)
Lemma update_mod_keeps_priority_and_merges_once_witness :
  let st := Demo.start Demo.world_with_a in
  let run := update_mod Demo.collab Demo.mod_a st in
  run.1.1 = Ok tt
  ∧ (file_dialog Demo.collab Demo.world_with_a).1 = ["c.bnp"]
  ∧ NoDup (performed run.2)
  ∧ outline run.2
    = ["rmtree mods/a.bnp"; "install c.bnp"; "merge packs"; "merge rstb"]
  ∧ Demo.w_mods (st_env run.1.2) = [mkMod "c.bnp" "mods/c.bnp" 100]
  ∧ ∃ new_mod e1 e2 c,
      rmtree Demo.collab "mods/a.bnp" (file_dialog Demo.collab (st_env st)).2
      = (Ok tt, e1)
      ∧ install_install_mod Demo.collab c e1 = (Ok new_mod, e2)
      ∧ mod_priority new_mod = 100%Z
      ∧ merges_from Demo.collab (st_next_pool st) (performed run.2) e2
        = (Ok tt, st_env run.1.2).
Proof.
  intros st run.
  destruct (update_mod_keeps_priority_and_merges_once Demo.collab Demo.mod_a
              st run.1.2 run.2)
    as (update_file & options & new_mod & old & new & e1 & e2
        & _ & _ & _ & Hnodup & _ & _ & _ & _ & Hrm & Hinst & _ & Hmerges
        & _ & Hprio).
  - discriminate.
  - apply outcome_eta. vm_compute. reflexivity.
  - split; [vm_compute; reflexivity|]. split; [reflexivity|].
    split; [exact Hnodup|]. split; [vm_compute; reflexivity|].
    split; [vm_compute; reflexivity|].
    eexists new_mod, e1, e2, _.
    split; [exact Hrm|]. split; [exact Hinst|]. split; [|exact Hmerges].
    apply Hprio. intros c' e md' e' p Hc' Hp.
    unfold install_install_mod, Demo.collab, Demo.install in Hc'.
    destruct (Demo.w_packages e !! ic_path c'); [|discriminate].
    injection Hc' as <- _. simpl. by rewrite Hp.
Defined.

(** With a mod installed, the target ["RSTB merger"] runs the [rstb]
    merger alone and refreshes the master export. *)
Lemma remerge_cases_witness :
  ∃ merger pool,
    NAME merger = "rstb"
    ∧ (remerge Demo.collab "RSTB merger" (Demo.start Demo.world_with_a)).2
      = [EvPerformMerge merger pool (Ok tt); EvRefreshMasterExport (Ok tt)].
Proof.
  destruct (remerge_cases Demo.collab "RSTB merger"
              (Demo.start Demo.world_with_a)) as (_ & _ & Hnamed).
  destruct (Hnamed ltac:(vm_compute; discriminate) ltac:(discriminate)
              (mkClass "rstb" "RSTB merger") eq_refl)
    as (merger & pool & Hname & _ & Hrun).
  destruct (Hrun Demo.world_with_a Demo.world_with_a) as (st' & Heq & _).
  - unfold perform_merge. simpl. unfold Demo.merge. rewrite Hname.
    reflexivity.
  - reflexivity.
  - exists merger, pool. split; [exact Hname|]. by rewrite Heq.
Defined.


(** Two connections, the first reset after two chunks, the second
    ended by the terminator: the three chunks reach the handler. *)
Lemma primary_serves_connections_in_turn_witness :
  let convs :=
    [Relay.mkConversation [[Byte.x62; Byte.x63]; [Byte.x2e; Byte.x2e]]
       Relay.ConnReset [];
     Relay.mkConversation [[Byte.xc3; Byte.xa9]]
       Relay.Sentinel [Relay.RecvData [Byte.x41]]] in
  let run := Relay.oneclick_listener (λ _, Ok tt) EmptyString true
               (Relay.script_of <$> convs) in
  run.2 = Relay.AwaitingAccept
  ∧ length (Relay.handled run.1) = 3.
Proof.
  intros convs run.
  destruct (primary_serves_connections_in_turn (λ _, Ok tt) EmptyString convs)
    as (Hrun & Hhandled & _).
  - repeat constructor; try discriminate; by eexists.
  - fold run in Hrun, Hhandled. split; [by rewrite Hrun|].
    by rewrite Hhandled.
Defined.

(** [a.bnp], which only [packs] has logged, installed alone: no test
    is positive for the [texts] merger, and it does not run. *)
Lemma unaffected_merger_never_performed_witness :
  let m := mkMerger "texts" "game text merger" 2011 in
  let t := (install_mod Demo.collab (mkInstallParams ["a.bnp"] PyNone None)
              (Demo.start Demo.empty_world)).2 in
  touched t = [Demo.mod_a]
  ∧ (∀ md, md ∈ touched t → ¬ tested_affected t m md)
  ∧ m ∉ performed t.
Proof.
  intros m t.
  set (packs := mkMerger "packs" "SARC pack merger" 2000).
  assert (Ht : t = [EvPoolOpen 0;
                    EvInstall (mkCall "a.bnp" PyNone None None 0)
                      (Ok Demo.mod_a);
                    EvModMergers Demo.mod_a {[ packs ]};
                    EvSetPool packs 0;
                    EvPerformMerge packs (Some 0) (Ok tt);
                    EvPoolClose 0]).
  { vm_compute. reflexivity. }
  assert (Hnone : ∀ md, md ∈ touched t → ¬ tested_affected t m md).
  { intros md _ [Hev | (X & HX & [Hev | Hev])]; rewrite Ht in Hev;
      repeat (apply elem_of_cons in Hev as [Hev | Hev]; [try discriminate Hev|]);
      try (by apply elem_of_nil in Hev).
    injection Hev as _ ->. apply elem_of_singleton in HX. discriminate HX. }
  split; [by rewrite Ht|]. split; [exact Hnone|].
  destruct (unaffected_merger_never_performed Demo.collab m
              DemoFacts.sort_by_rank_within) as (Hinstall & _).
  exact (Hinstall (mkInstallParams ["a.bnp"] PyNone None)
           (Demo.start Demo.empty_world) Hnone).
Defined.

(** * Further properties of the code *)

(** ** The envelope *)

Section EnvelopeRuns.
Context (C : Collab).

Lemma win_or_lose_returns {A} (func : M C A) st v st1 t :
  func st = (Ok v, st1, t) →
  win_or_lose C func st = (Ok {[ "success" := PyBool true ]}, st1, t).
Proof.
  intros Hf. unfold win_or_lose, try_except, mbind, M_bind, bind, ret.
  rewrite Hf. simpl. by rewrite !app_nil_r.
Qed.

(** An exception that leaves the envelope is one the envelope does not
    catch, or one of the log file. *)
Lemma win_or_lose_raise_inv {A} (func : M C A) st e st' t :
  win_or_lose C func st = (Raise e, st', t) →
  (func st = (Raise e, st', t) ∧ is_Exception e = false)
  ∨ ∃ err st1 t1 env,
      func st = (Raise err, st1, t1)
      ∧ is_Exception err = true
      ∧ log_write C (newline +:+ exc_str err +:+ newline) (st_env st1)
        = (Raise e, env)
      ∧ st' = set_env C st1 env
      ∧ t = t1 ++ [EvLogWrite (newline +:+ exc_str err +:+ newline) (Raise e)].
Proof.
  intros Hrun.
  destruct (func st) as [[[v|err] st1] t1] eqn:Hf.
  - by rewrite (win_or_lose_returns func st v st1 t1 Hf) in Hrun.
  - destruct (is_Exception err) eqn:Hexc.
    + rewrite (win_or_lose_failure C func st err st1 t1 Hf Hexc) in Hrun.
      destruct (log_write C _ (st_env st1)) as [[[]|e2] env] eqn:Hlog; [done|].
      injection Hrun as <- <- <-. right. by exists err, st1, t1, env.
    + rewrite (win_or_lose_passes C func st err st1 t1 Hf Hexc) in Hrun.
      injection Hrun as <- <- <-. by left.
Qed.

End EnvelopeRuns.

(** X1. An exception leaves [win_or_lose(func)] in two ways only.
    Either [func] raised an exception that is not an [Exception]
    ([KeyboardInterrupt], [SystemExit], ...): it passes through as it
    is, nothing is written to the log and no envelope is built.  Or
    [func] raised an [Exception] and writing the log line raised in
    turn: what the caller then gets is the exception of the log file,
    not the one of the operation, and the attempt to write is the last
    recorded call. *)
Theorem win_or_lose_escapes
    (C : Collab) {A} (func : M C A) (st st' : State C) (e : PyExc)
    (t : list Event) :
  win_or_lose C func st = (Raise e, st', t) →
  (func st = (Raise e, st', t) ∧ is_Exception e = false)
  ∨ ∃ err st1 t1 env,
      let line := newline +:+ exc_str err +:+ newline in
      func st = (Raise err, st1, t1)
      ∧ is_Exception err = true
      ∧ log_write C line (st_env st1) = (Raise e, env)
      ∧ st' = set_env C st1 env
      ∧ t = t1 ++ [EvLogWrite line (Raise e)].
Proof. apply win_or_lose_raise_inv. Qed.

(** With a log file that cannot be opened, a failed install surfaces as
    the [PermissionError] of the log; an interrupt from the keyboard
    surfaces as it is, with nothing logged. *)
Lemma win_or_lose_escapes_witness :
  let func := install_mod Demo.collab (mkInstallParams ["z.bnp"] PyNone None) in
  let st := Demo.start Bench.sealed_world in
  let stop := mkExc "KeyboardInterrupt" EmptyString None None in
  (win_or_lose Demo.collab func st).1.1
  = Raise (mkExc "PermissionError" "bcml.log" None None)
  ∧ (∃ err st1 t1,
       func st = (Raise err, st1, t1)
       ∧ exc_class err = "FileNotFoundError")
  ∧ win_or_lose Demo.collab (raise Demo.collab stop : M Demo.collab unit) st
    = (Raise stop, st, []).
Proof.
  intros func st stop.
  assert ((win_or_lose Demo.collab func st).1.1
          = Raise (mkExc "PermissionError" "bcml.log" None None)) as Hrun.
  { vm_compute. reflexivity. }
  split; [exact Hrun|]. split.
  - destruct (win_or_lose_escapes Demo.collab func st _ _ _
                (outcome_eta _ _ Hrun))
      as [[_ Hexc] | (err & st1 & t1 & env & Hf & _)]; [discriminate Hexc|].
    exists err, st1, t1. split; [exact Hf|].
    assert ((func st).1.1 = Raise (mkExc "FileNotFoundError" "z.bnp" None None))
      as Hfail by (vm_compute; reflexivity).
    rewrite Hf in Hfail. simpl in Hfail. by injection Hfail as ->.
  - reflexivity.
Defined.

(** ** The worker pool *)

Section Quiet.
Context (C : Collab) {X : Type} (pr : Event → list X).

Lemma quiet_ret {A} (a : A) : quiet pr (ret C a).
Proof. by intros st r st' t [= <- <- <-]. Qed.

Lemma quiet_raise {A} e : quiet pr (raise C e : M C A).
Proof. by intros st r st' t [= <- <- <-]. Qed.

Lemma quiet_bind {A B} (m : M C A) (f : A → M C B) :
  quiet pr m → (∀ a, quiet pr (f a)) → quiet pr (m ≫= f).
Proof.
  intros Hm Hf st r st' t
    [(e & Hrun & ->) | (a & st1 & t1 & t2 & Hrun & Hk & ->)]%bind_inv.
  - by eapply Hm.
  - rewrite flat_map_app, (Hm _ _ _ _ Hrun). by eapply Hf.
Qed.

Lemma quiet_try_except {A} (m : M C A) h :
  quiet pr m → (∀ e, quiet pr (h e)) → quiet pr (try_except C m h).
Proof.
  intros Hm Hh st r st' t
    [(a & Hrun & ->) | [(e & st1 & t1 & t2 & Hrun & _ & Hk & ->)
                       | (e & Hrun & _ & ->)]]%try_except_inv.
  - by eapply Hm.
  - rewrite flat_map_app, (Hm _ _ _ _ Hrun). by eapply Hh.
  - by eapply Hm.
Qed.

Lemma quiet_call {A} (f : Env C → Res A * Env C) ev :
  (∀ r, pr (ev r) = []) → quiet pr (call C f ev).
Proof.
  intros Hev st r st' t. unfold call. destruct (f (st_env st)) as [r1 e1].
  intros [= <- <- <-]. simpl. by rewrite Hev.
Qed.

Lemma quiet_ask {A} (f : Env C → A) ev :
  (∀ a, pr (ev a) = []) → quiet pr (ask C f ev).
Proof. intros Hev st r st' t [= <- <- <-]. simpl. by rewrite Hev. Qed.

Lemma quiet_read {A} (f : Env C → A) : quiet pr (read C f).
Proof. by intros st r st' t [= <- <- <-]. Qed.

Lemma quiet_new_merger c : quiet pr (new_merger C c).
Proof. by intros st r st' t [= <- <- <-]. Qed.

Lemma quiet_set_pool m p : pr (EvSetPool m p) = [] → quiet pr (set_pool C m p).
Proof. intros Hev st r st' t [= <- <- <-]. simpl. by rewrite Hev. Qed.

Lemma quiet_do_perform_merge m :
  (∀ p r, pr (EvPerformMerge m p r) = []) → quiet pr (do_perform_merge C m).
Proof.
  intros Hev st r st' t. unfold do_perform_merge.
  destruct (perform_merge C m _ (st_env st)) as [r1 e1].
  intros [= <- <- <-]. simpl. by rewrite Hev.
Qed.

Lemma quiet_for_each {A} (l : list A) body :
  (∀ x, quiet pr (body x)) → quiet pr (for_each C l body).
Proof.
  intros Hbody. induction l as [|x l IH]; simpl.
  - apply quiet_ret.
  - apply quiet_bind; [apply Hbody | by intros _].
Qed.

Lemma quiet_map_M {A B} (f : A → M C B) l :
  (∀ x, quiet pr (f x)) → quiet pr (map_M C f l).
Proof.
  intros Hf. induction l as [|x l IH]; simpl.
  - apply quiet_ret.
  - apply quiet_bind; [apply Hf|]. intros y.
    apply quiet_bind; [apply IH|]. intros ys. apply quiet_ret.
Qed.

Lemma quiet_fold_M {A B} (f : B → A → M C B) b l :
  (∀ b x, quiet pr (f b x)) → quiet pr (fold_M C f b l).
Proof.
  intros Hf. revert b. induction l as [|x l IH]; intros b; simpl.
  - apply quiet_ret.
  - apply quiet_bind; [apply Hf | apply IH].
Qed.

Lemma quiet_mergers_named name classes : quiet pr (mergers_named C name classes).
Proof.
  induction classes as [|c classes IH]; simpl; [apply quiet_ret|].
  apply quiet_bind; [apply quiet_new_merger|]. intros probe.
  destruct (String.eqb _ _); [|done].
  apply quiet_bind; [apply quiet_new_merger|]. intros inst.
  apply quiet_bind; [done|]. intros rest. apply quiet_ret.
Qed.

(** What a [with] block records beside its body: the pool opened and
    the pool closed, however the body ends. *)
Lemma with_Pool_record {A} (body : nat → M C A) (st : State C) :
  (∀ p, quiet pr (body p)) →
  flat_map pr (with_Pool C body st).2
  = pr (EvPoolOpen (st_next_pool st)) ++ pr (EvPoolClose (st_next_pool st)).
Proof.
  intros Hbody.
  destruct (with_Pool C body st) as [[r st'] t] eqn:Hrun.
  apply with_Pool_inv in Hrun as (st1 & t1 & Hb & -> & ->).
  cbn [snd flat_map]. rewrite flat_map_app, (Hbody _ _ _ _ _ Hb). simpl.
  by rewrite app_nil_r.
Qed.

Lemma quiet_with_Pool {A} (body : nat → M C A) :
  (∀ p, pr (EvPoolOpen p) = []) → (∀ p, pr (EvPoolClose p) = []) →
  (∀ p, quiet pr (body p)) → quiet pr (with_Pool C body).
Proof.
  intros Hopen Hclose Hbody st r st' t Hrun.
  pose proof (with_Pool_record body st Hbody) as Hrec.
  rewrite Hrun in Hrec. simpl in Hrec. by rewrite Hrec, Hopen, Hclose.
Qed.

End Quiet.

(** Settles that an action built from the steps above is quiet, when
    none of the events it can record is selected. *)
Ltac quiet_step :=
  first
    [ match goal with |- ∀ _, _ => intro end
    | apply quiet_ret | apply quiet_raise | apply quiet_read
    | apply quiet_new_merger | apply quiet_mergers_named
    | apply quiet_call; intros; reflexivity
    | apply quiet_ask; intros; reflexivity
    | apply quiet_set_pool; reflexivity
    | apply quiet_do_perform_merge; intros; reflexivity
    | apply quiet_with_Pool; [intros; reflexivity | intros; reflexivity | intros]
    | apply quiet_for_each; intros
    | apply quiet_map_M; intros
    | apply quiet_fold_M; intros
    | apply quiet_try_except; [|intros]
    | apply quiet_bind; [|intros]
    | match goal with
      | |- quiet _ (if ?b then _ else _) => destruct b
      | |- quiet _ (match ?x with _ => _ end) => destruct x
      end
    | progress unfold collect_mergers, run_mergers, queue_install,
        queue_remergers, add_logged, do_install, do_rmtree,
        do_change_priority, do_refresh_master_export, do_refresh_merges,
        do_link_master_mod, do_mod_mergers, do_get_mergers_for_mod,
        do_is_mod_logged ].

Ltac quiet := solve [repeat quiet_step].

Section Pools.
Context (C : Collab).

Lemma pool_events_app t1 t2 :
  pool_events (t1 ++ t2) = pool_events t1 ++ pool_events t2.
Proof. unfold pool_events. by rewrite flat_map_app. Qed.

(** The moves of [apply_queue] hand out no pool. *)
Lemma moves_next_pool moves (st : State C) r st' t :
  map_M C (λ move_mod,
             do_change_priority C (mv_mod move_mod) (mv_priority move_mod) ;;
             ret C (mv_mod move_mod)) moves st = (r, st', t) →
  st_next_pool st' = st_next_pool st.
Proof.
  revert st r st' t. induction moves as [|mv moves IH]; intros st r st' t; simpl.
  { by intros [= <- <- <-]. }
  intros [(e & Hm & ->) | (md & st1 & t1 & t2 & Hm & Hk & ->)]%bind_inv.
  - apply bind_inv in Hm
      as [(e' & Hm & _) | ([] & st2 & t3 & t4 & Hm & Hk & ->)]; [|done].
    unfold do_change_priority, call in Hm.
    destruct (change_priority C _ _ (st_env st)) as [r1 e1].
    by injection Hm as -> <- <-.
  - apply bind_inv in Hm
      as [(e' & Hm & ?) | ([] & st2 & t3 & t4 & Hm & Hr & ->)]; [done|].
    unfold do_change_priority, call in Hm.
    destruct (change_priority C _ _ (st_env st)) as [r1 e1].
    injection Hm as -> <- <-. injection Hr as <- <- <-.
    apply bind_inv in Hk
      as [(e' & Hm & ->) | (mods & st3 & t5 & t6 & Hm & Hr & ->)].
    + by apply IH in Hm.
    + injection Hr as <- <- <-. by apply IH in Hm.
Qed.

(** The outcomes of [update_mod], one by one: no file chosen; the
    options of the old mod cannot be read; its tree cannot be removed;
    the new package cannot be installed; the mergers ran. *)
Lemma update_mod_shape md (st : State C) r st' t :
  update_mod C md st = (r, st', t) →
  let pool := st_next_pool st in
  let picked := (file_dialog C (st_env st)).1 in
  let e0 := (file_dialog C (st_env st)).2 in
  match picked with
  | [] => r = Ok tt ∧ t = [EvFilePick []]
  | update_file :: _ =>
      (∃ err, options_json C md e0 = Some (Raise err)
              ∧ r = Raise err ∧ t = [EvFilePick picked])
      ∨ ∃ options,
          (options_json C md e0 = Some (Ok options)
           ∨ (options_json C md e0 = None ∧ options = PyDict []))
          ∧ let old := mergers_get_mergers_for_mod C md e0 in
        let c := mkCall update_file options None (Some (mod_priority md)) pool in
        match rmtree C (mod_path md) e0 with
        | (Raise err, _) =>
            r = Raise err
            ∧ t = [EvFilePick picked; EvGetMergersForMod md old;
                   EvRmtree (mod_path md) (Raise err)]
        | (Ok _, e1) =>
            match install_install_mod C c e1 with
            | (Raise err, _) =>
                r = Raise err
                ∧ t = [EvFilePick picked; EvGetMergersForMod md old;
                       EvRmtree (mod_path md) (Ok tt); EvPoolOpen pool;
                       EvInstall c (Raise err); EvPoolClose pool]
            | (Ok new_mod, e2) =>
                let new := mergers_get_mergers_for_mod C new_mod e2 in
                ∃ tM,
                  merge_run pool (elements (add_unnamed old new)) r tM
                  ∧ t = [EvFilePick picked; EvGetMergersForMod md old;
                         EvRmtree (mod_path md) (Ok tt); EvPoolOpen pool;
                         EvInstall c (Ok new_mod);
                         EvGetMergersForMod new_mod new]
                        ++ tM ++ [EvPoolClose pool]
            end
        end
  end.
Proof.
  unfold update_mod. intros Hrun. simpl.
  destruct (file_dialog C (st_env st)) as [picked e0] eqn:Hpick. simpl.
  apply bind_inv in Hrun
    as [(e & Hm & ->) | (picked' & st1 & t1 & t2 & Hm & Hk & ->)];
    rewrite Hpick in Hm; [done|].
  injection Hm as <- <- <-.
  destruct picked as [|update_file rest].
  { by injection Hk as <- <- <-. }
  apply bind_inv in Hk
    as [(e & Hm & ->) | (options & st2 & t3 & t4 & Hm & Hk & ->)].
  { left. exists e. simpl in Hm.
    destruct (options_json C md e0) as [[]|]; by simplify_eq. }
  right. exists options.
  assert (st2 = set_env C st e0 ∧ t3 = []
          ∧ (options_json C md e0 = Some (Ok options)
             ∨ options_json C md e0 = None ∧ options = PyDict []))
    as (-> & -> & Hopt).
  { simpl in Hm. destruct (options_json C md e0) as [[]|]; simplify_eq;
      split_and!; auto. }
  split; [exact Hopt|]. clear Hm. simpl.
  apply bind_inv in Hk
    as [(e & Hm & ->) | (old & st3 & t5 & t6 & Hm & Hk & ->)]; [done|].
  injection Hm as <- <- <-.
  apply bind_inv in Hk
    as [(e & Hm & ->) | ([] & st4 & t7 & t8 & Hm & Hk & ->)];
    unfold do_rmtree, call in Hm; simpl in Hm;
    destruct (rmtree C (mod_path md) e0) as [r1 e1] eqn:Hrm;
    injection Hm as -> <- <-.
  { done. }
  apply with_Pool_inv in Hk as (st5 & t9 & Hbody & -> & ->). simpl in Hbody.
  apply bind_inv in Hbody
    as [(e & Hm & ->) | (new_mod & st6 & t10 & t11 & Hm & Hk & ->)];
    unfold do_install, call in Hm; simpl in Hm;
    destruct (install_install_mod C _ e1) as [r2 e2] eqn:Hinst;
    injection Hm as -> <- <-.
  { done. }
  apply bind_inv in Hk
    as [(e & Hm & ->) | (new & st7 & t12 & t13 & Hm & Hk & ->)]; [done|].
  injection Hm as <- <- <-. simpl in Hk.
  apply run_mergers_inv in Hk. by exists t13.
Qed.

Lemma pool_events_merge_events pool l : pool_events (merge_events pool l) = [].
Proof. induction l as [|m l IH]; simpl; done. Qed.

Lemma merge_run_pool_events pool l r t : merge_run pool l r t → pool_events t = [].
Proof.
  intros [|l1 m l2 err _].
  - apply pool_events_merge_events.
  - by rewrite pool_events_app, pool_events_merge_events.
Qed.

End Pools.

(** X2. Pool discipline.  [install_mod] opens exactly one pool and
    closes it, whether the batch ends well or with an exception of an
    install or of a merger.  [update_mod] and [apply_queue] open at
    most one pool, and a pool they opened is closed when they end,
    whatever the outcome; [remerge] opens none. *)
Theorem pools_opened_are_closed (C : Collab) (st : State C) :
  let one := [EvPoolOpen (st_next_pool st); EvPoolClose (st_next_pool st)] in
  (∀ params, pool_events (install_mod C params st).2 = one)
  ∧ (∀ md, pool_events (update_mod C md st).2 = []
           ∨ pool_events (update_mod C md st).2 = one)
  ∧ (∀ params, pool_events (apply_queue C params st).2 = []
               ∨ pool_events (apply_queue C params st).2 = one)
  ∧ (∀ name, pool_events (remerge C name st).2 = []).
Proof.
  intros one. split_and!.
  - intros params. apply (with_Pool_record C pool_event). intros p. quiet.
  - intros md. destruct (update_mod C md st) as [[r st'] t] eqn:Hrun. simpl.
    apply update_mod_shape in Hrun. cbv zeta in Hrun.
    destruct (file_dialog C (st_env st)).1 as [|update_file rest].
    { destruct Hrun as [_ ->]. by left. }
    destruct Hrun as [(err & _ & _ & ->) | (options & _ & Hrun)]; [by left|].
    destruct (rmtree C (mod_path md) _) as [[[]|err] e1].
    + destruct (install_install_mod C _ e1) as [[new_mod|err] e2].
      * destruct Hrun as (tM & HM & ->). right.
        by rewrite !pool_events_app, (merge_run_pool_events _ _ _ _ HM).
      * destruct Hrun as [_ ->]. by right.
    + destruct Hrun as [_ ->]. by left.
  - intros params. destruct (apply_queue C params st) as [[r st'] t] eqn:Hrun.
    simpl. unfold apply_queue in Hrun.
    apply bind_inv in Hrun
      as [(e & Hm & ->) | (mods & st1 & t1 & t2 & Hm & Hk & ->)].
    { left. revert Hm. apply (quiet_map_M C pool_event). intros. quiet. }
    right. rewrite pool_events_app.
    assert (pool_events t1 = []) as ->.
    { revert Hm. apply (quiet_map_M C pool_event). intros. quiet. }
    apply moves_next_pool in Hm. unfold one. rewrite <- Hm. simpl.
    assert (∀ p, quiet pool_event
                   (fold_M C (queue_install C p) mods (qp_installs params)))
      as Hbody by (intros; quiet).
    pose proof (with_Pool_record C pool_event _ st1 Hbody) as Hpool.
    apply bind_inv in Hk
      as [(e & Hw & ->) | (mods2 & st2 & t3 & t4 & Hw & Hr & ->)];
      rewrite Hw in Hpool; simpl in Hpool; [done|].
    rewrite pool_events_app. unfold pool_events at 1. rewrite Hpool.
    assert (pool_events t4 = []) as ->; [|done].
    revert Hr. apply (quiet_call C pool_event). done.
  - intros name. destruct (remerge C name st) as [[r st'] t] eqn:Hrun.
    simpl. revert Hrun. unfold remerge. apply (quiet_try_except C pool_event); quiet.
Qed.


(** ** Failures in the middle of an operation *)

Section Partial.
Context (C : Collab).

Lemma removed_app t1 t2 : removed (t1 ++ t2) = removed t1 ++ removed t2.
Proof. unfold removed. by rewrite flat_map_app. Qed.

Lemma removed_install_events calls mods : removed (install_events calls mods) = [].
Proof.
  revert mods. induction calls as [|c calls IH]; intros [|md mods]; simpl; auto.
Qed.

End Partial.

(** X3. A batch of [install_mod] in which an install raises stops
    there: the packages before the failing one have been installed and
    stay installed (nothing is removed), the packages after it are not
    attempted, no merger runs for the ones installed, the pool is
    closed and the exception of the install leaves the operation as it
    is. *)
Theorem install_mod_failed_install_stops_batch
    (C : Collab) (params : InstallParams) (st st' : State C) (r : Res unit)
    (t : list Event) (err : PyExc) :
  install_mod C params st = (r, st', t) →
  err ∈ install_failures t →
  let pool := st_next_pool st in
  ∃ before c after mods,
    ip_mods params = before ++ c :: after
    ∧ length mods = length before
    ∧ t = [EvPoolOpen pool]
          ++ install_events (install_call params pool <$> before) mods
          ++ [EvInstall (install_call params pool c) (Raise err);
              EvPoolClose pool]
    ∧ touched t = mods
    ∧ performed t = []
    ∧ removed t = []
    ∧ r = Raise err.
Proof.
  intros Hrun Hin pool.
  apply install_mod_inv in Hrun as (rI & tI & tM & -> & HI & Hrest). fold pool.
  fold pool in HI.
  change (EvPoolOpen ?p :: ?l) with ([EvPoolOpen p] ++ l) in Hin.
  rewrite !install_failures_app in Hin. simpl in Hin. rewrite app_nil_r in Hin.
  destruct rI as [mods|err'].
  { destruct Hrest as (e1 & rM & tM' & -> & HM & _). exfalso.
    rewrite (install_run_install_failures _ _ _ HI), install_failures_app,
      (install_failures_tests _ (declared_events_tests C mods e1)),
      (merge_run_install_failures _ _ _ _ HM) in Hin.
    by apply elem_of_nil in Hin. }
  destruct Hrest as [-> ->].
  rewrite (install_run_install_failures _ _ _ HI) in Hin. simpl in Hin.
  apply list_elem_of_singleton in Hin as ->.
  inversion HI as [|calls1 c' calls2 mods1 err Hcalls Hlen]; subst.
  apply fmap_app_inv in Hcalls as (before & rest & -> & Hrest & Hmods).
  symmetry in Hrest.
  apply fmap_cons_inv in Hrest as (c & after & -> & -> & ->).
  rewrite length_fmap in Hlen.
  exists before, c, after, mods1. split_and!; try done.
  - rewrite app_nil_r. cbn [app]. f_equal. by rewrite <- app_assoc.
  - change (EvPoolOpen ?p :: ?l) with ([EvPoolOpen p] ++ l).
    rewrite !touched_app, touched_install_events by by rewrite length_fmap.
    simpl. by rewrite !app_nil_r.
  - change (EvPoolOpen ?p :: ?l) with ([EvPoolOpen p] ++ l).
    rewrite !performed_app, performed_install_events. done.
  - change (EvPoolOpen ?p :: ?l) with ([EvPoolOpen p] ++ l).
    rewrite !removed_app, removed_install_events. done.
Qed.

(** [a.bnp] installs, [z.bnp] is no package: [c.bnp] is not attempted. *)
Lemma install_mod_failed_install_stops_batch_witness :
  let params := mkInstallParams ["a.bnp"; "z.bnp"; "c.bnp"] PyNone None in
  let run := install_mod Demo.collab params (Demo.start Demo.empty_world) in
  let err := mkExc "FileNotFoundError" "z.bnp" None None in
  err ∈ install_failures run.2
  ∧ outline run.2 = ["install a.bnp"; "install z.bnp"]
  ∧ performed run.2 = []
  ∧ run.1.1 = Raise err.
Proof.
  intros params run err.
  assert (err ∈ install_failures run.2) as Hin.
  { assert (install_failures run.2 = [err]) as -> by (vm_compute; reflexivity).
    apply list_elem_of_here. }
  split; [exact Hin|]. split; [vm_compute; reflexivity|].
  destruct (install_mod_failed_install_stops_batch Demo.collab params
              (Demo.start Demo.empty_world) run.1.2 run.1.1 run.2 err)
    as (before & c & after & mods & _ & _ & _ & _ & Hperf & _ & Hr).
  - apply outcome_eta. reflexivity.
  - exact Hin.
  - split; [exact Hperf | exact Hr].
Defined.

(** X4. [update_mod] removes the files of the old mod before it
    installs the new package: when that install raises, the tree of the
    old mod has already been removed, no mod has been installed in its
    place, no merger has run, and the exception of the install leaves
    the operation as it is. *)
Theorem update_mod_failed_install_loses_mod
    (C : Collab) (md : BcmlMod) (st st' : State C) (r : Res unit)
    (t : list Event) (err : PyExc) :
  update_mod C md st = (r, st', t) →
  err ∈ install_failures t →
  r = Raise err
  ∧ removed t = [mod_path md]
  ∧ touched t = []
  ∧ performed t = []
  ∧ ∃ c, last t = Some (EvPoolClose (ic_pool c))
         ∧ EvInstall c (Raise err) ∈ t
         ∧ ic_insert_priority c = Some (mod_priority md).
Proof.
  intros Hrun Hin. apply update_mod_shape in Hrun. cbv zeta in Hrun.
  destruct (file_dialog C (st_env st)).1 as [|update_file rest].
  { destruct Hrun as [_ ->]. by apply elem_of_nil in Hin. }
  destruct Hrun as [(err' & _ & _ & ->) | (options & _ & Hrun)].
  { by apply elem_of_nil in Hin. }
  destruct (rmtree C (mod_path md) _) as [[[]|err'] e1].
  - destruct (install_install_mod C _ e1) as [[new_mod|err'] e2].
    + destruct Hrun as (tM & HM & ->). exfalso.
      rewrite !install_failures_app,
        (merge_run_install_failures _ _ _ _ HM) in Hin.
      by apply elem_of_nil in Hin.
    + destruct Hrun as [-> ->]. simpl in Hin.
      apply list_elem_of_singleton in Hin as ->. split_and!; try done.
      eexists (mkCall _ _ _ _ _). split_and!; [done| |done].
      do 4 apply list_elem_of_further. apply list_elem_of_here.
  - destruct Hrun as [_ ->]. by apply elem_of_nil in Hin.
Qed.

(** [a.bnp] updated from the chosen file [z.bnp], which is no package:
    [mods/a.bnp] is gone and nothing replaces it. *)
Lemma update_mod_failed_install_loses_mod_witness :
  let run := update_mod Demo.collab Demo.mod_a (Demo.start Bench.world_bad_pick) in
  let err := mkExc "FileNotFoundError" "z.bnp" None None in
  err ∈ install_failures run.2
  ∧ run.1.1 = Raise err
  ∧ removed run.2 = ["mods/a.bnp"]
  ∧ Demo.w_mods (st_env run.1.2) = [].
Proof.
  intros run err.
  assert (err ∈ install_failures run.2) as Hin.
  { assert (install_failures run.2 = [err]) as -> by (vm_compute; reflexivity).
    apply list_elem_of_here. }
  split; [exact Hin|].
  destruct (update_mod_failed_install_loses_mod Demo.collab Demo.mod_a
              (Demo.start Bench.world_bad_pick) run.1.2 run.1.1 run.2 err)
    as (Hr & Hrm & _).
  - apply outcome_eta. reflexivity.
  - exact Hin.
  - split; [exact Hr|]. split; [exact Hrm|]. vm_compute. reflexivity.
Defined.

(** X7. [remerge] for a name that is neither ["all"] nor the friendly
    name of a registered merger, with mods installed: the empty list is
    indexed, and the [IndexError] leaves the operation wrapped as a
    [MergeError]; no merger has run and the master export has not been
    refreshed. *)
Theorem remerge_unknown_name_raises
    (C : Collab) (name : string) (st : State C) :
  util_get_installed_mods C (st_env st) ≠ [] →
  name ≠ "all" →
  classes_named C name = [] →
  ∃ st',
    remerge C name st = (Raise (MergeError C IndexError), st', [])
    ∧ st_env st' = st_env st.
Proof.
  intros Hsome Hname Hnone.
  destruct (mergers_named_run C name (mergers_get_mergers C) st)
    as (found & st1 & Hrun & Henv & Hpools & Hfound).
  unfold classes_named in Hnone. rewrite Hnone in Hfound.
  apply fmap_nil_inv in Hfound as ->.
  unfold remerge, try_except, mbind, M_bind, bind, read, ret, raise. simpl.
  destruct (util_get_installed_mods C (st_env st)) as [|md mods]; [done|].
  apply String.eqb_neq in Hname. rewrite Hname, Hrun. simpl.
  by exists st1.
Qed.

Lemma remerge_unknown_name_raises_witness :
  ∃ st',
    remerge Demo.collab "RSTB" (Demo.start Demo.world_with_a)
    = (Raise (MergeError Demo.collab IndexError), st', []).
Proof.
  destruct (remerge_unknown_name_raises Demo.collab "RSTB"
              (Demo.start Demo.world_with_a)) as (st' & Hrun & _).
  - discriminate.
  - discriminate.
  - vm_compute. reflexivity.
  - by exists st'.
Defined.


(** ** Where the exceptions of a queue come from *)

Section FailFast.
Context (C : Collab).

Lemma failures_app t1 t2 : failures (t1 ++ t2) = failures t1 ++ failures t2.
Proof. unfold failures. by rewrite flat_map_app. Qed.

Lemma failures_closing t : closing_only t → failures t = [].
Proof. induction 1 as [|ev t [p ->] _ IH]; [done|]. exact IH. Qed.

Lemma stopped_at_failures t err : stopped_at t err → failures t = [err].
Proof.
  intros (t0 & ev & closing & -> & H0 & Hev & Hclosing).
  change (ev :: closing) with ([ev] ++ closing).
  rewrite !failures_app, H0, (failures_closing _ Hclosing).
  unfold failures. simpl. by rewrite Hev.
Qed.

(** The calls that raised in the run of an action that stops at the
    first. *)
Lemma fail_fast_failures {A} (m : M C A) st r st' t :
  fail_fast m → m st = (r, st', t) →
  failures t = match r with Ok _ => [] | Raise err => [err] end.
Proof.
  intros Hm Hrun. apply Hm in Hrun. destruct r as [a|err]; [done|].
  by apply stopped_at_failures.
Qed.

Lemma stopped_at_after t1 t err :
  failures t1 = [] → stopped_at t err → stopped_at (t1 ++ t) err.
Proof.
  intros H1 (t0 & ev & closing & -> & H0 & Hev & Hclosing).
  exists (t1 ++ t0), ev, closing. split_and!; [|by rewrite failures_app, H1|done..].
  by rewrite <- app_assoc.
Qed.

Lemma fail_fast_ret {A} (a : A) : fail_fast (ret C a).
Proof. by intros st r st' t [= <- <- <-]. Qed.

Lemma fail_fast_bind {A B} (m : M C A) (f : A → M C B) :
  fail_fast m → (∀ a, fail_fast (f a)) → fail_fast (m ≫= f).
Proof.
  intros Hm Hf st r st' t
    [(e & Hrun & ->) | (a & st1 & t1 & t2 & Hrun & Hk & ->)]%bind_inv.
  - by apply Hm in Hrun.
  - apply Hm in Hrun. apply Hf in Hk. destruct r as [b|err].
    + by rewrite failures_app, Hrun, Hk.
    + by apply stopped_at_after.
Qed.

Lemma fail_fast_call {A} (f : Env C → Res A * Env C) ev :
  (∀ r, failure_of (ev r) = match r with Ok _ => [] | Raise err => [err] end) →
  fail_fast (call C f ev).
Proof.
  intros Hev st r st' t. unfold call. destruct (f (st_env st)) as [r1 e1].
  intros [= <- <- <-]. pose proof (Hev r1) as Hr. destruct r1 as [a|err].
  - unfold failures. simpl. by rewrite Hr.
  - exists [], (ev (Raise err)), []. split_and!; [done..|]. apply Forall_nil_2.
Qed.

Lemma fail_fast_ask {A} (f : Env C → A) ev :
  (∀ a, failure_of (ev a) = []) → fail_fast (ask C f ev).
Proof.
  intros Hev st r st' t [= <- <- <-]. unfold failures. simpl. by rewrite Hev.
Qed.

Lemma fail_fast_new_merger c : fail_fast (new_merger C c).
Proof. by intros st r st' t [= <- <- <-]. Qed.

Lemma fail_fast_set_pool m p : fail_fast (set_pool C m p).
Proof. by intros st r st' t [= <- <- <-]. Qed.

Lemma fail_fast_do_perform_merge m : fail_fast (do_perform_merge C m).
Proof.
  intros st r st' t. unfold do_perform_merge.
  destruct (perform_merge C m _ (st_env st)) as [[[]|err] e1];
    intros [= <- <- <-]; [done|].
  eexists [], _, []. split_and!; [done..|]. apply Forall_nil_2.
Qed.

Lemma fail_fast_for_each {A} (l : list A) body :
  (∀ x, fail_fast (body x)) → fail_fast (for_each C l body).
Proof.
  intros Hbody. induction l as [|x l IH]; simpl.
  - apply fail_fast_ret.
  - apply fail_fast_bind; [apply Hbody | by intros _].
Qed.

Lemma fail_fast_map_M {A B} (f : A → M C B) l :
  (∀ x, fail_fast (f x)) → fail_fast (map_M C f l).
Proof.
  intros Hf. induction l as [|x l IH]; simpl.
  - apply fail_fast_ret.
  - apply fail_fast_bind; [apply Hf|]. intros y.
    apply fail_fast_bind; [apply IH|]. intros ys. apply fail_fast_ret.
Qed.

Lemma fail_fast_fold_M {A B} (f : B → A → M C B) b l :
  (∀ b x, fail_fast (f b x)) → fail_fast (fold_M C f b l).
Proof.
  intros Hf. revert b. induction l as [|x l IH]; intros b; simpl.
  - apply fail_fast_ret.
  - apply fail_fast_bind; [apply Hf | apply IH].
Qed.

Lemma fail_fast_with_Pool {A} (body : nat → M C A) :
  (∀ p, fail_fast (body p)) → fail_fast (with_Pool C body).
Proof.
  intros Hbody st r st' t (st1 & t1 & Hb & -> & ->)%with_Pool_inv.
  apply Hbody in Hb. destruct r as [a|err].
  - change (EvPoolOpen ?p :: ?l) with ([EvPoolOpen p] ++ l).
    rewrite !failures_app, Hb. done.
  - destruct Hb as (t0 & ev & closing & -> & H0 & Hev & Hclosing).
    exists (EvPoolOpen (st_next_pool st) :: t0), ev,
           (closing ++ [EvPoolClose (st_next_pool st)]).
    split_and!; [|done..|].
    + cbn [app]. f_equal. by rewrite <- app_assoc.
    + apply Forall_app. split; [done|]. apply Forall_singleton. by eexists.
Qed.

End FailFast.

Ltac fail_fast_step :=
  first
    [ match goal with |- ∀ _, _ => intro end
    | apply fail_fast_ret | apply fail_fast_new_merger
    | apply fail_fast_set_pool | apply fail_fast_do_perform_merge
    | apply fail_fast_call; intros []; reflexivity
    | apply fail_fast_ask; intros; reflexivity
    | apply fail_fast_with_Pool
    | apply fail_fast_for_each
    | apply fail_fast_map_M
    | apply fail_fast_fold_M
    | apply fail_fast_bind
    | progress unfold run_mergers, queue_install, queue_remergers, add_logged,
        do_install, do_change_priority, do_refresh_master_export,
        do_is_mod_logged ].

Ltac fail_fast := solve [repeat fail_fast_step].

Section Queue.
Context (C : Collab).

Lemma elem_of_flat_map {X} (pr : Event → list X) ev x (t : list Event) :
  ev ∈ t → x ∈ pr ev → x ∈ flat_map pr t.
Proof.
  rewrite !list_elem_of_In, in_flat_map. intros Hev Hx. by exists ev.
Qed.

Lemma fail_fast_apply_queue params : fail_fast (apply_queue C params).
Proof. unfold apply_queue. fail_fast. Qed.

(** The part of [apply_queue] that follows the moves. *)
Lemma quiet_after_moves {X} (pr : Event → list X) mods installs :
  (∀ p, pr (EvPoolOpen p) = []) → (∀ p, pr (EvPoolClose p) = []) →
  (∀ c r, pr (EvInstall c r) = []) →
  (∀ m md b, pr (EvIsModLogged m md b) = []) →
  (∀ m p, pr (EvSetPool m p) = []) →
  (∀ m p r, pr (EvPerformMerge m p r) = []) →
  quiet pr (with_Pool C (λ pool, fold_M C (queue_install C pool) mods installs)).
Proof.
  intros Hopen Hclose Hinst Hlog Hset Hmerge.
  apply quiet_with_Pool; [done..|]. intros p.
  apply quiet_fold_M. intros mods' i. unfold queue_install.
  apply quiet_bind; [by apply quiet_call|]. intros new_mod.
  apply quiet_bind; [apply quiet_map_M, quiet_new_merger|]. intros all.
  apply quiet_bind.
  - apply quiet_fold_M. intros R md. apply quiet_fold_M. intros R' m.
    apply quiet_bind; [by apply quiet_ask|]. intros. apply quiet_ret.
  - intros R. apply quiet_bind; [|intros; apply quiet_ret].
    apply quiet_for_each. intros m. apply quiet_bind.
    + by apply quiet_set_pool.
    + intros _. by apply quiet_do_perform_merge.
Qed.

End Queue.

(** X5. In [apply_queue] the priorities are changed before the pool is
    opened: when a [change_priority] raises, its exception leaves the
    operation as it is, and no pool has been opened, no package
    installed, no merger run and the master export not refreshed. *)
Theorem apply_queue_failed_move_stops_queue
    (C : Collab) (params : QueueParams) (st st' : State C) (r : Res unit)
    (t : list Event) (md : BcmlMod) (p : Z) (err : PyExc) :
  apply_queue C params st = (r, st', t) →
  EvChangePriority md p (Raise err) ∈ t →
  r = Raise err
  ∧ pool_events t = []
  ∧ installs_of t = []
  ∧ performed t = []
  ∧ refreshes t = [].
Proof.
  intros Hrun Hin.
  pose proof (fail_fast_failures C _ _ _ _ _ (fail_fast_apply_queue C params) Hrun)
    as Hfail.
  unfold apply_queue in Hrun.
  apply bind_inv in Hrun
    as [(e & Hm & ->) | (mods & st1 & t1 & t2 & Hm & Hk & ->)].
  - assert (err ∈ failures t) as Herr.
    { apply (elem_of_flat_map failure_of _ _ _ Hin), list_elem_of_here. }
    rewrite Hfail in Herr. apply list_elem_of_singleton in Herr as ->.
    split_and!; [done|..]; revert Hm.
    + apply (quiet_map_M C pool_event). quiet.
    + apply (quiet_map_M C install_of). quiet.
    + apply (quiet_map_M C). quiet.
    + apply (quiet_map_M C refresh_of). quiet.
  - exfalso. apply elem_of_app in Hin as [Hin | Hin].
    + assert (err ∈ failures t1) as Herr.
      { apply (elem_of_flat_map failure_of _ _ _ Hin), list_elem_of_here. }
      assert (fail_fast (map_M C (λ move_mod,
                do_change_priority C (mv_mod move_mod) (mv_priority move_mod) ;;
                ret C (mv_mod move_mod)) (qp_moves params))) as Hff by fail_fast.
      rewrite (Hff _ _ _ _ Hm) in Herr. by apply elem_of_nil in Herr.
    + assert ((md, p) ∈ moves_of t2) as Hmv.
      { apply (elem_of_flat_map move_of _ _ _ Hin), list_elem_of_here. }
      assert (moves_of t2 = []) as Hnone; [|rewrite Hnone in Hmv;
                                            by apply elem_of_nil in Hmv].
      revert Hk. apply (quiet_bind C move_of).
      * by apply quiet_after_moves.
      * intros _. by apply quiet_call.
Qed.

(** [a.bnp] cannot be moved: [b.bnp], queued behind the move, is not
    installed. *)
Lemma apply_queue_failed_move_stops_queue_witness :
  let params := mkQueue [mkMove Demo.mod_a 5] [mkQueued "QUEUEb.bnp" PyNone 7] in
  let run := apply_queue Bench.frozen params (Bench.frozen_start Demo.world_with_a) in
  let err := mkExc "PermissionError" "mods/a.bnp" None None in
  run.2 = [EvChangePriority Demo.mod_a 5 (Raise err)]
  ∧ run.1.1 = Raise err
  ∧ installs_of run.2 = [].
Proof.
  intros params run err.
  assert (run.2 = [EvChangePriority Demo.mod_a 5 (Raise err)]) as Ht.
  { vm_compute. reflexivity. }
  split; [exact Ht|].
  destruct (apply_queue_failed_move_stops_queue Bench.frozen params
              (Bench.frozen_start Demo.world_with_a) run.1.2 run.1.1 run.2
              Demo.mod_a 5 err) as (Hr & _ & Hinst & _).
  - apply outcome_eta. reflexivity.
  - rewrite Ht. apply list_elem_of_here.
  - split; [exact Hr | exact Hinst].
Defined.

(** X6. [apply_queue] catches nothing and stops at the first call that
    raises: it ends with an exception exactly when one call of the
    batch raised, and then with the exception of that call; no call
    before it raised, and after it no further call is made, the pool,
    when it is open, is closed and nothing else.  The master export is
    refreshed only as the last step, after every move, install and
    merge has succeeded; a queue that fails earlier leaves it as it
    was. *)
Theorem apply_queue_stops_at_first_failure
    (C : Collab) (params : QueueParams) (st st' : State C) (r : Res unit)
    (t : list Event) :
  apply_queue C params st = (r, st', t) →
  failures t = match r with Ok _ => [] | Raise err => [err] end
  ∧ (∀ err, r = Raise err →
       ∃ t0 ev closing,
         t = t0 ++ ev :: closing
         ∧ failures t0 = []
         ∧ refreshes t0 = []
         ∧ failure_of ev = [err]
         ∧ (closing = [] ∨ closing = [EvPoolClose (st_next_pool st)]))
  ∧ (∀ r0, r0 ∈ refreshes t →
       r0 = r
       ∧ ∃ t0, t = t0 ++ [EvRefreshMasterExport r0]
               ∧ failures t0 = [] ∧ refreshes t0 = [])
  ∧ (r = Ok tt → refreshes t = [Ok tt]).
Proof.
  intros Hrun.
  split;
    [exact (fail_fast_failures C _ _ _ _ _ (fail_fast_apply_queue C params) Hrun)|].
  assert (fail_fast (map_M C (λ move_mod,
            do_change_priority C (mv_mod move_mod) (mv_priority move_mod) ;;
            ret C (mv_mod move_mod)) (qp_moves params))) as Hffm by fail_fast.
  unfold apply_queue in Hrun.
  apply bind_inv in Hrun
    as [(e & Hm & ->) | (mods & st1 & t1 & t2 & Hm & Hk & ->)].
  { assert (refreshes t = []) as Hq.
    { revert Hm. apply (quiet_map_M C refresh_of). quiet. }
    assert (pool_events t = []) as Hp.
    { revert Hm. apply (quiet_map_M C pool_event). quiet. }
    rewrite Hq. split_and!; [|by intros r0 ?%elem_of_nil|done].
    intros err [= <-]. apply Hffm in Hm.
    destruct Hm as (t0 & ev & closing & -> & H0 & Hev & Hclosing).
    unfold refreshes in Hq. unfold pool_events in Hp.
    rewrite flat_map_app in Hq, Hp. apply app_eq_nil in Hq as [Hq _].
    apply app_eq_nil in Hp as [_ Hp].
    destruct closing as [|ev' closing].
    - exists t0, ev, []. split_and!; try done. by left.
    - exfalso. apply Forall_cons in Hclosing as [[p ->] _].
      cbn in Hp. destruct (pool_event ev); discriminate. }
  assert (refreshes t1 = []) as Hq1.
  { revert Hm. apply (quiet_map_M C refresh_of). quiet. }
  assert (failures t1 = []) as Hf1 by apply (Hffm _ _ _ _ Hm).
  assert (fail_fast (with_Pool C (λ pool,
            fold_M C (queue_install C pool) mods (qp_installs params))))
    as Hffw by fail_fast.
  apply bind_inv in Hk
    as [(e & Hw & ->) | (mods2 & st2 & t3 & t4 & Hw & Hr & ->)].
  { assert (refreshes t2 = []) as Hq2.
    { revert Hw. by apply (quiet_after_moves C refresh_of). }
    assert (refreshes (t1 ++ t2) = []) as ->.
    { unfold refreshes in *. by rewrite flat_map_app, Hq1, Hq2. }
    split_and!; [|by intros r0 ?%elem_of_nil|done].
    intros err [= <-].
    apply with_Pool_inv in Hw as (st3 & t3 & Hbody & _ & ->).
    assert (fail_fast (fold_M C (queue_install C (st_next_pool st1)) mods
                         (qp_installs params))) as Hffb by fail_fast.
    assert (quiet pool_event
              (fold_M C (queue_install C (st_next_pool st1)) mods
                 (qp_installs params))) as Hquiet by quiet.
    pose proof (Hquiet _ _ _ _ Hbody) as Hp.
    apply Hffb in Hbody.
    destruct Hbody as (t0 & ev & closing & -> & H0 & Hev & Hclosing).
    assert (closing = []) as ->.
    { rewrite flat_map_app in Hp. apply app_eq_nil in Hp as [_ Hp].
      destruct closing as [|ev' closing]; [done|]. exfalso.
      apply Forall_cons in Hclosing as [[p ->] _].
      cbn in Hp. destruct (pool_event ev); discriminate. }
    exists (t1 ++ EvPoolOpen (st_next_pool st1) :: t0), ev,
           [EvPoolClose (st_next_pool st1)].
    split_and!; [| | |done|right; by rewrite (moves_next_pool C _ _ _ _ _ Hm)].
    - by rewrite <- !app_assoc.
    - change (EvPoolOpen ?p :: ?l) with ([EvPoolOpen p] ++ l).
      by rewrite !failures_app, Hf1, H0.
    - unfold refreshes in *. rewrite flat_map_app, Hq1.
      cbn [flat_map refresh_of app] in Hq2 |- *.
      rewrite !flat_map_app in Hq2.
      apply app_eq_nil in Hq2 as [Hq2 _]. by apply app_eq_nil in Hq2 as [Hq2 _]. }
  assert (refreshes t3 = []) as Hq3.
  { revert Hw. by apply (quiet_after_moves C refresh_of). }
  assert (failures t3 = []) as Hf3 by apply (Hffw _ _ _ _ Hw).
  unfold do_refresh_master_export, call in Hr.
  destruct (install_refresh_master_export C (st_env st2)) as [r1 e1].
  injection Hr as -> <- <-.
  assert (refreshes (t1 ++ t3 ++ [EvRefreshMasterExport r]) = [r]) as ->.
  { unfold refreshes in *. by rewrite !flat_map_app, Hq1, Hq3. }
  assert (failures (t1 ++ t3) = []) as Hf13.
  { by rewrite failures_app, Hf1, Hf3. }
  assert (refreshes (t1 ++ t3) = []) as Hq13.
  { unfold refreshes in *. by rewrite flat_map_app, Hq1, Hq3. }
  split_and!.
  - intros err ->. exists (t1 ++ t3), (EvRefreshMasterExport (Raise err)), [].
    split_and!; [|done..|by left]. by rewrite <- app_assoc.
  - intros r0 ->%list_elem_of_singleton. split; [done|].
    exists (t1 ++ t3). split_and!; [|done..]. by rewrite <- app_assoc.
  - by intros ->.
Qed.

(** Where the [packs] merger fails, a queue that moves [a.bnp] and
    installs [c.bnp] and then [b.bnp] stops at the merge that follows
    the first install: [b.bnp] is not installed and the master export
    is not refreshed. *)
Lemma apply_queue_stops_at_first_failure_witness :
  let params := mkQueue [mkMove Demo.mod_a 5]
                  [mkQueued "QUEUEc.bnp" PyNone 7;
                   mkQueued "QUEUEb.bnp" PyNone 8] in
  let run := apply_queue Demo.collab params (Demo.start Demo.broken_world) in
  let err := mkExc "RuntimeError" "cannot merge packs" None None in
  run.1.1 = Raise err
  ∧ failures run.2 = [err]
  ∧ outline run.2 = ["move a.bnp"; "install c.bnp"; "merge packs"]
  ∧ ∃ t0 ev,
      run.2 = t0 ++ [ev; EvPoolClose 0]
      ∧ failures t0 = [] ∧ failure_of ev = [err].
Proof.
  intros params run err.
  assert (run.1.1 = Raise err) as Hr by (vm_compute; reflexivity).
  split; [exact Hr|].
  destruct (apply_queue_stops_at_first_failure Demo.collab params
              (Demo.start Demo.broken_world) run.1.2 run.1.1 run.2)
    as (Hfail & Hstop & _).
  - apply outcome_eta. reflexivity.
  - rewrite Hr in Hfail. split; [exact Hfail|].
    split; [vm_compute; reflexivity|].
    destruct (Hstop err Hr) as (t0 & ev & closing & Ht & H0 & _ & Hev & Hclosing).
    exists t0, ev. split; [|split; [exact H0 | exact Hev]].
    destruct Hclosing as [-> | ->]; [|exact Ht].
    assert (last run.2 = Some (EvPoolClose 0)) as Hlast by (vm_compute; reflexivity).
    rewrite Ht, last_snoc in Hlast. injection Hlast as ->.
    discriminate Hev.
Defined.


(** ** The order of a queue *)

Section QueueOrder.
Context (C : Collab).

Lemma moves_of_app t1 t2 : moves_of (t1 ++ t2) = moves_of t1 ++ moves_of t2.
Proof. unfold moves_of. by rewrite flat_map_app. Qed.

Lemma installs_of_app t1 t2 :
  installs_of (t1 ++ t2) = installs_of t1 ++ installs_of t2.
Proof. unfold installs_of. by rewrite flat_map_app. Qed.

(** The moves are attempted in the order of the list, up to the first
    that raises. *)
Lemma moves_record moves (st : State C) r st' t :
  map_M C (λ move_mod,
             do_change_priority C (mv_mod move_mod) (mv_priority move_mod) ;;
             ret C (mv_mod move_mod)) moves st = (r, st', t) →
  ∃ k, moves_of t = (λ mv, (mv_mod mv, mv_priority mv)) <$> take k moves
       ∧ (∀ mods, r = Ok mods → k = length moves).
Proof.
  revert st r st' t. induction moves as [|mv moves IH]; intros st r st' t; simpl.
  { intros [= <- <- <-]. by exists 0. }
  intros [(e & Hm & ->) | (md & st1 & t1 & t2 & Hm & Hk & ->)]%bind_inv.
  - apply bind_inv in Hm
      as [(e' & Hm & _) | ([] & st2 & t3 & t4 & Hm & Hk & ->)]; [|done].
    unfold do_change_priority, call in Hm.
    destruct (change_priority C _ _ (st_env st)) as [r1 e1].
    injection Hm as -> <- <-. by exists 1.
  - apply bind_inv in Hm
      as [(e' & Hm & ?) | ([] & st2 & t3 & t4 & Hm & Hr & ->)]; [done|].
    unfold do_change_priority, call in Hm.
    destruct (change_priority C _ _ (st_env st)) as [r1 e1].
    injection Hm as -> <- <-. injection Hr as <- <- <-.
    apply bind_inv in Hk
      as [(e' & Hm & ->) | (mods & st3 & t5 & t6 & Hm & Hr & ->)];
      apply IH in Hm as (k & Hk & Hlen).
    + exists (S k). split; [|done]. simpl. by rewrite Hk.
    + injection Hr as <- <- <-. exists (S k). split.
      * rewrite app_nil_r. simpl. by rewrite moves_of_app, Hk, app_nil_r.
      * intros mods' _. f_equal. by eapply Hlen.
Qed.

(** One turn of the loop over the queued installs calls
    [install.install_mod] once, with the arguments of the turn. *)
Lemma queue_install_installs pool mods i (st : State C) r st' t :
  queue_install C pool mods i st = (r, st', t) →
  installs_of t = [queue_call pool i].
Proof.
  unfold queue_install.
  intros [(e & Hm & ->) | (new_mod & st1 & t1 & t2 & Hm & Hk & ->)]%bind_inv;
    unfold do_install, call in Hm;
    destruct (install_install_mod C _ (st_env st)) as [r1 e1];
    injection Hm as -> <- <-; [done|].
  rewrite installs_of_app. simpl. f_equal. revert Hk.
  apply (quiet_bind C install_of); quiet.
Qed.

Lemma queue_loop_installs pool installs mods (st : State C) r st' t :
  fold_M C (queue_install C pool) mods installs st = (r, st', t) →
  ∃ n, installs_of t = queue_call pool <$> take n installs
       ∧ (∀ mods', r = Ok mods' → n = length installs).
Proof.
  revert mods st r st' t.
  induction installs as [|i installs IH]; intros mods st r st' t; simpl.
  { intros [= <- <- <-]. by exists 0. }
  intros [(e & Hm & ->) | (mods1 & st1 & t1 & t2 & Hm & Hk & ->)]%bind_inv.
  - apply queue_install_installs in Hm. by exists 1.
  - apply queue_install_installs in Hm. apply IH in Hk as (n & Hn & Hlen).
    exists (S n). split.
    + by rewrite installs_of_app, Hm, Hn.
    + intros mods' Hr. f_equal. by eapply Hlen.
Qed.

End QueueOrder.

(** X8. [apply_queue] first changes the priorities, in the order of
    [moves], and only then installs the queued packages, in the order
    of [installs]: each with the priority it was queued with, no
    selects, the one pool of the batch, and the path it was queued
    under with [QUEUE] replaced by nothing.  A run that ends without
    an exception has made every move and every install. *)
Theorem apply_queue_moves_then_installs
    (C : Collab) (params : QueueParams) (st st' : State C) (r : Res unit)
    (t : list Event) :
  apply_queue C params st = (r, st', t) →
  let pool := st_next_pool st in
  ∃ t1 t2 k n,
    t = t1 ++ t2
    ∧ installs_of t1 = []
    ∧ moves_of t2 = []
    ∧ moves_of t1
      = (λ mv, (mv_mod mv, mv_priority mv)) <$> take k (qp_moves params)
    ∧ installs_of t2 = queue_call pool <$> take n (qp_installs params)
    ∧ (r = Ok tt →
       k = length (qp_moves params) ∧ n = length (qp_installs params)).
Proof.
  intros Hrun pool. unfold apply_queue in Hrun.
  apply bind_inv in Hrun
    as [(e & Hm & ->) | (mods & st1 & t1 & t2 & Hm & Hk & ->)].
  { destruct (moves_record C _ _ _ _ _ Hm) as (k & Hmoves & _).
    exists t, [], k, 0. rewrite app_nil_r. split_and!; try done.
    revert Hm. apply (quiet_map_M C install_of). quiet. }
  destruct (moves_record C _ _ _ _ _ Hm) as (k & Hmoves & Hk1).
  assert (installs_of t1 = []) as Hi1.
  { revert Hm. apply (quiet_map_M C install_of). quiet. }
  assert (moves_of t2 = []) as Hm2.
  { revert Hk. apply (quiet_bind C move_of).
    - by apply quiet_after_moves.
    - intros _. by apply quiet_call. }
  apply moves_next_pool in Hm as Hpool.
  apply bind_inv in Hk
    as [(e & Hw & ->) | (mods2 & st2 & t3 & t4 & Hw & Hr & ->)].
  - apply with_Pool_inv in Hw as (st3 & t3 & Hloop & -> & ->).
    apply queue_loop_installs in Hloop as (n & Hn & _).
    exists t1, (EvPoolOpen (st_next_pool st1) :: t3
                ++ [EvPoolClose (st_next_pool st1)]), k, n.
    split_and!; try done.
    change (EvPoolOpen ?p :: ?l) with ([EvPoolOpen p] ++ l).
    rewrite !installs_of_app, Hn. simpl. rewrite app_nil_r.
    unfold pool. by rewrite Hpool.
  - apply with_Pool_inv in Hw as (st3 & t5 & Hloop & -> & ->).
    apply queue_loop_installs in Hloop as (n & Hn & Hlen).
    exists t1, ((EvPoolOpen (st_next_pool st1) :: t5
                 ++ [EvPoolClose (st_next_pool st1)]) ++ t4), k, n.
    split_and!; try done.
    + change (EvPoolOpen ?p :: ?l) with ([EvPoolOpen p] ++ l).
      rewrite !installs_of_app, Hn. simpl. rewrite app_nil_r.
      assert (installs_of t4 = []) as ->.
      { revert Hr. by apply (quiet_call C install_of). }
      rewrite app_nil_r. unfold pool. by rewrite Hpool.
    + intros _. split; [by eapply Hk1 | by eapply Hlen].
Qed.

Lemma apply_queue_moves_then_installs_witness :
  let params := mkQueue [mkMove Demo.mod_a 5] [mkQueued "QUEUEb.bnp" PyNone 7] in
  let run := apply_queue Demo.collab params (Demo.start Demo.world_with_a) in
  run.1.1 = Ok tt
  ∧ ∃ t1 t2,
      run.2 = t1 ++ t2
      ∧ moves_of t1 = [(Demo.mod_a, 5%Z)]
      ∧ installs_of t2 = [mkCall "b.bnp" PyNone None (Some 7%Z) 0].
Proof.
  intros params run.
  assert (run.1.1 = Ok tt) as Hr by (vm_compute; reflexivity).
  split; [exact Hr|].
  destruct (apply_queue_moves_then_installs Demo.collab params
              (Demo.start Demo.world_with_a) run.1.2 run.1.1 run.2)
    as (t1 & t2 & k & n & Ht & _ & _ & Hmoves & Hinst & Hlen).
  - apply outcome_eta. reflexivity.
  - destruct (Hlen Hr) as [-> ->]. exists t1, t2.
    split; [exact Ht|]. split; [exact Hmoves | exact Hinst].
Defined.

(** ** The marker of a queued path *)

Section Marker.

Lemma contains_cons pat c s :
  contains pat (String c s) = false →
  String.prefix pat (String c s) = false ∧ contains pat s = false.
Proof. simpl contains. by intros [? ?]%orb_false_elim. Qed.

Lemma replace_without old new s :
  contains old s = false → replace_from old new 0 s = s.
Proof.
  induction s as [|c s IH]; [done|].
  intros [Hp Hs]%contains_cons. cbn [replace_from].
  rewrite Hp. f_equal. by apply IH.
Qed.

Lemma prefix_nil s : String.prefix EmptyString s = true.
Proof. by destruct s. Qed.

Lemma replace_before_marker a b :
  contains "Q" a = false → contains "QUEUE" b = false →
  replace_from "QUEUE" EmptyString 0 (a +:+ "QUEUE" +:+ b) = a +:+ b.
Proof.
  intros Ha Hb. induction a as [|c a IH].
  - cbv [String.append]. simpl. rewrite prefix_nil. cbv [String.append].
    by apply replace_without.
  - apply contains_cons in Ha as [Hp Ha].
    change (String c a +:+ ?s) with (String c (a +:+ s)).
    cbn [replace_from].
    assert (String.prefix "QUEUE" (String c (a +:+ "QUEUE" +:+ b)) = false) as ->.
    { revert Hp. cbn [String.prefix].
      match goal with
      | |- context [Ascii.ascii_dec ?x c] =>
          destruct (Ascii.ascii_dec x c) as [<-|]
      end; [|done].
      by rewrite prefix_nil. }
    f_equal. by apply IH.
Qed.

End Marker.

(** X9. The path a queued install is installed from is the queued path
    with the marker [QUEUE] taken out: a path made of a part without
    [Q], the marker, and a part in which the marker does not occur
    again is installed from the two parts joined; a path in which the
    marker does not occur is installed from as it is. *)
Theorem queue_call_strips_marker
    (pool : nat) (a b : string) (options : PyVal) (priority : Z) :
  contains "Q" a = false →
  contains "QUEUE" b = false →
  ic_path (queue_call pool (mkQueued (a +:+ "QUEUE" +:+ b) options priority))
  = a +:+ b
  ∧ ic_path (queue_call pool (mkQueued b options priority)) = b.
Proof.
  intros Ha Hb. split.
  - by apply replace_before_marker.
  - by apply replace_without.
Qed.

Lemma queue_call_strips_marker_witness :
  ic_path (queue_call 0 (mkQueued "/home/link/QUEUEmods/b.bnp" PyNone 7))
  = "/home/link/mods/b.bnp".
Proof.
  apply (queue_call_strips_marker 0 "/home/link/" "mods/b.bnp" PyNone 7);
    reflexivity.
Defined.


(** ** The further entry points *)

Section Entry.
Context {C : Collab} (K : Toolkit C).

Lemma version_too_old (major minor : N) :
  (major <? 3)%N || ((3 <=? major)%N && (minor <? 7)%N) = true
  ↔ (major < 3 ∨ minor < 7)%N.
Proof.
  destruct (N.ltb_spec major 3), (N.leb_spec 3 major), (N.ltb_spec minor 7);
    simpl; split; intros; try done; try lia; auto.
Qed.

(** What the envelope makes of an operation that raises an exception
    built with its own [error_text]. *)
Lemma win_or_lose_own_text {A} (func : M C A) st st1 t cls msg text e :
  func st = (Raise (mkExc cls msg (Some text) None), st1, t) →
  cls ∉ BaseException_only →
  log_write C (newline +:+ msg +:+ newline) (st_env st1) = (Ok tt, e) →
  win_or_lose C func st
  = (Ok {[ "error" := PyStr text; "error_text" := PyBool true ]},
     set_env C st1 e, t ++ [EvLogWrite (newline +:+ msg +:+ newline) (Ok tt)]).
Proof.
  intros Hf Hcls Hlog.
  rewrite (win_or_lose_failure C func st _ st1 t Hf); simpl.
  - by rewrite Hlog.
  - by apply bool_decide_eq_true.
Qed.

End Entry.

(** X10. [sanity_check] turns away every Python whose major version is
    below 3 or whose minor version is below 7, whatever the major
    version (3.6 and 2.7, and 4.0 as well), before it looks at anything
    else; after that it turns away a Python whose [sys.maxsize] does
    not exceed [2 ** 32].  Either exception carries its message as
    [error_text], so that the envelope answers with the message itself,
    not with a traceback.  A check that passes was made on a 64 bit
    Python with major version at least 3 and minor version at least
    7. *)
Theorem sanity_check_gates
    (C : Collab) (K : Toolkit C) (major minor : N) (maxsize : Z) (st : State C) :
  let old := RuntimeError_with_text (version_message major minor) in
  let narrow := RuntimeError_with_text bits_message in
  ((major < 3 ∨ minor < 7)%N →
   sanity_check K major minor maxsize st = (Raise old, st, [])
   ∧ ∀ e,
       log_write C (newline +:+ version_message major minor +:+ newline)
         (st_env st) = (Ok tt, e) →
       win_or_lose C (sanity_check K major minor maxsize) st
       = (Ok {[ "error" := PyStr (version_message major minor);
                "error_text" := PyBool true ]},
          set_env C st e,
          [EvLogWrite (newline +:+ version_message major minor +:+ newline)
             (Ok tt)]))
  ∧ ((3 ≤ major)%N → (7 ≤ minor)%N → (maxsize ≤ 2 ^ 32)%Z →
     sanity_check K major minor maxsize st = (Raise narrow, st, []))
  ∧ (∀ st' t,
       sanity_check K major minor maxsize st = (Ok tt, st', t) →
       (3 ≤ major)%N ∧ (7 ≤ minor)%N ∧ (2 ^ 32 < maxsize)%Z).
Proof.
  intros old narrow. split_and!.
  - intros Hold. apply version_too_old in Hold as Hgate.
    assert (sanity_check K major minor maxsize st = (Raise old, st, [])) as Hrun.
    { unfold sanity_check. by rewrite Hgate. }
    split; [exact Hrun|]. intros e Hlog.
    by rewrite (win_or_lose_own_text _ _ _ _ _ _ _ _ Hrun ltac:(by compute_done) Hlog).
  - intros Hmajor Hminor Hsize. unfold sanity_check.
    destruct ((major <? 3)%N || _) eqn:Hgate.
    { apply version_too_old in Hgate. lia. }
    destruct (Z.ltb_spec (2 ^ 32) maxsize); [lia|done].
  - intros st' t. unfold sanity_check.
    destruct ((major <? 3)%N || _) eqn:Hgate; [done|].
    destruct (Z.ltb_spec (2 ^ 32) maxsize); [|done].
    intros _. split_and!; [| |done].
    + destruct (N.le_gt_cases 3 major) as [|Hlt]; [done|].
      assert ((major < 3 ∨ minor < 7)%N) as Hold%version_too_old by auto.
      congruence.
    + destruct (N.le_gt_cases 7 minor) as [|Hlt]; [done|].
      assert ((major < 3 ∨ minor < 7)%N) as Hold%version_too_old by auto.
      congruence.
Qed.

(** Python 4.0 is turned away, with the message as the answer. *)
Lemma sanity_check_gates_witness :
  let K := Bench.toolkit DialogNone ∅ [] in
  let st := Demo.start Demo.empty_world in
  (4 < 3 ∨ 0 < 7)%N
  ∧ (win_or_lose Bench.C (sanity_check K 4 0 (2 ^ 63 - 1)) st).1.1
    = Ok {[ "error" :=
              PyStr "BCML requires Python 3.7 or higher, but you have 4.0";
            "error_text" := PyBool true ]}.
Proof.
  intros K st.
  assert ((4 < 3 ∨ 0 < 7)%N) as Hold by (right; reflexivity).
  split; [exact Hold|].
  destruct (sanity_check_gates Bench.C K 4 0 (2 ^ 63 - 1) st) as (Hgate & _ & _).
  destruct (Hgate Hold) as [_ Henv].
  rewrite (Henv Demo.empty_world); reflexivity.
Defined.

(** X11. [mod_action] with the action [update] calls the decorated
    [update_mod] and drops the envelope it answers with.  When no write
    to the log file has failed, the outer envelope is the success
    envelope, also when the update has failed with an [Exception]; the
    one other outcome is an exception that is not an [Exception], which
    both decorators let through as the update raised it. *)
Theorem mod_action_update_hides_failure
    (C : Collab) (K : Toolkit C) (md : BcmlMod) (st st' : State C)
    (r : Res (gmap string PyVal)) (t : list Event) :
  win_or_lose C (mod_action K md "update") st = (r, st', t) →
  log_failures t = [] →
  ((r = Ok {[ "success" := PyBool true ]}
    ∧ ∃ inner, Api_update_mod K md st = (Ok inner, st', t))
   ∨ (∃ e, r = Raise e ∧ is_Exception e = false
           ∧ install_refresher K (update_mod C md) st = (Raise e, st', t)))
  ∧ (∀ err st1 t1,
       install_refresher K (update_mod C md) st = (Raise err, st1, t1) →
       is_Exception err = true →
       r = Ok {[ "success" := PyBool true ]}).
Proof.
  intros Hrun Hlog.
  assert ((r = Ok {[ "success" := PyBool true ]}
           ∧ ∃ inner, Api_update_mod K md st = (Ok inner, st', t))
          ∨ (∃ e, r = Raise e ∧ is_Exception e = false
                  ∧ install_refresher K (update_mod C md) st = (Raise e, st', t)))
    as Hcases.
  { destruct (mod_action K md "update" st) as [[[[]|err] st1] t1] eqn:Hact.
    - rewrite (win_or_lose_returns C _ st tt st1 t1 Hact) in Hrun.
      injection Hrun as <- <- <-. left. split; [done|].
      unfold mod_action in Hact. simpl in Hact.
      apply bind_inv in Hact
        as [(e & Hm & ?) | (inner & st2 & t2 & t3 & Hm & Hk & ->)]; [done|].
      injection Hk as <- <-. exists inner. by rewrite app_nil_r.
    - pose proof Hact as Hraise. unfold mod_action in Hact. simpl in Hact.
      apply bind_inv in Hact
        as [(e & Hm & Herr) | (inner & st2 & t2 & t3 & Hm & Hk & ->)]; [|done].
      injection Herr as <-. unfold Api_update_mod in Hm.
      apply win_or_lose_raise_inv in Hm
        as [[Hfunc Hexc] | (err0 & st0 & t0 & env0 & _ & _ & _ & _ & ->)].
      + rewrite (win_or_lose_passes C _ st err st1 t1 Hraise Hexc) in Hrun.
        injection Hrun as <- <- <-. right. by exists err.
      + exfalso. destruct (is_Exception err) eqn:Hexc.
        * rewrite (win_or_lose_failure C _ st err st1 _ Hraise Hexc) in Hrun.
          destruct (log_write C _ (st_env st1)) as [[[]|e2] env];
            injection Hrun as <- <- <-;
            unfold log_failures in Hlog; rewrite !flat_map_app in Hlog;
            simpl in Hlog; by destruct (flat_map log_failure_of t0).
        * rewrite (win_or_lose_passes C _ st err st1 _ Hraise Hexc) in Hrun.
          injection Hrun as <- <- <-.
          unfold log_failures in Hlog. rewrite !flat_map_app in Hlog.
          simpl in Hlog. by destruct (flat_map log_failure_of t0). }
  split; [exact Hcases|].
  intros err st1 t1 Hup Hexc.
  destruct Hcases as [[-> _] | (e & -> & Hnot & Hup')]; [done|].
  rewrite Hup in Hup'. injection Hup' as -> _ _. congruence.
Qed.

(** The update of [a.bnp] from the chosen file [z.bnp] fails, and
    [mod_action] answers with success. *)
Lemma mod_action_update_hides_failure_witness :
  let K := Bench.toolkit DialogNone ∅ [] in
  let st := Demo.start Bench.world_bad_pick in
  let run := win_or_lose Bench.C (mod_action K Demo.mod_a "update") st in
  let err := mkExc "FileNotFoundError" "z.bnp" None None in
  (install_refresher K (update_mod Bench.C Demo.mod_a) st).1.1 = Raise err
  ∧ is_Exception err = true
  ∧ log_failures run.2 = []
  ∧ run.1.1 = Ok {[ "success" := PyBool true ]}.
Proof.
  intros K st run err.
  assert ((install_refresher K (update_mod Bench.C Demo.mod_a) st).1.1 = Raise err)
    as Hup by (vm_compute; reflexivity).
  assert (log_failures run.2 = []) as Hlog by (vm_compute; reflexivity).
  split; [exact Hup|]. split; [reflexivity|]. split; [exact Hlog|].
  destruct (mod_action_update_hides_failure Bench.C K Demo.mod_a st
              run.1.2 run.1.1 run.2) as [_ Hhide].
  - apply outcome_eta. reflexivity.
  - exact Hlog.
  - apply (Hhide err _ _ (outcome_eta _ _ Hup)). reflexivity.
Defined.

(** X12. [export] with no mod installed raises an exception whose
    [error_text] is [No mods installed to export.] before any dialog
    is shown; as the exception itself has no message, the envelope
    answers with that text and the log receives an empty line.  With
    mods installed and the save dialog cancelled, [export] returns
    without exporting anything. *)
Theorem export_without_mods_or_target
    (C : Collab) (K : Toolkit C) (st : State C) :
  let text := "No mods installed to export." in
  let line := newline +:+ EmptyString +:+ newline in
  (util_get_installed_mods C (st_env st) = [] →
   export K st = (Raise (Exception_with_text text), st, [])
   ∧ ∀ e, log_write C line (st_env st) = (Ok tt, e) →
          win_or_lose C (export K) st
          = (Ok {[ "error" := PyStr text; "error_text" := PyBool true ]},
             set_env C st e, [EvLogWrite line (Ok tt)]))
  ∧ (util_get_installed_mods C (st_env st) ≠ [] →
     ∀ wiiu st1 t1 out st2 t2,
       util_get_setting K "wiiu" st = (Ok wiiu, st1, t1) →
       save_dialog K
         [(if truthy wiiu then "Graphic Pack" else "Atmosphere") +:+ " (*.zip)";
          "BOTW Nano Patch (*.bnp)"]
         "exported-mods.zip" st1 = (Ok out, st2, t2) →
       chosen out = false →
       export K st = (Ok tt, st2, t1 ++ t2)).
Proof.
  intros text line. split.
  - intros Hnone.
    assert (export K st = (Raise (Exception_with_text text), st, [])) as Hrun.
    { unfold export, mbind, M_bind, bind, read. by rewrite Hnone. }
    split; [exact Hrun|]. intros e Hlog.
    by rewrite (win_or_lose_own_text _ _ _ _ _ _ _ _ Hrun ltac:(by compute_done) Hlog).
  - intros Hsome wiiu st1 t1 out st2 t2 Hwiiu Hdialog Hout.
    unfold export, mbind, M_bind, bind, read.
    destruct (util_get_installed_mods C (st_env st)) as [|md mods]; [done|].
    cbn [app]. rewrite Hwiiu, Hdialog, Hout. unfold ret.
    by rewrite app_nil_r.
Qed.

Lemma export_without_mods_or_target_witness :
  let K := Bench.toolkit DialogNone ∅ [] in
  (win_or_lose Bench.C (export K) (Demo.start Demo.empty_world)).1.1
  = Ok {[ "error" := PyStr "No mods installed to export.";
          "error_text" := PyBool true ]}
  ∧ export K (Demo.start Demo.world_with_a)
    = (Ok tt, Demo.start Demo.world_with_a, []).
Proof.
  intros K.
  destruct (export_without_mods_or_target Bench.C K (Demo.start Demo.empty_world))
    as [Hempty _].
  destruct (Hempty eq_refl) as [_ Henv].
  destruct (export_without_mods_or_target Bench.C K (Demo.start Demo.world_with_a))
    as [_ Hcancel].
  split.
  - rewrite (Henv Demo.empty_world); reflexivity.
  - apply (Hcancel ltac:(discriminate) PyNone (Demo.start Demo.world_with_a) []
             DialogNone (Demo.start Demo.world_with_a) []); reflexivity.
Defined.

(** X13. [create_bnp] with the save dialog cancelled raises an
    exception whose [error_text] is [cancelled], which the envelope
    answers with; this happens after [params["name"]] has been read
    and before any other key of the parameters is, so that parameters
    that lack [folder], [selects] or [options] make no difference. *)
Theorem create_bnp_cancelled
    (C : Collab) (K : Toolkit C) (params : gmap string PyVal) (name : PyVal)
    (safe : string) (out : DialogOut) (st st1 st2 : State C)
    (t1 t2 : list Event) :
  params !! "name" = Some name →
  util_get_safe_pathname K name st = (Ok safe, st1, t1) →
  save_dialog K ["BOTW Nano Patch (*.bnp)"; "All files (*.*)"]
    (safe +:+ ".bnp") st1 = (Ok out, st2, t2) →
  chosen out = false →
  let line := newline +:+ EmptyString +:+ newline in
  create_bnp K params st = (Raise (Exception_with_text "cancelled"), st2, t1 ++ t2)
  ∧ ∀ e, log_write C line (st_env st2) = (Ok tt, e) →
         win_or_lose C (create_bnp K params) st
         = (Ok {[ "error" := PyStr "cancelled"; "error_text" := PyBool true ]},
            set_env C st2 e, (t1 ++ t2) ++ [EvLogWrite line (Ok tt)]).
Proof.
  intros Hname Hsafe Hdialog Hout line.
  assert (create_bnp K params st
          = (Raise (Exception_with_text "cancelled"), st2, t1 ++ t2)) as Hrun.
  { unfold create_bnp, mbind, M_bind, bind, lift, getitem.
    rewrite Hname. cbn [app]. rewrite Hsafe, Hdialog, Hout. simpl.
    by rewrite app_nil_r. }
  split; [exact Hrun|]. intros e Hlog.
  by rewrite (win_or_lose_own_text _ _ _ _ _ _ _ _ Hrun ltac:(by compute_done) Hlog).
Qed.

Lemma create_bnp_cancelled_witness :
  let K := Bench.toolkit DialogNone ∅ [] in
  (win_or_lose Bench.C (create_bnp K {[ "name" := PyStr "Glider" ]})
     (Demo.start Demo.empty_world)).1.1
  = Ok {[ "error" := PyStr "cancelled"; "error_text" := PyBool true ]}.
Proof.
  intros K.
  destruct (create_bnp_cancelled Bench.C K {[ "name" := PyStr "Glider" ]}
              (PyStr "Glider") "Glider" DialogNone
              (Demo.start Demo.empty_world) (Demo.start Demo.empty_world)
              (Demo.start Demo.empty_world) [] []) as [_ Henv];
    [reflexivity..|].
  rewrite (Henv Demo.empty_world); reflexivity.
Defined.

(** X14. A [create_bnp] that returns has found the keys [name],
    [folder], [selects] and [options] in its parameters, with a string
    under [folder].  The meta it builds for [dev.create_bnp_mod] is the
    parameters without [folder] and [selects] and with the value of
    [selects] under [options] (where the parameters hold the options
    of the build); every other key is passed on unchanged. *)
Theorem create_bnp_meta
    (C : Collab) (K : Toolkit C) (params : gmap string PyVal)
    (st st' : State C) (t : list Event) :
  create_bnp K params st = (Ok tt, st', t) →
  ∃ name folder selects options meta,
    params !! "name" = Some name
    ∧ params !! "folder" = Some (PyStr folder)
    ∧ params !! "selects" = Some selects
    ∧ params !! "options" = Some options
    ∧ bnp_meta params = Ok meta
    ∧ meta !! "folder" = None
    ∧ meta !! "selects" = None
    ∧ meta !! "options" = Some selects
    ∧ (∀ k, k ≠ "folder" → k ≠ "selects" → k ≠ "options" →
            meta !! k = params !! k).
Proof.
  unfold create_bnp, lift, getitem, bnp_meta. intros Hrun.
  apply bind_inv in Hrun
    as [(e & Hm & ?) | (name & st1 & t1 & t1' & Hm & Hrun & ->)]; [done|].
  destruct (params !! "name") as [name'|] eqn:Hname; [|done].
  injection Hm as -> <- <-.
  apply bind_inv in Hrun
    as [(e & Hm & ?) | (safe & st2 & t2 & t2' & _ & Hrun & ->)]; [done|].
  apply bind_inv in Hrun
    as [(e & Hm & ?) | (out & st3 & t3 & t3' & _ & Hrun & ->)]; [done|].
  destruct (chosen out); [|done]. simpl in Hrun.
  apply bind_inv in Hrun
    as [(e & Hm & ?) | (meta & st4 & t4 & t4' & Hm & Hrun & ->)]; [done|].
  destruct (params !! "folder") as [folder|] eqn:Hfolder; [|done].
  destruct (params !! "selects") as [selects|] eqn:Hselects; [|done].
  injection Hm as <- <- <-.
  apply bind_inv in Hrun
    as [(e & Hm & ?) | (folder' & st5 & t5 & t5' & Hm & Hrun & ->)]; [done|].
  injection Hm as <- <- <-.
  apply bind_inv in Hrun
    as [(e & Hp & ?) | (path & st6 & t6 & t6' & Hp & Hrun & ->)]; [done|].
  destruct folder as [| | |folder|]; try done. clear Hp.
  apply bind_inv in Hrun
    as [(e & _ & ?) | (output & st7 & t7 & t7' & _ & Hrun & ->)]; [done|].
  apply bind_inv in Hrun
    as [(e & Hm & ?) | (options & st8 & t8 & t8' & Hm & Hrun & ->)]; [done|].
  destruct (params !! "options") as [options'|] eqn:Hoptions; [|done].
  eexists name, folder, selects, options', _.
  split_and!; try done.
  - by rewrite lookup_delete_ne, lookup_insert_ne, lookup_delete_eq.
  - by rewrite lookup_delete_eq.
  - by rewrite lookup_delete_ne, lookup_insert_eq.
  - intros k Hf Hs Ho.
    by rewrite lookup_delete_ne, lookup_insert_ne, lookup_delete_ne.
Qed.

(** A build of the folder [mods/glider]: the multiple choice options
    come under [options] of the meta. *)
Lemma create_bnp_meta_witness :
  let K := Bench.toolkit (DialogStr "glider.bnp") ∅ [] in
  let params : gmap string PyVal :=
    {[ "name" := PyStr "Glider"; "folder" := PyStr "mods/glider";
       "selects" := PyDict [("colour", PyStr "red")];
       "options" := PyDict [] ]} in
  (create_bnp K params (Demo.start Demo.empty_world)).1.1 = Ok tt
  ∧ ∃ meta, bnp_meta params = Ok meta
            ∧ meta !! "options" = Some (PyDict [("colour", PyStr "red")])
            ∧ meta !! "name" = Some (PyStr "Glider").
Proof.
  intros K params.
  assert ((create_bnp K params (Demo.start Demo.empty_world)).1.1 = Ok tt) as Hr.
  { vm_compute. reflexivity. }
  split; [exact Hr|].
  destruct (create_bnp_meta Bench.C K params (Demo.start Demo.empty_world)
              (create_bnp K params (Demo.start Demo.empty_world)).1.2
              (create_bnp K params (Demo.start Demo.empty_world)).2)
    as (name & folder & selects & options & meta
        & Hname & _ & Hselects & _ & Hmeta & _ & _ & Hopt & Hrest).
  - apply outcome_eta. exact Hr.
  - exists meta. split; [exact Hmeta|]. split.
    + rewrite Hopt. rewrite <- Hselects. reflexivity.
    + rewrite Hrest by discriminate. reflexivity.
Defined.


(** X15. [gen_rstb] asks for a folder and generates the table only for
    a folder that exists.  A dialog that answers with an empty tuple,
    or with a folder that does not exist, makes [gen_rstb] return
    without generating anything; a dialog that answers [None] is not
    covered by the [except] clause: indexing it raises a [TypeError]
    that leaves the operation. *)
Theorem gen_rstb_without_folder
    (C : Collab) (K : Toolkit C) (out : DialogOut) (st st1 : State C)
    (t1 : list Event) :
  folder_dialog K st = (Ok out, st1, t1) →
  (out = DialogTuple [] → gen_rstb K st = (Ok tt, st1, t1))
  ∧ (∀ folder rest st2 t2,
       out = DialogTuple (folder :: rest) →
       path_exists K folder st1 = (Ok false, st2, t2) →
       gen_rstb K st = (Ok tt, st2, t1 ++ t2))
  ∧ (out = DialogNone →
     gen_rstb K st = (Raise TypeError_not_subscriptable, st1, t1)).
Proof.
  intros Hdialog. split_and!.
  - intros ->.
    unfold gen_rstb, try_except_of, try_except, get_folder, mbind, M_bind,
      bind, lift.
    rewrite Hdialog. simpl. by rewrite !app_nil_r.
  - intros folder rest st2 t2 -> Hexists.
    unfold gen_rstb, try_except_of, try_except, get_folder, mbind, M_bind,
      bind, lift.
    rewrite Hdialog. simpl. rewrite Hexists. simpl. by rewrite !app_nil_r.
  - intros ->.
    unfold gen_rstb, try_except_of, try_except, get_folder, mbind, M_bind,
      bind, lift.
    rewrite Hdialog. simpl. by rewrite !app_nil_r.
Qed.

Lemma gen_rstb_without_folder_witness :
  gen_rstb (Bench.toolkit (DialogTuple []) ∅ []) (Demo.start Demo.empty_world)
  = (Ok tt, Demo.start Demo.empty_world, [])
  ∧ gen_rstb (Bench.toolkit DialogNone ∅ []) (Demo.start Demo.empty_world)
    = (Raise TypeError_not_subscriptable, Demo.start Demo.empty_world, []).
Proof.
  split.
  - destruct (gen_rstb_without_folder Bench.C (Bench.toolkit (DialogTuple []) ∅ [])
                (DialogTuple []) (Demo.start Demo.empty_world)
                (Demo.start Demo.empty_world) [] eq_refl) as (Hempty & _ & _).
    exact (Hempty eq_refl).
  - destruct (gen_rstb_without_folder Bench.C (Bench.toolkit DialogNone ∅ [])
                DialogNone (Demo.start Demo.empty_world)
                (Demo.start Demo.empty_world) [] eq_refl) as (_ & _ & Hnone).
    exact (Hnone eq_refl).
Defined.

(** ** The names of the backups *)

Section Split.

Lemma split_from_nonempty sep skip s : split_from sep skip s ≠ [].
Proof.
  revert skip. induction s as [|c s IH]; intros skip; [done|].
  cbn [split_from]. destruct skip as [|k]; [|apply IH].
  destruct (String.prefix sep (String c s)); [done|].
  by destruct (split_from sep 0 s).
Qed.

Lemma split_without sep s :
  contains sep s = false → split_from sep 0 s = [s].
Proof.
  induction s as [|c s IH]; [done|].
  intros [Hp Hs]%contains_cons. cbn [split_from]. by rewrite Hp, (IH Hs).
Qed.

Lemma split_with sep s :
  sep ≠ EmptyString →
  contains sep s = true → ∃ x y ys, split_from sep 0 s = x :: y :: ys.
Proof.
  intros Hsep. induction s as [|c s IH].
  { by destruct sep. }
  cbn [contains split_from].
  destruct (String.prefix sep (String c s)).
  - intros _. pose proof (split_from_nonempty sep (String.length sep - 1) s).
    destruct (split_from sep (String.length sep - 1) s) as [|y ys]; [done|].
    by exists EmptyString, y, ys.
  - intros (x & y & ys & ->)%IH. by exists (String c x), y, ys.
Qed.

Lemma split_at_separator name num :
  contains "-" name = false → contains "---" num = false →
  split_from "---" 0 (name +:+ "---" +:+ num) = [name; num].
Proof.
  intros Hname Hnum. induction name as [|c name IH].
  - cbv [String.append]. simpl. rewrite prefix_nil.
    by rewrite (split_without _ _ Hnum).
  - apply contains_cons in Hname as [Hp Hname].
    change (String c name +:+ ?s) with (String c (name +:+ s)).
    cbn [split_from].
    assert (String.prefix "---" (String c (name +:+ "---" +:+ num)) = false) as ->.
    { revert Hp. cbn [String.prefix].
      match goal with
      | |- context [Ascii.ascii_dec ?x c] =>
          destruct (Ascii.ascii_dec x c) as [<-|]
      end; [|done].
      by rewrite prefix_nil. }
    by rewrite (IH Hname).
Qed.

End Split.

Section Backups.
Context {C : Collab} (K : Toolkit C).

Lemma backup_entries_ok (l : list (list string * string)) (st : State C) :
  Forall (λ b, ∃ x y ys, b.1 = x :: y :: ys) l →
  ∃ entries,
    map_M C backup_entry l st = (Ok entries, st, [])
    ∧ (λ e, e !! "path") <$> entries = (λ b, Some (PyStr b.2)) <$> l.
Proof.
  induction 1 as [|[pieces b] l (x & y & ys & Hb) _ (entries & Hrun & Hpaths)].
  { by exists []. }
  simpl in Hb. subst pieces.
  eexists (_ :: entries). split.
  - cbn [map_M]. unfold mbind, M_bind, bind. unfold backup_entry at 1.
    cbn [fst snd ret]. rewrite Hrun. reflexivity.
  - rewrite !fmap_cons, Hpaths. f_equal.
Qed.

Lemma backup_entries_raise (l : list (list string * string)) (st : State C) :
  Forall (λ b, b.1 ≠ []) l →
  Exists (λ b, ∃ x, b.1 = [x]) l →
  map_M C backup_entry l st = (Raise IndexError, st, []).
Proof.
  intros Hne. induction 1 as [[pieces b] l (x & Hb)|[pieces b] l _ IH].
  - simpl in Hb. subst pieces. done.
  - apply Forall_cons in Hne as [Hb Hne]. specialize (IH Hne).
    cbn [map_M]. unfold mbind, M_bind, bind. unfold backup_entry at 1.
    cbn [fst snd ret].
    destruct pieces as [|x [|y ys]]; [done..|]. cbn [ret]. by rewrite IH.
Qed.

End Backups.

(** X16. [get_backups] answers with one entry for each backup file,
    holding its path, when the stem of every file contains [---]; as
    soon as one stem does not, splitting it gives a single piece and
    [get_backups] raises [IndexError], whatever the other files are
    called. *)
Theorem get_backups_needs_separator
    (C : Collab) (K : Toolkit C) (backups : list string) (st st1 : State C)
    (t1 : list Event) :
  install_get_backups K st = (Ok backups, st1, t1) →
  (Forall (λ b, contains "---" (path_stem K b) = true) backups →
   ∃ entries,
     get_backups K st = (Ok entries, st1, t1)
     ∧ (λ e, e !! "path") <$> entries = (λ b, Some (PyStr b)) <$> backups)
  ∧ (Exists (λ b, contains "---" (path_stem K b) = false) backups →
     get_backups K st = (Raise IndexError, st1, t1)).
Proof.
  intros Hlist. split.
  - intros Hall.
    destruct (backup_entries_ok
                ((λ b, (str_split "---" (path_stem K b), b)) <$> backups) st1)
      as (entries & Hrun & Hpaths).
    { apply Forall_fmap. eapply Forall_impl; [exact Hall|].
      intros b Hb. simpl. by apply split_with. }
    exists entries. split.
    + unfold get_backups, mbind, M_bind, bind. rewrite Hlist, Hrun.
      by rewrite app_nil_r.
    + rewrite Hpaths, <- list_fmap_compose. done.
  - intros Hsome.
    unfold get_backups, mbind, M_bind, bind. rewrite Hlist.
    rewrite backup_entries_raise; [by rewrite app_nil_r| |].
    + apply Forall_fmap, Forall_forall. intros b _. simpl.
      apply split_from_nonempty.
    + apply Exists_fmap. eapply Exists_impl; [exact Hsome|].
      intros b Hb. simpl. exists (path_stem K b). by apply split_without.
Qed.

Lemma get_backups_needs_separator_witness :
  (get_backups (Bench.toolkit DialogNone ∅ ["backups/hero---1"; "backups/old"])
     (Demo.start Demo.empty_world)).1.1 = Raise IndexError.
Proof.
  destruct (get_backups_needs_separator Bench.C
              (Bench.toolkit DialogNone ∅ ["backups/hero---1"; "backups/old"])
              ["backups/hero---1"; "backups/old"]
              (Demo.start Demo.empty_world) (Demo.start Demo.empty_world) []
              eq_refl) as [_ Hraise].
  rewrite Hraise; [reflexivity|].
  apply Exists_cons_tl, Exists_cons_hd. reflexivity.
Defined.

(** X17. A backup whose stem is a name without [-], then [---], then a
    number part in which [---] does not occur, is listed under exactly
    that name and that number, with its path. *)
Theorem backup_name_and_number
    (C : Collab) (K : Toolkit C) (b name num : string) (st : State C) :
  path_stem K b = name +:+ "---" +:+ num →
  contains "-" name = false →
  contains "---" num = false →
  backup_entry (str_split "---" (path_stem K b), b) st
  = (Ok {[ "name" := PyStr name; "num" := PyStr num; "path" := PyStr b ]},
     st, []).
Proof.
  intros -> Hname Hnum. unfold str_split, backup_entry. cbn [fst snd].
  by rewrite (split_at_separator _ _ Hname Hnum).
Qed.

Lemma backup_name_and_number_witness :
  backup_entry (C := Bench.C)
    (str_split "---" "before_dlc---3", "before_dlc---3")
    (Demo.start Demo.empty_world)
  = (Ok {[ "name" := PyStr "before_dlc"; "num" := PyStr "3";
           "path" := PyStr "before_dlc---3" ]},
     Demo.start Demo.empty_world, []).
Proof.
  apply (backup_name_and_number Bench.C (Bench.toolkit DialogNone ∅ [])
           "before_dlc---3" "before_dlc" "3"); reflexivity.
Defined.


(** ** Options, folders and old settings *)

Section Options.
Context {C : Collab} (K : Toolkit C).

(** The metas read are those of packages of the list whose name ends
    in [.bnp]. *)
Lemma extract_metas_keys mods (st : State C) metas st' t md meta :
  extract_metas K mods st = (Ok metas, st', t) →
  metas !! md = Some meta →
  md ∈ mods ∧ ends_with ".bnp" md = true.
Proof.
  revert st metas st' t. induction mods as [|m mods IH]; intros st metas st' t.
  { intros [= <- <- <-]. by rewrite lookup_empty. }
  cbn [extract_metas]. destruct (ends_with ".bnp" m) eqn:Hbnp.
  - intros [(e & Hm & ?) | (meta1 & st1 & t1 & t2 & Hm & Hk & ->)]%bind_inv;
      [done|].
    apply bind_inv in Hk
      as [(e & Hr & ?) | (metas1 & st2 & t3 & t4 & Hr & Hk & ->)]; [done|].
    injection Hk as <- <- <-. intros Hlook.
    destruct (decide (md = m)) as [->|Hne].
    { split; [apply list_elem_of_here | done]. }
    assert (metas1 !! md = Some meta) as Hin.
    { destruct (bool_decide (m ∈ dom metas1)); [done|].
      by rewrite lookup_insert_ne in Hlook. }
    destruct (IH _ _ _ _ Hr Hin) as [? ?].
    split; [by apply list_elem_of_further | done].
  - intros Hr Hlook. destruct (IH _ _ _ _ Hr Hlook) as [? ?].
    split; [by apply list_elem_of_further | done].
Qed.

(** A package that is not a [.bnp] is never opened: the list without
    it gives the same run. *)
Lemma extract_metas_skips mods :
  extract_metas K mods
  = extract_metas K (filter (λ md, ends_with ".bnp" md = true) mods).
Proof.
  induction mods as [|m mods IH]; [done|].
  cbn [extract_metas]. destruct (ends_with ".bnp" m) eqn:Hbnp.
  - rewrite filter_cons_True by done. cbn [extract_metas].
    by rewrite Hbnp, IH.
  - rewrite filter_cons_False by congruence. exact IH.
Qed.

End Options.

(** X18. [check_mod_options] opens only the packages whose name ends
    in [.bnp] (the others can be left out of the list without changing
    the run), and answers with the metas that have a non-empty
    [options] entry: every key of the answer is a [.bnp] package of
    the list, and the meta under it has [options] that are neither
    missing nor empty. *)
Theorem check_mod_options_only_bnp_with_options
    (C : Collab) (K : Toolkit C) (mods : list string) (st : State C) :
  check_mod_options K mods st
  = check_mod_options K (filter (λ md, ends_with ".bnp" md = true) mods) st
  ∧ ∀ answer st' t md meta,
      check_mod_options K mods st = (Ok answer, st', t) →
      answer !! md = Some meta →
      md ∈ mods
      ∧ ends_with ".bnp" md = true
      ∧ ∃ v, meta !! "options" = Some v ∧ truthy v = true.
Proof.
  split.
  { unfold check_mod_options. by rewrite <- extract_metas_skips. }
  intros answer st' t md meta Hrun Hlook.
  unfold check_mod_options in Hrun.
  apply bind_inv in Hrun
    as [(e & Hm & ?) | (metas & st1 & t1 & t2 & Hm & Hk & ->)]; [done|].
  injection Hk as <- <- <-.
  apply map_lookup_filter_Some in Hlook as [Hlook Hopt]. simpl in Hopt.
  destruct (extract_metas_keys K _ _ _ _ _ _ _ Hm Hlook) as [Hin Hbnp].
  split_and!; [done..|].
  unfold has_options in Hopt.
  destruct (meta !! "options") as [v|]; [|done]. by exists v.
Qed.

(** Of [a.bnp], [notes.txt] and [c.bnp], only [c.bnp] has options to
    choose from. *)
Lemma check_mod_options_only_bnp_with_options_witness :
  let K := Bench.toolkit DialogNone ∅ [] in
  let run := check_mod_options K ["a.bnp"; "notes.txt"; "c.bnp"]
               (Demo.start Demo.empty_world) in
  ∃ answer,
    run.1.1 = Ok answer
    ∧ dom answer = {[ "c.bnp" ]}
    ∧ ∀ md meta, answer !! md = Some meta → ends_with ".bnp" md = true.
Proof.
  intros K run.
  destruct run as [[[answer|err] st'] t] eqn:Hrun.
  - exists answer. split; [reflexivity|]. split.
    + assert (run.1.1 = Ok answer) as Hr by (by rewrite Hrun).
      vm_compute in Hr. injection Hr as <-. vm_compute. reflexivity.
    + intros md meta Hlook.
      destruct (check_mod_options_only_bnp_with_options Bench.C K
                  ["a.bnp"; "notes.txt"; "c.bnp"] (Demo.start Demo.empty_world))
        as [_ Hkeys].
      by destruct (Hkeys answer st' t md meta Hrun Hlook) as (_ & ? & _).
  - exfalso. assert (run.1.1 = Raise err) as Hr by (by rewrite Hrun).
    vm_compute in Hr. discriminate.
Defined.


(** X19. [dir_exists] answers [True] only for a folder that is given
    by a non-empty string, that exists and that is a directory, and
    only for one of the four kinds of folder it knows; the empty
    string, for which [Path] stands for the current directory, is
    never accepted. *)
Theorem dir_exists_true_only_for_real_folder
    (C : Collab) (K : Toolkit C) (folder type : string) (st st' : State C)
    (t : list Event) :
  dir_exists K folder type st = (Ok (PyBool true), st', t) →
  folder ≠ EmptyString
  ∧ (∃ st1 t1 st2 t2,
       path_exists K folder st = (Ok true, st1, t1)
       ∧ path_is_dir K folder st1 = (Ok true, st2, t2))
  ∧ (type = "cemu_dir" ∨ contains "game_dir" type = true
     ∨ type = "update_dir" ∨ contains "dlc_dir" type = true).
Proof.
  unfold dir_exists. intros Hrun.
  apply bind_inv in Hrun
    as [(e & Hm & ?) | (there & st1 & t1 & t1' & Hthere & Hrun & ->)]; [done|].
  apply bind_inv in Hrun
    as [(e & Hm & ?) | (is_dir & st2 & t2 & t2' & Hdir & Hrun & ->)]; [done|].
  destruct there; [|by destruct is_dir].
  destruct is_dir; [|done].
  destruct (String.eqb_spec folder EmptyString) as [->|Hne]; [done|].
  split; [done|]. split; [by exists st1, t1, st2, t2|].
  cbn [andb negb] in Hrun.
  destruct (String.eqb_spec type "cemu_dir") as [->|_]; [by left|].
  destruct (contains "game_dir" type); [by right; left|].
  destruct (String.eqb_spec type "update_dir") as [->|_]; [by right; right; left|].
  destruct (contains "dlc_dir" type); [by right; right; right|].
  done.
Qed.

Lemma dir_exists_true_only_for_real_folder_witness :
  let K := Bench.toolkit DialogNone ∅ ["game"; "game/Pack/Dungeon000.pack"] in
  (dir_exists K "game" "game_dir" (Demo.start Demo.empty_world)).1.1
  = Ok (PyBool true)
  ∧ (dir_exists K EmptyString "game_dir" (Demo.start Demo.empty_world)).1.1
    = Ok (PyBool false).
Proof.
  intros K.
  assert ((dir_exists K "game" "game_dir" (Demo.start Demo.empty_world)).1.1
          = Ok (PyBool true)) as Hr by (vm_compute; reflexivity).
  split; [exact Hr|].
  destruct (dir_exists_true_only_for_real_folder Bench.C K "game" "game_dir"
              (Demo.start Demo.empty_world) _ _ (outcome_eta _ _ Hr))
    as (_ & _ & _).
  vm_compute. reflexivity.
Defined.

(** X20. Once the old settings file has been looked for, [old_settings]
    always answers and never raises: whatever exception the conversion
    raises, or reading the settings after it, is swallowed by the bare
    [except] and answered with [Your old settings could not be
    converted.], also when the conversion returned and reading the
    settings raised; the converted settings are part of the answer only
    when both steps returned. *)
Theorem old_settings_swallows_failures
    (C : Collab) (K : Toolkit C) (data_dir : string) (there : bool)
    (st st1 st2 : State C) (t1 t2 : list Event) :
  util_get_data_dir K st = (Ok data_dir, st1, t1) →
  path_exists K (path_join K data_dir "settings.ini") st1 = (Ok there, st2, t2) →
  ∃ answer st' t,
    old_settings K st = (Ok answer, st', t)
    ∧ answer !! "exists" = Some (PyBool there)
    ∧ (there = false → answer !! "message" = Some (PyStr "No old settings found."))
    ∧ (∀ e st3 t3,
         upgrade_convert_old_settings K st2 = (Raise e, st3, t3) →
         there = true →
         answer !! "message"
         = Some (PyStr "Your old settings could not be converted.")
         ∧ answer !! "settings" = None)
    ∧ (is_Some (answer !! "settings") →
       ∃ st3 t3 settings st4 t4,
         upgrade_convert_old_settings K st2 = (Ok tt, st3, t3)
         ∧ util_get_settings K st3 = (Ok settings, st4, t4)
         ∧ answer !! "settings" = Some (PyDict_of settings))
    ∧ (∀ st3 t3 e st4 t4,
         upgrade_convert_old_settings K st2 = (Ok tt, st3, t3) →
         util_get_settings K st3 = (Raise e, st4, t4) →
         there = true →
         answer !! "message"
         = Some (PyStr "Your old settings could not be converted.")
         ∧ answer !! "settings" = None).
Proof.
  intros Hdata Hthere.
  unfold old_settings, mbind at 1 2, M_bind at 1 2, bind.
  rewrite Hdata, Hthere. destruct there.
  - unfold try_except_all, try_except, mbind, M_bind, bind.
    destruct (upgrade_convert_old_settings K st2) as [[[[]|e] st3] t3] eqn:Hconv.
    + destruct (util_get_settings K st3) as [[[settings|e] st4] t4] eqn:Hset.
      * eexists _, _, _. split; [reflexivity|]. split_and!; try done.
        -- intros _. by exists st3, t3, settings, st4, t4.
        -- intros ????? [= <- <-]. by rewrite Hset.
      * eexists _, _, _. split; [reflexivity|]. split_and!; try done.
        intros [? Hs]. by rewrite lookup_insert_ne, lookup_singleton_ne in Hs.
    + eexists _, _, _. split; [reflexivity|]. split_and!; try done.
      intros [? Hs]. by rewrite lookup_insert_ne, lookup_singleton_ne in Hs.
  - eexists _, _, _. split; [reflexivity|]. split_and!; try done.
    intros [? Hs]. by rewrite lookup_insert_ne, lookup_singleton_ne in Hs.
Qed.

(** An old settings file that cannot be converted. *)
Lemma old_settings_swallows_failures_witness :
  let K := Bench.toolkit DialogNone ∅ ["data/settings.ini"] in
  ∃ answer,
    (old_settings K (Demo.start Demo.empty_world)).1.1 = Ok answer
    ∧ answer !! "exists" = Some (PyBool true)
    ∧ answer !! "message"
      = Some (PyStr "Your old settings could not be converted.").
Proof.
  intros K.
  destruct (old_settings_swallows_failures Bench.C K "data" true
              (Demo.start Demo.empty_world) (Demo.start Demo.empty_world)
              (Demo.start Demo.empty_world) [] [] eq_refl eq_refl)
    as (answer & st' & t & Hrun & Hexists & _ & Hfail & _).
  exists answer. rewrite Hrun. split; [reflexivity|]. split; [exact Hexists|].
  by destruct (Hfail (mkExc "KeyError" "'cemu_dir'" None None)
                 (Demo.start Demo.empty_world) [] eq_refl eq_refl).
Defined.


(** ** More on the argument relay *)

Section RelayMore.
Import Relay.
Context (process_arg : string → Res unit).

Lemma string_of_list_byte_nil data :
  String.string_of_list_byte data = EmptyString → data = [].
Proof. by destruct data. Qed.

Lemma string_of_list_byte_inj data1 data2 :
  String.string_of_list_byte data1 = String.string_of_list_byte data2 →
  data1 = data2.
Proof.
  intros Heq.
  by rewrite <- (String.list_byte_of_string_of_list_byte data1), Heq,
    String.list_byte_of_string_of_list_byte.
Qed.

(** What one connection hands to the handler was decoded from a chunk
    it received, and that chunk was neither empty nor the terminator. *)
Lemma serve_conn_handled script arg :
  arg ∈ handled (serve_conn process_arg script).1 →
  ∃ data, RecvData data ∈ script ∧ decode_utf8 data = Some arg
          ∧ data ≠ [] ∧ data ≠ terminator.
Proof.
  induction script as [|[data| |e] script IH]; cbn [serve_conn].
  - by intros ?%elem_of_nil.
  - destruct (bool_decide (data = [])) eqn:Hnil;
      [by intros ?%elem_of_nil|].
    destruct (bool_decide (data = terminator)) eqn:Hterm;
      [by intros ?%elem_of_nil|].
    apply bool_decide_eq_false in Hnil, Hterm. cbn [orb].
    destruct (decode_utf8 data) as [arg'|] eqn:Hdec;
      [|by intros ?%elem_of_nil].
    destruct (process_arg arg') as [[]|e].
    + destruct (serve_conn process_arg script) as [t r]. cbn [fst handled flat_map].
      intros [->|Hin]%elem_of_cons.
      * exists data. split_and!; [apply list_elem_of_here|done..].
      * destruct (IH Hin) as (data' & ? & ? & ? & ?).
        exists data'. split_and!; [by apply list_elem_of_further|done..].
    + cbn [fst handled flat_map]. rewrite app_nil_r.
      intros ->%list_elem_of_singleton.
      exists data. split_and!; [apply list_elem_of_here|done..].
  - by intros ?%elem_of_nil.
  - by intros ?%elem_of_nil.
Qed.

Lemma accept_loop_handled k conns arg :
  arg ∈ handled (accept_loop process_arg k conns).1 →
  ∃ script data, script ∈ conns ∧ RecvData data ∈ script
                 ∧ decode_utf8 data = Some arg
                 ∧ data ≠ [] ∧ data ≠ terminator.
Proof.
  revert k. induction conns as [|script conns IH]; intros k; cbn [accept_loop].
  { by intros ?%elem_of_nil. }
  pose proof (serve_conn_handled script arg) as Hserve.
  destruct (serve_conn process_arg script) as [t r]. cbn [fst] in Hserve.
  assert (arg ∈ handled t →
          ∃ script0 data, script0 ∈ script :: conns ∧ RecvData data ∈ script0
                          ∧ decode_utf8 data = Some arg
                          ∧ data ≠ [] ∧ data ≠ terminator) as Hhere.
  { intros (data & ? & ? & ? & ?)%Hserve.
    exists script, data. split_and!; [apply list_elem_of_here|done..]. }
  destruct r as [| |e].
  - specialize (IH (S k)).
    destruct (accept_loop process_arg (S k) conns) as [t' s]. cbn [fst] in *.
    change (NAccept k :: t ++ NCloseConn k :: t')
      with ([NAccept k] ++ t ++ [NCloseConn k] ++ t').
    rewrite !handled_app. cbn [handled flat_map app].
    intros [Hin|Hin]%elem_of_app; [by apply Hhere|].
    destruct (IH Hin) as (script0 & data & ? & ? & ? & ? & ?).
    exists script0, data. split_and!; [by apply list_elem_of_further|done..].
  - cbn [fst handled flat_map app]. exact Hhere.
  - cbn [fst]. change (NAccept k :: ?l) with ([NAccept k] ++ l).
    rewrite !handled_app. cbn [handled flat_map app]. rewrite app_nil_r.
    exact Hhere.
Qed.

End RelayMore.

(** X21. Whatever arrives on the connections, the handler of the
    listener is only ever given text that was decoded from one chunk
    received on one of them, a chunk that was neither empty nor the
    lone terminator: it is never called with the empty string or with
    [.], and never in a process whose [bind] failed. *)
Theorem relay_hands_over_received_text_only
    (process_arg : string → Res unit) (argv : string) (bind_ok : bool)
    (conns : list (list Relay.Recv)) (arg : string) :
  arg ∈ Relay.handled (Relay.oneclick_listener process_arg argv bind_ok conns).1 →
  bind_ok = true
  ∧ arg ≠ EmptyString
  ∧ arg ≠ "."
  ∧ ∃ script data,
      script ∈ conns ∧ Relay.RecvData data ∈ script
      ∧ Relay.decode_utf8 data = Some arg.
Proof.
  unfold Relay.oneclick_listener. destruct bind_ok.
  - pose proof (accept_loop_handled process_arg 0 conns arg) as Hloop.
    destruct (Relay.accept_loop process_arg 0 conns) as [t s]. cbn [fst] in *.
    intros (script & data & Hs & Hd & Hdec & Hne & Hnt)%Hloop.
    apply decode_utf8_Some in Hdec as Harg.
    split_and!; [done| | |by exists script, data].
    + intros Hempty. rewrite Hempty in Harg. symmetry in Harg.
      by apply string_of_list_byte_nil in Harg.
    + intros Hdot. rewrite Hdot in Harg. apply Hnt.
      by apply string_of_list_byte_inj.
  - cbn. by intros ?%elem_of_nil.
Qed.

Lemma relay_hands_over_received_text_only_witness :
  let conns := [[Relay.RecvData (Relay.encode_utf8 "bcml:install");
                 Relay.RecvData Relay.terminator]] in
  Relay.handled (Relay.oneclick_listener (λ _, Ok tt) "bcml" true conns).1
  = ["bcml:install"]
  ∧ ("bcml:install" : string) ≠ ".".
Proof.
  intros conns.
  assert (Relay.handled (Relay.oneclick_listener (λ _, Ok tt) "bcml" true conns).1
          = ["bcml:install"]) as Hrun by (vm_compute; reflexivity).
  split; [exact Hrun|].
  destruct (relay_hands_over_received_text_only (λ _, Ok tt) "bcml" true conns
              "bcml:install") as (_ & _ & Hdot & _).
  - rewrite Hrun. apply list_elem_of_here.
  - exact Hdot.
Defined.


Section RelayChunks.
Import Relay.
Context (process_arg : string → Res unit).

(** Well-formed UTF-8 followed by more bytes is well-formed exactly
    when the bytes that follow are. *)
Lemma utf8_valid_app l1 l2 :
  utf8_valid l1 = true → utf8_valid (l1 ++ l2) = utf8_valid l2.
Proof.
  remember (length l1) as n eqn:Hn. revert l1 Hn.
  induction n as [n IH] using lt_wf_ind. intros l1 -> Hvalid.
  destruct l1 as [|b0 l1]; [done|].
  cbn [app]. cbn [utf8_valid] in Hvalid |- *.
  destruct (b0 <=? 0x7F)%N.
  { apply (IH (length l1)); [simpl; lia|done..]. }
  destruct l1 as [|b1 l1]; [done|]. cbn [app].
  destruct (in_range 0xC2 0xDF b0).
  { apply andb_true_iff in Hvalid as [-> Hvalid]. cbn [andb].
    apply (IH (length l1)); [simpl; lia|done..]. }
  destruct l1 as [|b2 l1]; [done|]. cbn [app].
  destruct (in_range 0xE0 0xEF b0).
  { apply andb_true_iff in Hvalid as [Hvalid' Hvalid].
    rewrite Hvalid'. cbn [andb].
    apply (IH (length l1)); [simpl; lia|done..]. }
  destruct l1 as [|b3 l1]; [done|]. cbn [app].
  apply andb_true_iff in Hvalid as [Hvalid' Hvalid].
  rewrite Hvalid'. cbn [andb].
  apply (IH (length l1)); [simpl; lia|done..].
Qed.

Lemma string_of_list_byte_app data1 data2 :
  String.string_of_list_byte (data1 ++ data2)
  = String.string_of_list_byte data1 +:+ String.string_of_list_byte data2.
Proof.
  induction data1 as [|b data1 IH]; [done|].
  cbn [app].
  change (String.string_of_list_byte (b :: ?l))
    with (String (Ascii.ascii_of_byte b) (String.string_of_list_byte l)).
  change (String ?c ?s +:+ ?s') with (String c (s +:+ s')). by rewrite IH.
Qed.

Lemma decode_utf8_with_terminator data text :
  decode_utf8 data = Some text →
  decode_utf8 (data ++ terminator) = Some (text +:+ ".").
Proof.
  unfold decode_utf8.
  destruct (utf8_valid (Byte.to_N <$> data)) eqn:Hvalid; [|done].
  intros [= <-]. rewrite fmap_app, (utf8_valid_app _ _ Hvalid).
  cbn [fmap list_fmap terminator]. simpl utf8_valid.
  by rewrite string_of_list_byte_app.
Qed.

(** A chunk on which the inner loop fails: the chunks before it have
    been handed over, the rest of the connection is not read. *)
Lemma serve_conn_undecodable chunks bad rest :
  Forall (forwardable process_arg) chunks →
  decode_utf8 bad = None →
  serve_conn process_arg ((RecvData <$> chunks) ++ RecvData bad :: rest)
  = ((λ data, NProcessArg (String.string_of_list_byte data)) <$> chunks,
     Failed UnicodeDecodeError).
Proof.
  intros Hchunks Hbad.
  induction Hchunks as [|data chunks (Hne & Hnt & arg & Hdec & Hok) _ IH].
  - cbn [fmap list_fmap app serve_conn].
    rewrite bool_decide_eq_false_2, bool_decide_eq_false_2.
    + cbn [orb]. by rewrite Hbad.
    + by intros ->.
    + by intros ->.
  - rewrite !fmap_cons, <- app_comm_cons.
    rewrite (serve_conn_forward process_arg data _ arg Hne Hnt Hdec Hok), IH.
    cbn [fst snd]. by rewrite (decode_utf8_Some _ _ Hdec).
Qed.

(** The connections served to their end, and then the others. *)
Lemma accept_loop_scripts_then k convs conns :
  Forall (λ cv, Forall (forwardable process_arg) (cv_chunks cv)) convs →
  accept_loop process_arg k ((script_of <$> convs) ++ conns)
  = (concat (imap (λ i cv, served (k + i) cv) convs)
     ++ (accept_loop process_arg (k + length convs) conns).1,
     (accept_loop process_arg (k + length convs) conns).2).
Proof.
  intros Hall. revert k. induction Hall as [|cv convs Hcv _ IH]; intros k.
  { cbn [fmap list_fmap app imap concat length]. rewrite Nat.add_0_r.
    by destruct (accept_loop process_arg k conns). }
  rewrite fmap_cons, <- app_comm_cons.
  rewrite (accept_loop_break _ _ _ _ _ (serve_conn_script process_arg cv Hcv)).
  rewrite (IH (S k)), imap_cons. cbn [fst snd concat length].
  rewrite Nat.add_0_r, served_shift.
  replace (S k + length convs) with (k + S (length convs)) by lia.
  f_equal. unfold served at 2. cbn [app]. f_equal.
  by rewrite <- !app_assoc.
Qed.

Lemma handled_forwarded (chunks : list (list Byte.byte)) :
  handled ((λ data, NProcessArg (String.string_of_list_byte data)) <$> chunks)
  = String.string_of_list_byte <$> chunks.
Proof. induction chunks as [|data chunks IH]; [done|]. simpl. by f_equal. Qed.

(** The connections accepted while serving [convs] from the [k]-th on. *)
Lemma accepted_while_serving k convs j :
  NAccept j ∈ concat (imap (λ i cv, served (k + i) cv) convs) →
  k ≤ j < k + length convs.
Proof.
  revert k. induction convs as [|cv convs IH]; intros k.
  { by intros ?%elem_of_nil. }
  rewrite imap_cons. cbn [concat length]. rewrite served_shift.
  intros [Hin|Hin]%elem_of_app.
  - unfold served in Hin. rewrite Nat.add_0_r in Hin.
    apply elem_of_cons in Hin as [[= ->]|Hin]; [lia|].
    apply elem_of_app in Hin as [Hin|Hin].
    + apply list_elem_of_fmap in Hin as (data & ? & _). done.
    + apply list_elem_of_singleton in Hin. done.
  - apply IH in Hin. lia.
Qed.

End RelayChunks.

(** X22. The terminator ends a connection only as a chunk of its own.
    When it arrives in one chunk with the text before it, the loop
    does not recognise it: the handler is given the text with the [.]
    at its end, and the connection is read further. *)
Theorem relay_terminator_must_stand_alone
    (process_arg : string → Res unit) (data : list Byte.byte) (text : string)
    (script : list Relay.Recv) :
  data ≠ [] →
  Relay.decode_utf8 data = Some text →
  process_arg (text +:+ ".") = Ok tt →
  Relay.serve_conn process_arg (Relay.RecvData (data ++ Relay.terminator) :: script)
  = (Relay.NProcessArg (text +:+ ".") :: (Relay.serve_conn process_arg script).1,
     (Relay.serve_conn process_arg script).2).
Proof.
  intros Hne Hdec Hok.
  apply serve_conn_forward; [| |by apply decode_utf8_with_terminator|done].
  - by destruct data.
  - destruct data as [|b [|b' data]]; [done| |]; by intros [=].
Qed.

Lemma relay_terminator_must_stand_alone_witness :
  Relay.serve_conn (λ _, Ok tt)
    [Relay.RecvData (Relay.encode_utf8 "bcml:install" ++ Relay.terminator)]
  = ([Relay.NProcessArg "bcml:install."], Relay.WaitingRecv).
Proof.
  apply (relay_terminator_must_stand_alone (λ _, Ok tt)
           (Relay.encode_utf8 "bcml:install") "bcml:install" []).
  - discriminate.
  - reflexivity.
  - reflexivity.
Defined.

(** X23. One chunk that is not UTF-8 ends the relay for good.  After
    connections served to their end, a connection that delivers such a
    chunk makes [decode] raise: the chunks before it have been handed
    over, nothing after it is, the connection and then the listening
    socket are closed, which are the last two calls, and the listener
    dies with the [UnicodeDecodeError]; no later connection is
    accepted. *)
Theorem relay_dies_on_undecodable_chunk
    (process_arg : string → Res unit) (argv : string)
    (convs : list Relay.Conversation) (chunks : list (list Byte.byte))
    (bad : list Byte.byte) (rest : list Relay.Recv)
    (later : list (list Relay.Recv)) :
  Forall (λ cv, Forall (Relay.forwardable process_arg) (Relay.cv_chunks cv))
         convs →
  Forall (Relay.forwardable process_arg) chunks →
  Relay.decode_utf8 bad = None →
  let conns := (Relay.script_of <$> convs)
               ++ ((Relay.RecvData <$> chunks) ++ Relay.RecvData bad :: rest)
                  :: later in
  let run := Relay.oneclick_listener process_arg argv true conns in
  run.2 = Relay.Died Relay.UnicodeDecodeError
  ∧ Relay.handled run.1
    = String.string_of_list_byte
        <$> (concat (Relay.cv_chunks <$> convs) ++ chunks)
  ∧ (∀ k, Relay.NAccept k ∈ run.1 → k ≤ length convs)
  ∧ last run.1 = Some Relay.NCloseSock
  ∧ ∃ before,
      run.1 = before ++ [Relay.NCloseConn (length convs); Relay.NCloseSock].
Proof.
  intros Hconvs Hchunks Hbad conns run. unfold run, conns, Relay.oneclick_listener.
  rewrite (accept_loop_scripts_then process_arg 0 convs _ Hconvs).
  cbn [Relay.accept_loop].
  rewrite (serve_conn_undecodable process_arg chunks bad rest Hchunks Hbad).
  cbn [fst snd]. split_and!.
  - done.
  - change (Relay.NBind ?e ?b :: Relay.NListen :: ?l)
      with ([Relay.NBind e b; Relay.NListen] ++ l).
    change (Relay.NAccept ?k :: ?l) with ([Relay.NAccept k] ++ l).
    rewrite !handled_app, (handled_all_served 0), handled_forwarded.
    cbn [Relay.handled flat_map app]. by rewrite app_nil_r, fmap_app.
  - intros k Hin.
    apply elem_of_cons in Hin as [?|Hin]; [done|].
    apply elem_of_cons in Hin as [?|Hin]; [done|].
    apply elem_of_app in Hin as [Hin|Hin].
    { apply accepted_while_serving in Hin. lia. }
    apply elem_of_cons in Hin as [[= ->]|Hin]; [lia|].
    apply elem_of_app in Hin as [Hin|Hin].
    + apply list_elem_of_fmap in Hin as (data & ? & _). done.
    + apply elem_of_cons in Hin as [?|Hin]; [done|].
      apply list_elem_of_singleton in Hin. done.
  - rewrite !last_cons, last_app, last_cons, last_app. done.
  - eexists (_ :: _ :: _ ++ _ :: _). cbn [app]. by rewrite <- app_assoc.
Qed.

(** After [bcml:install] has been relayed on a first connection, a
    second one delivers the lone byte [0xff]: the third connection is
    never accepted. *)
Lemma relay_dies_on_undecodable_chunk_witness :
  let first := Relay.mkConversation [Relay.encode_utf8 "bcml:install"]
                 Relay.Sentinel [] in
  let conns := [Relay.script_of first; [Relay.RecvData [Byte.xff]];
                [Relay.RecvData (Relay.encode_utf8 "bcml:remerge")]] in
  let run := Relay.oneclick_listener (λ _, Ok tt) "bcml" true conns in
  run.2 = Relay.Died Relay.UnicodeDecodeError
  ∧ Relay.handled run.1 = ["bcml:install"].
Proof.
  intros first conns run.
  destruct (relay_dies_on_undecodable_chunk (λ _, Ok tt) "bcml" [first] []
              [Byte.xff] []
              [[Relay.RecvData (Relay.encode_utf8 "bcml:remerge")]])
    as (Hdied & Hhandled & _).
  - apply Forall_singleton, Forall_singleton.
    split; [discriminate|]. split; [discriminate|].
    exists "bcml:install". split; reflexivity.
  - apply Forall_nil_2.
  - reflexivity.
  - split; [exact Hdied | exact Hhandled].
Defined.
